(** * Verification of borg's chunking core ([src/borg/chunker.pyx])

    The development embeds the rolling hash (buzhash), the sparse-range
    enumerator, the three chunkers ([ChunkerFailing], [ChunkerFixed] and
    the content-defined [Chunker]) and proves the properties the
    specification states about them.

    Conventions.
    - A [uint32_t] is a [Z] in [0, 2^32); every operation that can leave
      that range in C is followed by [u32], its wrap-around.
    - Buffer sizes and offsets ([size_t], Python ints) are [nat]; the
      subtractions the code performs on them are shown to be exact on
      every reachable state (see [chunker_inv]).
    - Bytes are [Byte.byte]; a byte string is a [list byte].
    - A loop that the code runs until some event is a [Fixpoint] over a
      fuel argument; running out of fuel is the result [None]. *)

From Stdlib Require Import Strings.Ascii Strings.String Strings.Byte.
From Stdlib Require Import ZArith NArith List Bool Arith Lia.
Import ListNotations.

Local Open Scope Z_scope.

(* ================================================================== *)
(** * Part I: the program *)
(* ================================================================== *)

(** ** Cyclic polynomial hash (buzhash) *)

Module Buzhash.

(** Wrap-around of a 32-bit unsigned value. *)
Definition u32 (x : Z) : Z := x mod 2 ^ 32.

(** Values of type [uint32_t]. *)
Definition is_u32 (x : Z) : Prop := 0 <= x < 2 ^ 32.

(** [cdef uint32_t table_base[256]] *)
Definition table_base : list Z := [
    0xe7f831ec; 0xf4026465; 0xafb50cae; 0x6d553c7a; 0xd639efe3; 0x19a7b895; 0x9aba5b21; 0x5417d6d4;
    0x35fd2b84; 0xd1f6a159; 0x3f8e323f; 0xb419551c; 0xf444cebf; 0x21dc3b80; 0xde8d1e36; 0x84a32436;
    0xbeb35a9d; 0xa36f24aa; 0xa4e60186; 0x98d18ffe; 0x3f042f9e; 0xdb228bcd; 0x096474b7; 0x5c20c2f7;
    0xf9eec872; 0xe8625275; 0xb9d38f80; 0xd48eb716; 0x22a950b4; 0x3cbaaeaa; 0xc37cddd3; 0x8fea6f6a;
    0x1d55d526; 0x7fd6d3b3; 0xdaa072ee; 0x4345ac40; 0xa077c642; 0x8f2bd45b; 0x28509110; 0x55557613;
    0xffc17311; 0xd961ffef; 0xe532c287; 0xaab95937; 0x46d38365; 0xb065c703; 0xf2d91d0f; 0x92cd4bb0;
    0x4007c712; 0xf35509dd; 0x505b2f69; 0x557ead81; 0x310f4563; 0xbddc5be8; 0x9760f38c; 0x701e0205;
    0x00157244; 0x14912826; 0xdc4ca32b; 0x67b196de; 0x5db292e8; 0x8c1b406b; 0x01f34075; 0xfa2520f7;
    0x73bc37ab; 0x1e18bc30; 0xfe2c6cb3; 0x20c522d0; 0x5639e3db; 0x942bda35; 0x899af9d1; 0xced44035;
    0x98cc025b; 0x255f5771; 0x70fefa24; 0xe928fa4d; 0x2c030405; 0xb9325590; 0x20cb63bd; 0xa166305d;
    0x80e52c0a; 0xa8fafe2f; 0x1ad13f7d; 0xcfaf3685; 0x6c83a199; 0x7d26718a; 0xde5dfcd9; 0x79cf7355;
    0x8979d7fb; 0xebf8c55e; 0xebe408e4; 0xcd2affba; 0xe483be6e; 0xe239d6de; 0x5dc1e9e0; 0x0473931f;
    0x851b097c; 0xac5db249; 0x09c0f9f2; 0xd8d2f134; 0xe6f38e41; 0xb1c71bf1; 0x52b6e4db; 0x07224424;
    0x6cf73e85; 0x4f25d89c; 0x782a7d74; 0x10a68dcd; 0x3a868189; 0xd570d2dc; 0x69630745; 0x9542ed86;
    0x331cd6b2; 0xa84b5b28; 0x07879c9d; 0x38372f64; 0x7185db11; 0x25ba7c83; 0x01061523; 0xe6792f9f;
    0xe5df07d1; 0x4321b47f; 0x7d2469d8; 0x1a3a4f90; 0x48be29a3; 0x669071af; 0x8ec8dd31; 0x0810bfbf;
    0x813a06b4; 0x68538345; 0x65865ddc; 0x43a71b8e; 0x78619a56; 0x5a34451d; 0x5bdaa3ed; 0x71edc7e9;
    0x17ac9a20; 0x78d10bfa; 0x6c1e7f35; 0xd51839d9; 0x240cbc51; 0x33513cc1; 0xd2b4f795; 0xccaa8186;
    0x0babe682; 0xa33cf164; 0x18c643ea; 0xc1ca105f; 0x9959147a; 0x6d3d94de; 0x0b654fbe; 0xed902ca0;
    0x7d835cb5; 0x99ba1509; 0x6445c922; 0x495e76c2; 0xf07194bc; 0xa1631d7e; 0x677076a5; 0x89fffe35;
    0x1a49bcf3; 0x8e6c948a; 0x0144c917; 0x8d93aea1; 0x16f87ddf; 0xc8f25d49; 0x1fb11297; 0x27e750cd;
    0x2f422da1; 0xdee89a77; 0x1534c643; 0x457b7b8b; 0xaf172f7a; 0x6b9b09d6; 0x33573f7f; 0xf14e15c4;
    0x526467d5; 0xaf488241; 0x87c3ee0d; 0x33be490c; 0x95aa6e52; 0x43ec242e; 0xd77de99b; 0xd018334f;
    0x5b78d407; 0x498eb66b; 0xb1279fa8; 0xb38b0ea6; 0x90718376; 0xe325dee2; 0x8e2f2cba; 0xcaa5bdec;
    0x9d652c56; 0xad68f5cb; 0xa77591af; 0x88e37ee8; 0xf8faa221; 0xfcbbbe47; 0x4f407786; 0xaf393889;
    0xf444a1d9; 0x15ae1a2f; 0x40aa7097; 0x6f9486ac; 0x29d232a3; 0xe47609e9; 0xe8b631ff; 0xba8565f4;
    0x11288749; 0x46c9a838; 0xeb1b7cd8; 0xf516bbb1; 0xfb74fda0; 0x010996e6; 0x4c994653; 0x1d889512;
    0x53dcd9a3; 0xdd074697; 0x1e78e17c; 0x637c98bf; 0x930bb219; 0xcf7f75b0; 0xcb9355fb; 0x9e623009;
    0xe466d82c; 0x28f968d3; 0xfeb385d9; 0x238e026c; 0xb8ed0560; 0x0c6a027a; 0x3d6fec4b; 0xbb4b2ec2;
    0xe715031c; 0xeded011d; 0xcdc4d3b9; 0xc456fc96; 0xdd0eea20; 0xb3df8ec9; 0x12351993; 0xd9cbb01c;
    0x603147a2; 0xcf37d17d; 0xf7fcd9dc; 0xd8556fa3; 0x104c8131; 0x13152774; 0xb4715811; 0x6a72c2c9;
    0xc5ae37bb; 0xa76ce12a; 0x8150d8f3; 0x2ec29218; 0xa35f0984; 0x48c0647e; 0x0b5ff98c; 0x71893f7b
].

(** A C shift of a 32-bit operand is defined only for amounts in [0, 32). *)
Definition shift_defined (amount : Z) : bool :=
  (0 <=? amount) && (amount <? 32).

(** [#define BARREL_SHIFT(v, shift)
       (((v) << (shift)) | ((v) >> (((32 - (shift)) & 0x1f))))]
    on [uint32_t] operands: the left shift is cut to 32 bits, and
    [32 - shift] is computed in unsigned 32-bit arithmetic. *)
Definition BARREL_SHIFT (v shift : Z) : Z :=
  Z.lor (u32 (Z.shiftl v shift))
        (Z.shiftr v (Z.land (u32 (32 - shift)) 0x1f)).

(** The two shift amounts the macro hands to C's [<<] and [>>] are both
    inside the range where C defines the result. *)
Definition BARREL_SHIFT_defined (shift : Z) : bool :=
  shift_defined shift && shift_defined (Z.land (u32 (32 - shift)) 0x1f).

(** [h[b]] for a byte [b]: the table has 256 entries, so the index is
    always in range. *)
Definition tbl (h : list Z) (b : byte) : Z := nth (Byte.to_nat b) h 0.

(** [buzhash_init_table(uint32_t seed)] *)
Definition buzhash_init_table (seed : Z) : list Z :=
  map (fun t => Z.lxor t seed) table_base.

(** [data[0]]: the byte under the pointer.  A [bytes] object of CPython
    ends with a NUL byte behind its last byte, so [data[0]] of the empty
    byte string reads 0.  Any further read past the end is outside the C
    semantics; every statement below keeps the window it hashes inside
    the byte string. *)
Definition deref (data : list byte) : byte := hd x00 data.

(** The loop of [_buzhash]: [for i in range(len - 1, 0, -1)], with the
    running pointer [data] and the accumulator [sum].  The argument [i]
    is the current value of the loop counter. *)
Fixpoint _buzhash_loop (h : list Z) (i : nat) (data : list byte) (sum : Z)
  : Z * list byte :=
  match i with
  | O => (sum, data)
  | S i' =>
      let imod := Z.land (Z.of_nat i) 0x1f in
      let sum := Z.lxor sum (BARREL_SHIFT (tbl h (deref data)) imod) in
      _buzhash_loop h i' (tl data) sum
  end.

(** [_buzhash(data, len, h)].  The loop counter [i] is a [uint32_t]:
    [for i in range(len - 1, 0, -1)] runs for [i = L - 1, ..., 1] with
    [L] the length cut to 32 bits, and not at all when [L] is 0 (for
    [len = 0] and for every multiple of [2^32]); the hash is then the
    table entry of the first byte. *)
Definition _buzhash (data : list byte) (len : nat) (h : list Z) : Z :=
  let start := Nat.pred (Z.to_nat (u32 (Z.of_nat len))) in
  let '(sum, data) := _buzhash_loop h start data 0 in
  Z.lxor sum (tbl h (deref data)).

(** [_buzhash_update(sum, remove, add, len, h)] *)
Definition _buzhash_update (sum : Z) (remove add : byte) (len : nat)
  (h : list Z) : Z :=
  let lenmod := Z.land (Z.of_nat len) 0x1f in
  Z.lxor (Z.lxor (BARREL_SHIFT sum 1) (BARREL_SHIFT (tbl h remove) lenmod))
         (tbl h add).

(** A Python integer handed to an argument of a C unsigned type of
    [bits] bits: the call raises [OverflowError] when the value is
    outside the range of the type, before the body runs.  [None] stands
    for that exception. *)
Definition as_unsigned (bits x : Z) : option Z :=
  if (0 <=? x) && (x <? 2 ^ bits) then Some x else None.

(** [def buzhash(data, unsigned long seed)], with an [unsigned long] of
    64 bits. *)
Definition buzhash (data : list byte) (seed : Z) : option Z :=
  match as_unsigned 64 seed with
  | Some seed =>
      let table := buzhash_init_table (Z.land seed 0xffffffff) in
      Some (_buzhash data (length data) table)
  | None => None
  end.

(** [def buzhash_update(uint32_t sum, unsigned char remove,
                        unsigned char add, size_t len, unsigned long seed)],
    with [size_t] and [unsigned long] of 64 bits. *)
Definition buzhash_update (sum : Z) (remove add : byte) (len : nat)
  (seed : Z) : option Z :=
  match as_unsigned 32 sum, as_unsigned 64 (Z.of_nat len),
        as_unsigned 64 seed with
  | Some sum, Some _, Some seed =>
      let table := buzhash_init_table (Z.land seed 0xffffffff) in
      Some (_buzhash_update sum remove add len table)
  | _, _, _ => None
  end.

(** *** The share of the seed in a hash *)

(** The XOR of a list of words. *)
Definition xor_all (l : list Z) : Z := fold_right Z.lxor 0 l.

(** What the seed adds to the hash of [n] bytes: in [_buzhash] the
    table entry of the byte at distance [i] from the end of the window
    is rotated by [i & 0x1f], and every table entry carries the seed. *)
Definition seed_part (seed : Z) (n : nat) : Z :=
  xor_all (map (fun i => BARREL_SHIFT seed (Z.land (Z.of_nat i) 0x1f))
               (seq 0 n)).

(** The hash of a byte string over its own length, with 0 for the empty
    string, so that the hash of [a ++ b] is built from the hashes of
    [a] and [b] also when one of them is empty. *)
Definition hash_of (h : list Z) (data : list byte) : Z :=
  match data with
  | [] => 0
  | _ :: _ => _buzhash data (length data) h
  end.

End Buzhash.

(** ** Byte sources *)

Module Source.

(** The error numbers the code distinguishes. *)
Inductive errno := ENXIO | EINVAL | EIO.

Definition errno_eqb (a b : errno) : bool :=
  match a, b with
  | ENXIO, ENXIO | EINVAL, EINVAL | EIO, EIO => true
  | _, _ => false
  end.

(** The exceptions the code raises or lets through. *)
Inductive exn :=
| OSError (e : errno)
| ValueError
| IndexError
| ByteCountMismatch.   (* [Exception("chunkifier byte count mismatch")] *)

Inductive whence := SEEK_SET | SEEK_CUR | SEEK_END | SEEK_DATA | SEEK_HOLE.

(** A file-like byte source: [fd] (a Python file object) or [fh] (an OS
    file handle); the code treats both alike.

    - [f_bytes] is the logical content, [f_pos] the seek position.
    - [f_holes] flags the offsets that lie in a sparse hole (offsets
      past the end of the list are data).
    - [f_caps] makes reads short: the next read returns at most
      [hd f_caps] bytes, and so on; after the list reads are full.
    - [f_faults] makes the next data/hole seeks fail: [Some e] raises
      [OSError e], [None] lets the seek through. *)
Record file := mkfile {
  f_bytes : list byte;
  f_holes : list bool;
  f_pos : N;
  f_caps : list nat;
  f_faults : list (option errno)
}.

Definition f_len (f : file) : N := N.of_nat (length (f_bytes f)).

(** A regular file without holes, positioned at its start: reads are
    full and no seek fails. *)
Definition plain (b : list byte) : file := mkfile b [] 0 [] [].

Definition set_pos (f : file) (p : N) : file :=
  mkfile (f_bytes f) (f_holes f) p (f_caps f) (f_faults f).

(** [fd.read(n)] / [os.read(fh, n)] / [read(fh, buf, n)]: up to [n]
    bytes from the seek position, none at or past the end of the file. *)
Definition read (f : file) (n : N) : list byte * file :=
  let avail := skipn (N.to_nat (f_pos f)) (f_bytes f) in
  let cap := match f_caps f with
             | [] => n
             | c :: _ => N.min n (N.of_nat c)
             end in
  let data := firstn (N.to_nat cap) avail in
  (data,
   mkfile (f_bytes f) (f_holes f) (f_pos f + N.of_nat (length data))
          (tl (f_caps f)) (f_faults f)).

(** The first offset among [off, off + k) whose hole flag is [want]. *)
Fixpoint scan (want : bool) (holes : list bool) (off k : nat) : option nat :=
  match k with
  | O => None
  | S k' =>
      if Bool.eqb (nth off holes false) want then Some off
      else scan want holes (S off) k'
  end.

(** The two seeks that look for data and holes, and the hole flag each
    of them looks for. *)
Definition hole_seek (w : whence) : Prop := w = SEEK_DATA \/ w = SEEK_HOLE.

Definition wanted_flag (w : whence) : bool :=
  match w with SEEK_HOLE => true | _ => false end.

(** [os.lseek(fh, off, whence)] / [fd.seek(off, whence)] for offsets
    [off >= 0].  [SEEK_DATA] and [SEEK_HOLE] fail with [ENXIO] at or
    past the end of the file, and [SEEK_DATA] also when only a hole
    follows; the end of the file counts as a hole.  A failed seek leaves
    the position where it was. *)
Definition lseek (f : file) (off : N) (w : whence) : (errno + N) * file :=
  match w with
  | SEEK_SET => (inr off, set_pos f off)
  | SEEK_CUR => (inr (f_pos f + off)%N, set_pos f (f_pos f + off))
  | SEEK_END => (inr (f_len f + off)%N, set_pos f (f_len f + off))
  | SEEK_DATA | SEEK_HOLE =>
      let f' := mkfile (f_bytes f) (f_holes f) (f_pos f) (f_caps f)
                       (tl (f_faults f)) in
      match f_faults f with
      | Some e :: _ => (inl e, f')
      | _ =>
          if (f_len f <=? off)%N then (inl ENXIO, f')
          else
            let want := wanted_flag w in
            match scan want (f_holes f) (N.to_nat off)
                       (length (f_bytes f) - N.to_nat off) with
            | Some o => (inr (N.of_nat o), set_pos f' (N.of_nat o))
            | None =>
                if want then (inr (f_len f), set_pos f' (f_len f))
                else (inl ENXIO, f')
            end
      end
  end.

(** Two states of a file that differ in the seek position at most. *)
Definition same_content (f f' : file) : Prop :=
  f_bytes f' = f_bytes f /\ f_holes f' = f_holes f /\
  f_caps f' = f_caps f /\ f_faults f' = f_faults f.

(** [dread(offset, size, fd, fh)]; the [posix_fadvise] hint has no
    effect on what is read. *)
Definition dread (offset size : N) (f : file) : list byte * file :=
  read f size.

(** [dseek(amount, whence, fd, fh)] *)
Definition dseek (amount : N) (w : whence) (f : file) : (exn + N) * file :=
  match lseek f amount w with
  | (inl e, f') => (inl (OSError e), f')
  | (inr p, f') => (inr p, f')
  end.

(** [dpos_curr_end(fd, fh)] *)
Definition dpos_curr_end (f : file) : (exn + N * N) * file :=
  match dseek 0 SEEK_CUR f with
  | (inl e, f1) => (inl e, f1)
  | (inr curr, f1) =>
      match dseek 0 SEEK_END f1 with
      | (inl e, f2) => (inl e, f2)
      | (inr end_, f2) =>
          match dseek curr SEEK_SET f2 with
          | (inl e, f3) => (inl e, f3)
          | (inr _, f3) => (inr (curr, end_), f3)
          end
      end
  end.

(** What one pull ([next]) from an iterator gives. *)
Inductive outcome (A : Type) :=
| Yield (a : A)
| StopIteration
| Raise (e : exn).
Arguments Yield {A} a.
Arguments StopIteration {A}.
Arguments Raise {A} e.

End Source.

(** ** Chunks *)

Module ChunkDef.

Inductive Allocation := CH_DATA | CH_ALLOC | CH_HOLE.

(** [_Chunk(meta, data)] with [meta = {'allocation': .., 'size': ..}];
    [data] is [None] for chunks without payload. *)
Record Chunk := mkChunk {
  data : option (list byte);
  size : nat;
  allocation : Allocation
}.

(** [bytes.startswith]: [prefix] is a prefix of [s]. *)
Fixpoint startswith (s prefix : list byte) : bool :=
  match prefix, s with
  | [], _ => true
  | p :: prefix', c :: s' => Byte.eqb c p && startswith s' prefix'
  | _ :: _, [] => false
  end.

(** The classification both [ChunkerFixed.chunkify] and
    [Chunker.__next__] apply to a block of bytes:
    [if zeros.startswith(data): data = None; allocation = CH_ALLOC
     else: allocation = CH_DATA], then
    [Chunk(data, size=got, allocation=allocation)]. *)
Definition classify (zeros : list byte) (block : list byte) : Chunk :=
  let got := length block in
  if startswith zeros block then mkChunk None got CH_ALLOC
  else mkChunk (Some block) got CH_DATA.

(** What a reader of the chunk stream rebuilds from one chunk: the
    payload of a chunk that has one, [size] zero bytes otherwise. *)
Definition rebuild (c : Chunk) : list byte :=
  match data c with
  | Some payload => payload
  | None => repeat x00 (size c)
  end.

Definition rebuild_all (cs : list Chunk) : list byte :=
  concat (map rebuild cs).

Definition total_size (cs : list Chunk) : nat :=
  fold_right (fun c acc => (size c + acc)%nat) 0%nat cs.

Definition all_zero (block : list byte) : bool :=
  forallb (fun b => Byte.eqb b x00) block.

(** [classified ch block]: the chunk [ch] is what the classification
    makes of the bytes [block] it covers: [ALLOC] without payload when
    they are all zero, [DATA] with the bytes as payload otherwise, and
    of their size in both cases. *)
Definition classified (ch : Chunk) (block : list byte) : Prop :=
  size ch = length block /\
  ((all_zero block = true /\ allocation ch = CH_ALLOC /\ data ch = None) \/
   (all_zero block = false /\ allocation ch = CH_DATA /\
    data ch = Some block)).

(** The offsets in the stream at which the chunks end, for chunks that
    start at offset [off]. *)
Fixpoint boundaries (off : nat) (cs : list Chunk) : list nat :=
  match cs with
  | [] => []
  | c :: cs' => (off + size c)%nat :: boundaries (off + size c) cs'
  end.

End ChunkDef.

(** ** The sparse-range enumerator *)

Module Sparsemap.
Import Source.

(** [(start, length, is_data)] *)
Definition range : Type := N * N * bool.

(** The points at which the generator [sparsemap] can be found between
    two pulls.  The two suspended states hold the local variables that
    are still needed when the generator is resumed. *)
Inductive gen :=
| Created                                      (* body not yet entered *)
| AtRangeYield (curr file_len end_ : N) (is_data : bool)
                                               (* suspended at the second [yield] *)
| AtTailYield (curr : N)                       (* suspended at the first [yield] *)
| Finished.

(** The [finally] clause: [dseek(curr, os.SEEK_SET, fd, fh)].  An
    exception raised here replaces the way the [try] block was left. *)
Definition finally (curr : N) (leave : outcome range) (f : file)
  : outcome range * gen * file :=
  match dseek curr SEEK_SET f with
  | (inl e, f') => (Raise e, Finished, f')
  | (inr _, f') => (leave, Finished, f')
  end.

(** The [while True] loop from the top of its body up to the next
    [yield], [break] or [raise]. *)
Fixpoint loop (fuel : nat) (curr file_len start : N) (w : whence) (f : file)
  : option (outcome range * gen * file) :=
  match fuel with
  | O => None
  | S fuel' =>
      let is_data := match w with SEEK_HOLE => true | _ => false end in
      match dseek start w f with
      | (inl (OSError e), f1) =>
          if errno_eqb e ENXIO then
            if negb is_data && (start <? file_len)%N then
              let end_ := file_len in
              Some (Yield (start, (end_ - start)%N, is_data),
                    AtTailYield curr, f1)
            else Some (finally curr StopIteration f1)
          else Some (finally curr (Raise (OSError e)) f1)
      | (inl e, f1) => Some (finally curr (Raise e) f1)
      | (inr end_, f1) =>
          if (start <? end_)%N then
            Some (Yield (start, (end_ - start)%N, is_data),
                  AtRangeYield curr file_len end_ is_data, f1)
          else
            loop fuel' curr file_len end_
                 (if is_data then SEEK_DATA else SEEK_HOLE) f1
      end
  end.

(** One pull from the generator. *)
Definition next (fuel : nat) (g : gen) (f : file)
  : option (outcome range * gen * file) :=
  match g with
  | Created =>
      match dpos_curr_end f with
      | (inl e, f1) => Some (Raise e, Finished, f1)
      | (inr (curr, file_len), f1) => loop fuel curr file_len curr SEEK_HOLE f1
      end
  | AtRangeYield curr file_len end_ is_data =>
      loop fuel curr file_len end_ (if is_data then SEEK_DATA else SEEK_HOLE) f
  | AtTailYield curr => Some (finally curr StopIteration f)
  | Finished => Some (StopIteration, Finished, f)
  end.

(** Abandoning the generator ([close()], also run when the generator
    object is dropped): a generator suspended inside the [try] block
    runs its [finally] clause; one that was never started, or that has
    finished, runs nothing. *)
Definition close (g : gen) (f : file) : gen * file :=
  match g with
  | AtRangeYield curr _ _ _ | AtTailYield curr =>
      let '(_, g', f') := finally curr StopIteration f in (g', f')
  | Created | Finished => (Finished, f)
  end.

(** [n] pulls in a row; pulls after the end of the generator find it
    finished. *)
Fixpoint pulls (fuel : nat) (n : nat) (g : gen) (f : file)
  : option (gen * file) :=
  match n with
  | O => Some (g, f)
  | S n' =>
      match next fuel g f with
      | None => None
      | Some (_, g', f') => pulls fuel n' g' f'
      end
  end.

(** [list(sparsemap(fd, fh))]: pull until the generator ends. *)
Fixpoint drain (fuel : nat) (g : gen) (f : file)
  : option ((exn + list range) * file) :=
  match fuel with
  | O => None
  | S fuel' =>
      match next (S fuel') g f with
      | None => None
      | Some (Yield r, g', f') =>
          match drain fuel' g' f' with
          | Some (inr rs, f'') => Some (inr (r :: rs), f'')
          | other => other
          end
      | Some (StopIteration, _, f') => Some (inr [], f')
      | Some (Raise e, _, f') => Some (inl e, f')
      end
  end.

(** A pull that does not yield: the enumeration is over. *)
Definition ends (o : outcome range) : Prop :=
  o = StopIteration \/ exists e, o = Raise e.

(** [tied p g f]: the generator [g] on the source [f] will give the seek
    position [p] back: either it is suspended and holds [p] as [curr],
    or it has not run or has finished and the source is at [p]. *)
Definition tied (p : N) (g : gen) (f : file) : Prop :=
  match g with
  | Created | Finished => f_pos f = p
  | AtRangeYield curr _ _ _ | AtTailYield curr => curr = p
  end.

End Sparsemap.

(** ** The failing chunker *)

Module Failing.
Import Source ChunkDef.
(** [str.upper] on the characters a map can hold. *)
Definition upper_ascii (c : ascii) : ascii :=
  let n := nat_of_ascii c in
  if ((97 <=? n) && (n <=? 122))%nat then ascii_of_nat (n - 32) else c.

Definition upper (s : list ascii) : list ascii := List.map upper_ascii s.

Definition is_R (c : ascii) : bool := Ascii.eqb c "R"%char.
Definition is_E (c : ascii) : bool := Ascii.eqb c "E"%char.

(** The fields of a [ChunkerFailing] object; [count] is the only one
    that changes, and it lives as long as the object. *)
Record ChunkerFailing := mkFailing {
  block_size : N;
  map : list ascii;
  count : nat
}.

(** [ChunkerFailing.__init__(block_size, map)] *)
Definition init (block_size : N) (map : string) : exn + ChunkerFailing :=
  let map := upper (list_ascii_of_string map) in
  if negb (forallb (fun c => is_R c || is_E c) map) then inl ValueError
  else inr (mkFailing block_size map 0).

(** [self.map[idx]] with
    [idx = self.count if self.count < len(self.map) else -1]. *)
Definition behaviour (c : ChunkerFailing) : option ascii :=
  if (count c <? length (map c))%nat then nth_error (map c) (count c)
  else nth_error (map c) (length (map c) - 1).

Definition bump (c : ChunkerFailing) : ChunkerFailing :=
  mkFailing (block_size c) (map c) (S (count c)).

(** Where the generator returned by [chunkify] can be found between two
    pulls. *)
Inductive gen :=
| Created
| AtYield (got wanted : N)      (* suspended at the [yield] *)
| Finished.

(** The [while True] loop, entered at the read, up to the next [yield],
    [return] or [raise]. *)
Fixpoint loop (fuel : nat) (c : ChunkerFailing) (f : file)
  : option (outcome Chunk * gen * ChunkerFailing * file) :=
  match fuel with
  | O => None
  | S fuel' =>
      let wanted := block_size c in
      let '(data, f1) := read f wanted in
      let got := N.of_nat (length data) in
      if (0 <? got)%N then
        match behaviour c with
        | None => Some (Raise IndexError, Finished, c, f1)
        | Some b =>
            if is_E b then
              Some (Raise (OSError EIO), Finished, bump c, f1)
            else if is_R b then
              Some (Yield (mkChunk (Some data) (length data) CH_DATA),
                    AtYield got wanted, bump c, f1)
            else Some (Raise ValueError, Finished, c, f1)
        end
      else if (got <? wanted)%N then Some (StopIteration, Finished, c, f1)
      else loop fuel' c f1
  end.

(** One pull from the generator [chunkify(fd, fh)]. *)
Definition next (fuel : nat) (g : gen) (c : ChunkerFailing) (f : file)
  : option (outcome Chunk * gen * ChunkerFailing * file) :=
  match g with
  | Created => loop fuel c f
  | AtYield got wanted =>
      if (got <? wanted)%N then Some (StopIteration, Finished, c, f)
      else loop fuel c f
  | Finished => Some (StopIteration, Finished, c, f)
  end.

(** [chunkify(fd, fh)]: a fresh generator; nothing runs before the first
    pull. *)
Definition chunkify : gen := Created.

(** All pulls until the generator ends: the chunks it emitted and the
    exception that ended it, if any. *)
Fixpoint drain (fuel : nat) (g : gen) (c : ChunkerFailing) (f : file)
  : option (list Chunk * option exn * ChunkerFailing * file) :=
  match fuel with
  | O => None
  | S fuel' =>
      match next (S fuel') g c f with
      | None => None
      | Some (Yield ch, g', c', f') =>
          match drain fuel' g' c' f' with
          | Some (chs, e, c'', f'') => Some (ch :: chs, e, c'', f'')
          | None => None
          end
      | Some (StopIteration, _, c', f') => Some ([], None, c', f')
      | Some (Raise e, _, c', f') => Some ([], Some e, c', f')
      end
  end.

(** The [DATA] chunks of a byte string cut into blocks of [bs] bytes. *)
Definition data_chunks (blocks : list (list byte)) : list Chunk :=
  List.map (fun block => mkChunk (Some block) (length block) CH_DATA) blocks.

(** A caller of the chunker: the state it holds between pulls and what
    it sees of each pull. *)
Definition session : Type := gen * ChunkerFailing * file.

Inductive seen := Got (ch : Chunk) | Failed (e : exn) | Ended | NoAnswer.

Definition pull (fuel : nat) (s : session) : seen * session :=
  let '(g, c, f) := s in
  match next fuel g c f with
  | Some (Yield ch, g', c', f') => (Got ch, (g', c', f'))
  | Some (StopIteration, g', c', f') => (Ended, (g', c', f'))
  | Some (Raise e, g', c', f') => (Failed e, (g', c', f'))
  | None => (NoAnswer, s)
  end.

(** Resuming after an error: the caller calls [chunkify] again on the
    same chunker object, with the source [fd] it chooses. *)
Definition resume (s : session) (fd : file) : session :=
  let '(_, c, _) := s in (chunkify, c, fd).

(** The caller of scenario S5: two pulls, [chunkify] again, three more
    pulls.  With [fresh = false] the caller resumes on the source it was
    reading; with [fresh = true] it reopens the source. *)
Definition scenario (fuel : nat) (c : ChunkerFailing) (fd : file)
  (fresh : bool) : list seen :=
  let s0 := (chunkify, c, fd) in
  let '(o1, s1) := pull fuel s0 in
  let '(o2, s2) := pull fuel s1 in
  let s2' := resume s2 (if fresh then fd else snd s2) in
  let '(o3, s3) := pull fuel s2' in
  let '(o4, s4) := pull fuel s3 in
  let '(o5, _) := pull fuel s4 in
  [o1; o2; o3; o4; o5].

End Failing.

(** ** The fixed-size chunker *)

Module Fixed.
Import Source ChunkDef.

Section WithConstants.

(** [zeros], imported from [borg.constants] (not part of this file): a
    byte string of zero bytes. *)
Variable zeros : list byte.

(** [has_seek_hole]: whether the platform offers [SEEK_DATA] and
    [SEEK_HOLE]. *)
Variable has_seek_hole : bool.

Record ChunkerFixed := mkFixed {
  block_size : N;
  header_size : N;
  try_sparse : bool
}.

(** [ChunkerFixed.__init__(block_size, header_size=0, sparse=False)];
    [None] when [assert block_size <= len(zeros)] fails. *)
Definition init (block_size header_size : N) (sparse : bool)
  : option ChunkerFixed :=
  if (block_size <=? N.of_nat (length zeros))%N
  then Some (mkFixed block_size header_size (sparse && has_seek_hole))
  else None.

(** How a run of the generator ended. *)
Inductive ending := Exhausted | Raised (e : exn).

(** The chunks a generator emitted over its whole life, how it ended,
    and the source it leaves behind. *)
Definition run : Type := list Chunk * ending * file.

(** The attempt to build a sparse map (the [try] block with its
    [except OSError: pass]): [Some fmap] when it went through.  Another
    exception than [OSError] would leave [chunkify]. *)
Definition sparse_fmap (c : ChunkerFixed) (fuel : nat) (f : file)
  : option ((exn + option (list Sparsemap.range)) * file) :=
  if (0 <? header_size c)%N then
    let header_map := [(0%N, header_size c, true)] in
    match dseek (header_size c) SEEK_SET f with
    | (inl (OSError _), f1) => Some (inr None, f1)
    | (inl e, f1) => Some (inl e, f1)
    | (inr _, f1) =>
        match Sparsemap.drain fuel Sparsemap.Created f1 with
        | None => None
        | Some (inl (OSError _), f2) => Some (inr None, f2)
        | Some (inl e, f2) => Some (inl e, f2)
        | Some (inr body_map, f2) =>
            match dseek 0 SEEK_SET f2 with
            | (inl (OSError _), f3) => Some (inr None, f3)
            | (inl e, f3) => Some (inl e, f3)
            | (inr _, f3) => Some (inr (Some (header_map ++ body_map)), f3)
            end
        end
    end
  else
    let header_map := [] in
    match Sparsemap.drain fuel Sparsemap.Created f with
    | None => None
    | Some (inl (OSError _), f2) => Some (inr None, f2)
    | Some (inl e, f2) => Some (inl e, f2)
    | Some (inr body_map, f2) => Some (inr (Some (header_map ++ body_map)), f2)
    end.

(** The "fake fmap" for a file without a sparse map: the whole file as
    data, with the header block if there is one. *)
Definition fake_fmap (c : ChunkerFixed) : list Sparsemap.range :=
  if (0 <? header_size c)%N then
    [(0%N, header_size c, true)] ++ [(header_size c, (2 ^ 62)%N, true)]
  else
    [] ++ [(0%N, (2 ^ 62)%N, true)].

(** The loop [while range_size] over one range.  The boolean of the
    result says whether the generator returned ([got < wanted]) rather
    than left the loop; the number is [offset] afterwards.

    [range_size] and [got] are natural numbers.  In a data range
    [got <= wanted <= range_size], and so it is in a hole range as long
    as the seek position of the source is [offset] when the loop is
    entered, which [walk] sees to on every run that starts at the
    start of the source: there the two subtractions are exact.  A hole
    range entered with the source behind [offset] is outside the
    model: the seek then ends further than [range_size] bytes behind
    [offset], and the code goes on with a negative [range_size]. *)
Fixpoint chunk_range (fuel : nat) (c : ChunkerFixed) (is_data : bool)
  (range_size offset : N) (f : file)
  : option (list Chunk * (exn + bool * N) * file) :=
  match fuel with
  | O => None
  | S fuel' =>
      if (range_size =? 0)%N then Some ([], inr (false, offset), f)
      else
        let wanted := N.min range_size (block_size c) in
        let step (block : Chunk) (got : N) (f1 : file) :=
          if (0 <? got)%N then
            if (got <? wanted)%N then
              Some ([block], inr (true, (offset + got)%N), f1)
            else
              match chunk_range fuel' c is_data (range_size - got)%N
                                (offset + got)%N f1 with
              | Some (chs, st, f2) => Some (block :: chs, st, f2)
              | None => None
              end
          else if (got <? wanted)%N then Some ([], inr (true, offset), f1)
          else chunk_range fuel' c is_data range_size offset f1 in
        if is_data then
          let '(data, f1) := dread offset wanted f in
          let got := N.of_nat (length data) in
          step (classify zeros data) got f1
        else
          match dseek wanted SEEK_CUR f with
          | (inl e, f1) => Some ([], inl e, f1)
          | (inr pos, f1) =>
              let got := (pos - offset)%N in
              step (mkChunk None (N.to_nat got) CH_HOLE) got f1
          end
  end.

(** The loop [for range_start, range_size, is_data in fmap]. *)
Fixpoint walk (fuel : nat) (c : ChunkerFixed) (fmap : list Sparsemap.range)
  (offset : N) (f : file) : option run :=
  match fmap with
  | [] => Some ([], Exhausted, f)
  | (range_start, range_size, is_data) :: fmap' =>
      let seeked :=
        if negb (range_start =? offset)%N then
          match dseek range_start SEEK_SET f with
          | (inl e, f1) => (inl e, f1)
          | (inr _, f1) => (inr range_start, f1)
          end
        else (inr offset, f) in
      match seeked with
      | (inl e, f1) => Some ([], Raised e, f1)
      | (inr offset, f1) =>
          match chunk_range fuel c is_data range_size offset f1 with
          | None => None
          | Some (chs, inl e, f2) => Some (chs, Raised e, f2)
          | Some (chs, inr (true, _), f2) => Some (chs, Exhausted, f2)
          | Some (chs, inr (false, offset), f2) =>
              match walk fuel c fmap' offset f2 with
              | Some (chs', e, f3) => Some (chs ++ chs', e, f3)
              | None => None
              end
          end
      end
  end.

(** [ChunkerFixed.chunkify(fd, fh, fmap)], pulled until it ends. *)
Definition chunkify (fuel : nat) (c : ChunkerFixed)
  (fmap : option (list Sparsemap.range)) (f : file) : option run :=
  let built :=
    match fmap with
    | Some m => Some (inr (Some m), f)
    | None => if try_sparse c then sparse_fmap c fuel f
              else Some (inr None, f)
    end in
  match built with
  | None => None
  | Some (inl e, f1) => Some ([], Raised e, f1)
  | Some (inr fmap, f1) =>
      let fmap := match fmap with
                  | Some m => m
                  | None => fake_fmap c
                  end in
      walk fuel c fmap 0 f1
  end.

End WithConstants.

(** *** Reference: blocks and file maps *)

(** A byte string cut into blocks of [bs] bytes, the last one shorter
    when the length is no multiple of [bs]; at most [n] blocks. *)
Fixpoint split_blocks (n bs : nat) (seg : list byte) : list (list byte) :=
  match n with
  | O => []
  | S n' =>
      match seg with
      | [] => []
      | _ :: _ => firstn bs seg :: split_blocks n' bs (skipn bs seg)
      end
  end.

Definition fixed_blocks (bs : nat) (seg : list byte) : list (list byte) :=
  split_blocks (length seg) bs seg.

(** The [HOLE] chunks of a hole range of [n] bytes: one per block. *)
Definition hole_chunks (bs : nat) (n : nat) : list Chunk :=
  List.map (fun block => mkChunk None (length block) CH_HOLE)
           (fixed_blocks bs (repeat x00 n)).

(** The bytes of [f] from offset [o] on, [n] of them at most. *)
Definition segment (f : file) (o n : N) : list byte :=
  firstn (N.to_nat (N.min n (f_len f - o))) (skipn (N.to_nat o) (f_bytes f)).

(** A sparse file is well formed when the offsets flagged as holes lie
    inside the file and read as zero bytes. *)
Definition holes_read_zero (f : file) : Prop :=
  forall i, nth i (f_holes f) false = true ->
            (i < length (f_bytes f))%nat /\ nth i (f_bytes f) x00 = x00.

(** A range of a file map is sound for [f] when it is a data range, or
    a hole range inside the file whose bytes are all zero. *)
Definition range_sound (f : file) (r : Sparsemap.range) : Prop :=
  let '(start, size, is_data) := r in
  is_data = true \/
  ((start + size <= f_len f)%N /\
   segment f start size = repeat x00 (N.to_nat size)).

(** A file map whose ranges follow one another from offset [o] on. *)
Fixpoint contiguous (o : N) (fmap : list Sparsemap.range) : Prop :=
  match fmap with
  | [] => True
  | (start, size, _) :: fmap' => start = o /\ contiguous (o + size) fmap'
  end.

(** The number of bytes a file map spans. *)
Definition span (fmap : list Sparsemap.range) : N :=
  fold_right (fun (r : Sparsemap.range) acc => (snd (fst r) + acc)%N) 0%N fmap.


(** A range that is what its flag says: no offset of a data range lies
    in a hole, every offset of a hole range does. *)
Definition range_exact (f : file) (r : Sparsemap.range) : Prop :=
  let '(start, size, is_data) := r in
  forall i, (start <= i < start + size)%N ->
            nth (N.to_nat i) (f_holes f) false = negb is_data.

(** A file map in which data ranges and hole ranges take turns. *)
Fixpoint alternating (fmap : list Sparsemap.range) : Prop :=
  match fmap with
  | (_, _, d) :: rest =>
      match rest with
      | (_, _, d') :: _ => d' = negb d
      | [] => True
      end /\ alternating rest
  | [] => True
  end.

End Fixed.

(** ** The content-defined chunker *)

Module Cdc.
Import Buzhash Source ChunkDef.
Local Open Scope nat_scope.

(** [malloc(n)]: [n] bytes of unspecified content, given by [junk]. *)
Definition malloc (n : nat) (junk : nat -> byte) : list byte :=
  List.map junk (seq 0 n).

(** [memmove(buf + dst, buf + src, n)] inside one buffer. *)
Definition memmove (buf : list byte) (dst src n : nat) : list byte :=
  firstn dst buf ++ firstn n (skipn src buf) ++ skipn (dst + n) buf.

(** [memcpy(buf + dst, bytes, len(bytes))] *)
Definition memcpy (buf : list byte) (dst : nat) (bytes : list byte)
  : list byte :=
  firstn dst buf ++ bytes ++ skipn (dst + length bytes) buf.

(** The fields of a [Chunker] object ([chunking_time] left out). *)
Record Chunker := mkChunker {
  chunk_mask : Z;
  table : list Z;
  data : list byte;
  _fd : file;
  done : bool;
  eof : bool;
  min_size : nat;
  buf_size : nat;
  window_size : nat;
  remaining : nat;
  position : nat;
  last : nat;
  bytes_read : nat;
  bytes_yielded : nat
}.

Section WithConstants.

(** [zeros], imported from [borg.constants]. *)
Variable zeros : list byte.

(** No source is attached yet: [emptyfile] stands for
    [self._fd = None]. *)
Definition emptyfile : file := mkfile [] [] 0 [] [].

(** The arguments of [__cinit__] are C [int]s: a Python integer outside
    the range of [int] is refused when the constructor is called. *)
Definition fits_int (x : Z) : bool :=
  ((- 2 ^ 31 <=? x) && (x <? 2 ^ 31))%Z.

(** [Chunker.__cinit__(int seed, int chunk_min_exp, int chunk_max_exp,
    int hash_mask_bits, int hash_window_size)]; [None] when an argument
    is refused or one of the two assertions fails.  The exponents are
    taken non-negative.

    The three shifts are shifts of a C [int].  For the two sizes the
    first assertion keeps the exponent where the shift is exact as long
    as [zeros] has fewer than [2^31] bytes.  [1 << hash_mask_bits] is
    exact below 32 bits; from 32 bits on C leaves the shift undefined,
    and the model follows the shift instruction of x86-64, which takes
    the amount modulo 32 (so 32 bits give the mask 0).  The statements
    that depend on the value of the mask are stated for fewer than 32
    bits. *)
Definition cinit (seed : Z) (chunk_min_exp chunk_max_exp hash_mask_bits
  hash_window_size : nat) (junk : nat -> byte) : option Chunker :=
  let min_size := 2 ^ chunk_min_exp in
  let max_size := 2 ^ chunk_max_exp in
  if negb (fits_int seed && fits_int (Z.of_nat chunk_min_exp)
           && fits_int (Z.of_nat chunk_max_exp)
           && fits_int (Z.of_nat hash_mask_bits)
           && fits_int (Z.of_nat hash_window_size)) then None
  else if negb (max_size <=? length zeros) then None
  else if negb (hash_window_size + min_size + 1 <=? max_size) then None
  else Some {|
    window_size := hash_window_size;
    chunk_mask :=
      u32 (Z.shiftl 1 (Z.land (Z.of_nat hash_mask_bits) 0x1f) - 1);
    min_size := min_size;
    table := buzhash_init_table (Z.land seed 0xffffffff);
    buf_size := max_size;
    data := malloc max_size junk;
    done := false;
    eof := false;
    remaining := 0;
    position := 0;
    last := 0;
    bytes_read := 0;
    bytes_yielded := 0;
    _fd := emptyfile
  |}.

(** [Chunker.fill()].  Reads do not fail in this model, so the function
    always returns 1. *)
Definition fill (c : Chunker) : Chunker :=
  let data := memmove (data c) 0 (last c)
                      (position c + remaining c - last c) in
  let position := position c - last c in
  let last := 0 in
  let n := buf_size c - position - remaining c in
  if eof c || (n =? 0) then
    mkChunker (chunk_mask c) (table c) data (_fd c) (done c) (eof c)
              (min_size c) (buf_size c) (window_size c) (remaining c)
              position last (bytes_read c) (bytes_yielded c)
  else
    let '(data_py, fd) := read (_fd c) (N.of_nat n) in
    let n := length data_py in
    if negb (n =? 0) then
      mkChunker (chunk_mask c) (table c)
                (memcpy data (position + remaining c) data_py) fd
                (done c) (eof c) (min_size c) (buf_size c) (window_size c)
                (remaining c + n) position last
                (bytes_read c + n) (bytes_yielded c)
    else
      mkChunker (chunk_mask c) (table c) data fd (done c) true
                (min_size c) (buf_size c) (window_size c) (remaining c)
                position last (bytes_read c) (bytes_yielded c).

(** [while self.remaining < min_size + window_size + 1 and not self.eof:
       self.fill()] *)
Fixpoint refill (fuel : nat) (c : Chunker) : option Chunker :=
  match fuel with
  | O => None
  | S fuel' =>
      if (remaining c <? min_size c + window_size c + 1) && negb (eof c)
      then refill fuel' (fill c)
      else Some c
  end.

(** [sum & chunk_mask], as a truth value. *)
Definition masked (c : Chunker) (sum : Z) : bool :=
  negb (Z.land sum (chunk_mask c) =? 0)%Z.

(** [while p < stop_at and (sum & chunk_mask)], with [k = stop_at - p]
    and [p] an index into [self.data]. *)
Fixpoint slide (k : nat) (c : Chunker) (p : nat) (sum : Z) : nat * Z :=
  match k with
  | O => (p, sum)
  | S k' =>
      if masked c sum then
        let sum := _buzhash_update sum (nth p (data c) x00)
                     (nth (p + window_size c) (data c) x00)
                     (window_size c) (table c) in
        slide k' c (p + 1) sum
      else (p, sum)
  end.

Definition advance (c : Chunker) (did_bytes : nat) : Chunker :=
  mkChunker (chunk_mask c) (table c) (data c) (_fd c) (done c) (eof c)
            (min_size c) (buf_size c) (window_size c)
            (remaining c - did_bytes) (position c + did_bytes) (last c)
            (bytes_read c) (bytes_yielded c).

(** [while self.remaining > self.window_size and (sum & chunk_mask)] *)
Fixpoint search (fuel : nat) (c : Chunker) (sum : Z) : option Chunker :=
  match fuel with
  | O => None
  | S fuel' =>
      if (window_size c <? remaining c) && masked c sum then
        let p := position c in
        let stop_at := p + remaining c - window_size c in
        let '(p, sum) := slide (stop_at - p) c p sum in
        let did_bytes := p - position c in
        let c := advance c did_bytes in
        let c := if remaining c <=? window_size c then fill c else c in
        search fuel' c sum
      else Some c
  end.

Definition set_done (c : Chunker) : Chunker :=
  mkChunker (chunk_mask c) (table c) (data c) (_fd c) true (eof c)
            (min_size c) (buf_size c) (window_size c) (remaining c)
            (position c) (last c) (bytes_read c) (bytes_yielded c).

Definition emit (c : Chunker) (last' yielded : nat) : Chunker :=
  mkChunker (chunk_mask c) (table c) (data c) (_fd c) (done c) (eof c)
            (min_size c) (buf_size c) (window_size c) (remaining c)
            (position c) last' (bytes_read c) (bytes_yielded c + yielded).

(** [(self.data + start)[:n]]: slicing a C pointer copies the bytes
    into a new [bytes] object. *)
Definition view (c : Chunker) (start n : nat) : list byte :=
  firstn n (skipn start (data c)).

(** [Chunker.process()]: the bytes of the next chunk. *)
Definition process (fuel : nat) (c : Chunker)
  : option (outcome (list byte) * Chunker) :=
  if done c then
    if bytes_read c =? bytes_yielded c then Some (StopIteration, c)
    else Some (Raise ByteCountMismatch, c)
  else
    match refill fuel c with
    | None => None
    | Some c =>
        if eof c then
          let c := set_done c in
          if negb (remaining c =? 0) then
            let c := emit c (last c) (remaining c) in
            Some (Yield (view c (position c) (remaining c)), c)
          else if bytes_read c =? bytes_yielded c then Some (StopIteration, c)
          else Some (Raise ByteCountMismatch, c)
        else
          let c := advance c (min_size c) in
          let sum := _buzhash (skipn (position c) (data c)) (window_size c)
                              (table c) in
          match search fuel c sum with
          | None => None
          | Some c =>
              let c := if remaining c <=? window_size c
                       then advance c (remaining c) else c in
              let old_last := last c in
              let c := emit c (position c) (position c - old_last) in
              let n := last c - old_last in
              Some (Yield (view c old_last n), c)
          end
    end.

(** [Chunker.chunkify(fd, fh)] *)
Definition chunkify (c : Chunker) (fd : file) : Chunker :=
  mkChunker (chunk_mask c) (table c) (data c) fd false false
            (min_size c) (buf_size c) (window_size c) 0 0 0 0 0.

(** [Chunker.__next__()] *)
Definition next (fuel : nat) (c : Chunker) : option (outcome Chunk * Chunker) :=
  match process fuel c with
  | None => None
  | Some (Yield data, c') => Some (Yield (classify zeros data), c')
  | Some (StopIteration, c') => Some (StopIteration, c')
  | Some (Raise e, c') => Some (Raise e, c')
  end.

(** All pulls until the iterator ends. *)
Fixpoint drain (fuel : nat) (c : Chunker)
  : option (list Chunk * option exn * Chunker) :=
  match fuel with
  | O => None
  | S fuel' =>
      match next (S fuel') c with
      | None => None
      | Some (Yield ch, c') =>
          match drain fuel' c' with
          | Some (chs, e, c'') => Some (ch :: chs, e, c'')
          | None => None
          end
      | Some (StopIteration, c') => Some ([], None, c')
      | Some (Raise e, c') => Some ([], Some e, c')
      end
  end.

End WithConstants.

End Cdc.

(** ** The cut positions of the content-defined chunker, on the stream *)

Module CdcSpec.
Import Buzhash Source ChunkDef Cdc.
Local Open Scope nat_scope.

Section Reference.

(** The chunker whose parameters are used: [min_size], [window_size],
    [buf_size] (the maximal chunk size), [chunk_mask] and [table]. *)
Variable c : Chunker.

(** Reference cut, after the specification: the cut point, stated on the
    remaining stream [s] alone, with no buffer and no reads.  The hash
    of the window that starts at offset [k]: *)
Definition hash_at (s : list byte) (k : nat) : Z :=
  _buzhash (skipn k s) (window_size c) (table c).

(** Reference cut: the first offset [k], among the [n] offsets
    from [k] on, whose window hash has its masked bits all zero; [m], the
    most a chunk can hold, when there is none. *)
Fixpoint find_cut (n : nat) (s : list byte) (k m : nat) : nat :=
  match n with
  | O => m
  | S n' => if masked c (hash_at s k) then find_cut n' s (k + 1) m else k
  end.

(** Reference cut: the length of the first chunk of [s].  A
    stream shorter than [min_size + W + 1] is one chunk.  Otherwise the
    chunk ends at the first cut point at or after [min_size] whose
    window is followed by at least one more byte of what the chunk may
    hold, and takes all it may hold when there is no such cut point. *)
Definition cut_len (s : list byte) : nat :=
  if length s <? min_size c + window_size c + 1 then length s
  else
    let m := Nat.min (length s) (buf_size c) in
    find_cut (m - window_size c - min_size c) s (min_size c) m.

(** Reference cut: the stream cut into its chunks, at most [n]
    of them. *)
Fixpoint cut_upto (n : nat) (s : list byte) : list (list byte) :=
  match n with
  | O => []
  | S n' =>
      match s with
      | [] => []
      | _ :: _ => firstn (cut_len s) s :: cut_upto n' (skipn (cut_len s) s)
      end
  end.

Definition cuts (s : list byte) : list (list byte) := cut_upto (length s) s.

End Reference.

(** *** Invariants of the chunker object *)

(** The parameters a chunker keeps for life. *)
Definition same_config (c0 c : Chunker) : Prop :=
  chunk_mask c = chunk_mask c0 /\ table c = table c0 /\
  min_size c = min_size c0 /\ buf_size c = buf_size c0 /\
  window_size c = window_size c0.

(** A configuration as [cinit] builds it, with a window of at least one
    byte. *)
Record valid (c : Chunker) : Prop := {
  v_min : 1 <= min_size c;
  v_window : 1 <= window_size c;
  v_counter : (Z.of_nat (window_size c) < 2 ^ 32)%Z;
  v_room : window_size c + min_size c + 1 <= buf_size c;
  v_table : Forall is_u32 (table c)
}.

(** The hash of the window that starts at index [p] of the buffer. *)
Definition hash_buf (c : Chunker) (p : nat) : Z :=
  _buzhash (skipn p (data c)) (window_size c) (table c).

(** The number of buffered bytes that belong to no emitted chunk. *)
Definition held (c : Chunker) : nat := position c + remaining c - last c.

(** [chunker_inv S e c]: the chunker [c] reads the stream [S], has
    emitted its first [e] bytes, and holds the bytes that follow in its
    buffer from [last] on.  This is the invariant
    [last <= position <= position + remaining <= buf_size] of the
    specification, with what it means for the stream. *)
Record chunker_inv (S : list byte) (e : nat) (c : Chunker) : Prop := {
  ci_last : last c <= position c;
  ci_fit : position c + remaining c <= buf_size c;
  ci_len : length (data c) = buf_size c;
  ci_held : firstn (held c) (skipn (last c) (data c)) =
            firstn (held c) (skipn e S);
  ci_bound : e + held c <= length S;
  ci_read : bytes_read c = e + held c;
  ci_yielded : bytes_yielded c = e;
  ci_bytes : f_bytes (_fd c) = S;
  ci_pos : f_pos (_fd c) = N.of_nat (e + held c);
  ci_eof : eof c = true -> e + held c = length S;
  ci_caps : Forall (fun k => 0 < k) (f_caps (_fd c))
}.

(** The part of the invariant that holds whatever the source does:
    the three indices stay in order inside the buffer. *)
Definition shape (c : Chunker) : Prop :=
  last c <= position c /\ position c + remaining c <= buf_size c /\
  length (data c) = buf_size c /\ 1 <= min_size c.

(** The state of the chunker between two pulls, before the end of the
    source has been reported. *)
Definition between_pulls (S : list byte) (e : nat) (c : Chunker) : Prop :=
  chunker_inv S e c /\ position c = last c /\ done c = false /\
  (eof c = true -> remaining c = 0).

(** The state of the chunker once it has emitted the whole stream. *)
Definition finished (c : Chunker) : Prop :=
  done c = true /\ bytes_read c = bytes_yielded c.

(** The state of the chunker between two pulls, whatever the source
    does: the indices are in order, no byte of the buffer belongs to a
    chunk that is being cut, and the counters agree with the buffer
    (what was read and not yielded is what the buffer still holds;
    nothing, once the chunker is done). *)
Definition counters_agree (c : Chunker) : Prop :=
  shape c /\ position c = last c /\
  (if done c then bytes_read c = bytes_yielded c
   else bytes_read c = bytes_yielded c + remaining c).

(** The bytes of the source behind its seek position. *)
Definition unread (f : file) : nat :=
  length (f_bytes f) - N.to_nat (f_pos f).

(** The bytes a chunker has still to deal with: those it holds and those
    the source has behind its position. *)
Definition pending (c : Chunker) : nat := held c + unread (_fd c).

(** *** The cut rule, stated with the exported hash *)

(** The window of [W] bytes at offset [k] of the stream [s] hashes to a
    value whose masked bits are all zero. *)
Definition cuts_here (mask seed : Z) (W : nat) (s : list byte) (k : nat)
  : bool :=
  match buzhash (firstn W (skipn k s)) seed with
  | Some sum => (Z.land sum mask =? 0)%Z
  | None => false
  end.

(** [first_chunk mask seed lo W hi s n]: a chunker with minimal chunk
    size [lo], window [W] and maximal chunk size [hi] ends the first
    chunk of the stream [s] after [n] bytes.  A stream of fewer than
    [lo + W + 1] bytes is one chunk.  Otherwise, with [m] the bytes the
    chunk may hold, the chunk ends at the first offset from [lo] on
    whose window, followed by at least one more of the [m] bytes,
    hashes to zero masked bits, and takes all [m] bytes when there is
    no such offset. *)
Definition first_chunk (mask seed : Z) (lo W hi : nat) (s : list byte)
  (n : nat) : Prop :=
  if length s <? lo + W + 1 then n = length s
  else
    let m := Nat.min (length s) hi in
    lo <= n <= m /\
    (forall k, lo <= k < n -> k + W < m ->
               cuts_here mask seed W s k = false) /\
    (n + W < m -> cuts_here mask seed W s n = true) /\
    (m <= n + W -> n = m).

(** [chunked mask seed lo W hi s blocks]: the blocks are the stream [s]
    cut chunk after chunk by that rule. *)
Fixpoint chunked (mask seed : Z) (lo W hi : nat) (s : list byte)
  (blocks : list (list byte)) : Prop :=
  match blocks with
  | [] => s = []
  | b :: rest =>
      s <> [] /\ b = firstn (length b) s /\
      first_chunk mask seed lo W hi s (length b) /\
      chunked mask seed lo W hi (skipn (length b) s) rest
  end.

End CdcSpec.

(* ================================================================== *)
(** * Part II: properties *)
(* ================================================================== *)

(** ** The rolling hash *)

Module BuzhashFacts.
Import Buzhash.

Lemma u32_small x : is_u32 x -> u32 x = x.
Proof. intros H. apply Z.mod_small. exact H. Qed.

Lemma is_u32_u32 x : is_u32 (u32 x).
Proof. apply Z.mod_pos_bound. reflexivity. Qed.

Lemma is_u32_bits_high x i : is_u32 x -> 32 <= i -> Z.testbit x i = false.
Proof.
  intros [Hlo Hhi] Hi.
  destruct (Z.eq_dec x 0) as [->|Hne]; [apply Z.testbit_0_l|].
  apply Z.bits_above_log2; [exact Hlo|].
  assert (Z.log2 x < 32) by (apply Z.log2_lt_pow2; lia). lia.
Qed.

Lemma is_u32_of_bits x :
  0 <= x -> (forall i, 32 <= i -> Z.testbit x i = false) -> is_u32 x.
Proof.
  intros Hx Hb. split; [exact Hx|].
  replace x with (x mod 2 ^ 32); [apply Z.mod_pos_bound; reflexivity|].
  apply Z.bits_inj'. intros i Hi.
  rewrite Z.testbit_mod_pow2 by lia.
  destruct (Z.ltb_spec i 32) as [Hlt|Hge]; [reflexivity|].
  symmetry. apply Hb. exact Hge.
Qed.

Lemma is_u32_lxor a b : is_u32 a -> is_u32 b -> is_u32 (Z.lxor a b).
Proof.
  intros Ha Hb. apply is_u32_of_bits.
  - apply Z.lxor_nonneg. unfold is_u32 in *. lia.
  - intros i Hi. rewrite Z.lxor_spec.
    rewrite (is_u32_bits_high a), (is_u32_bits_high b) by assumption.
    reflexivity.
Qed.

(** The right-shift amount of the macro. *)
Lemma right_amount s :
  0 <= s < 32 -> Z.land (u32 (32 - s)) 0x1f = (32 - s) mod 32.
Proof.
  intros Hs. rewrite u32_small by (unfold is_u32; lia).
  change 0x1f with (Z.ones 5). rewrite Z.land_ones by lia. reflexivity.
Qed.

(** Bit [i] of a rotation by [s] is bit [i - s] (modulo 32) of the
    operand. *)
Lemma BARREL_SHIFT_bits v s i :
  is_u32 v -> 0 <= s < 32 -> 0 <= i ->
  Z.testbit (BARREL_SHIFT v s) i =
  (i <? 32) && Z.testbit v ((i - s) mod 32).
Proof.
  intros Hv Hs Hi. unfold BARREL_SHIFT.
  rewrite right_amount by exact Hs.
  rewrite Z.lor_spec. unfold u32.
  rewrite Z.testbit_mod_pow2 by lia.
  rewrite Z.shiftl_spec by exact Hi.
  rewrite Z.shiftr_spec by exact Hi.
  destruct (Z.eq_dec s 0) as [->|Hs0].
  - change ((32 - 0) mod 32) with 0. rewrite Z.sub_0_r, Z.add_0_r.
    destruct (Z.ltb_spec i 32) as [Hlt|Hge]; cbn [andb orb].
    + rewrite Z.mod_small by lia. apply orb_diag.
    + apply is_u32_bits_high; assumption.
  - rewrite (Z.mod_small (32 - s)) by lia.
    destruct (Z.ltb_spec i 32) as [Hlt|Hge]; cbn [andb orb].
    + destruct (Z.lt_ge_cases i s) as [Hlt'|Hge'].
      * rewrite (Z.testbit_neg_r v (i - s)) by lia. cbn [orb].
        f_equal.
        apply Z.mod_unique with (q := -1); lia.
      * rewrite (is_u32_bits_high v (i + (32 - s))) by (assumption || lia).
        rewrite orb_false_r. rewrite Z.mod_small by lia. reflexivity.
    + apply is_u32_bits_high; [assumption|lia].
Qed.

Lemma BARREL_SHIFT_nonneg v s : is_u32 v -> 0 <= BARREL_SHIFT v s.
Proof.
  intros Hv. unfold BARREL_SHIFT. apply Z.lor_nonneg. split.
  - apply is_u32_u32.
  - apply Z.shiftr_nonneg. apply Hv.
Qed.

Lemma is_u32_BARREL_SHIFT v s :
  is_u32 v -> 0 <= s < 32 -> is_u32 (BARREL_SHIFT v s).
Proof.
  intros Hv Hs. apply is_u32_of_bits.
  - apply BARREL_SHIFT_nonneg. exact Hv.
  - intros i Hi. rewrite BARREL_SHIFT_bits by (assumption || lia).
    destruct (Z.ltb_spec i 32); [lia|reflexivity].
Qed.

(** Rotation distributes over exclusive or. *)
Lemma BARREL_SHIFT_lxor a b s :
  is_u32 a -> is_u32 b -> 0 <= s < 32 ->
  BARREL_SHIFT (Z.lxor a b) s = Z.lxor (BARREL_SHIFT a s) (BARREL_SHIFT b s).
Proof.
  intros Ha Hb Hs. apply Z.bits_inj'. intros i Hi.
  rewrite Z.lxor_spec.
  rewrite !BARREL_SHIFT_bits by (auto using is_u32_lxor).
  rewrite Z.lxor_spec.
  destruct (i <? 32); cbn [andb]; reflexivity.
Qed.

(** Two rotations compose into one by the sum of the amounts. *)
Lemma BARREL_SHIFT_compose v s t :
  is_u32 v -> 0 <= s < 32 -> 0 <= t < 32 ->
  BARREL_SHIFT (BARREL_SHIFT v s) t = BARREL_SHIFT v ((s + t) mod 32).
Proof.
  intros Hv Hs Ht. apply Z.bits_inj'. intros i Hi.
  assert (Hst : 0 <= (s + t) mod 32 < 32) by (apply Z.mod_pos_bound; lia).
  rewrite !BARREL_SHIFT_bits
    by (auto using is_u32_BARREL_SHIFT; try lia;
        apply Z.mod_pos_bound; lia).
  destruct (Z.ltb_spec i 32) as [Hlt|Hge]; cbn [andb]; [|reflexivity].
  assert (Hm : 0 <= (i - t) mod 32 < 32) by (apply Z.mod_pos_bound; lia).
  destruct (Z.ltb_spec ((i - t) mod 32) 32) as [_|]; [cbn [andb]|lia].
  f_equal.
  rewrite Zminus_mod_idemp_l, Zminus_mod_idemp_r. f_equal. lia.
Qed.

Lemma BARREL_SHIFT_0 v : is_u32 v -> BARREL_SHIFT v 0 = v.
Proof.
  intros Hv. apply Z.bits_inj'. intros i Hi.
  rewrite BARREL_SHIFT_bits by (assumption || lia).
  rewrite Z.sub_0_r.
  destruct (Z.ltb_spec i 32) as [Hlt|Hge]; cbn [andb orb].
  - rewrite Z.mod_small by lia. reflexivity.
  - symmetry. apply is_u32_bits_high; assumption.
Qed.

Lemma land_0x1f k : Z.land k 0x1f = k mod 32.
Proof. change 0x1f with (Z.ones 5). rewrite Z.land_ones by lia. reflexivity. Qed.

(** C8. The 32-bit left rotation of the hash returns its operand
    unchanged when the shift amount is 0, and whenever the amount the
    hash derives from a counter [k] (by [k & 0x1f]) is 0 modulo 32.  In
    both cases the two C shifts of the macro are by amounts in [0, 32),
    so the macro has defined behaviour. *)
Theorem BARREL_SHIFT_zero_shift (v k : Z) :
  is_u32 v -> 0 <= k -> k mod 32 = 0 ->
  BARREL_SHIFT v 0 = v /\
  BARREL_SHIFT_defined 0 = true /\
  BARREL_SHIFT v (Z.land k 0x1f) = v /\
  BARREL_SHIFT_defined (Z.land k 0x1f) = true.
Proof.
  intros Hv Hk Hmod. rewrite land_0x1f, Hmod.
  repeat split; try reflexivity; apply BARREL_SHIFT_0; exact Hv.
Qed.

Lemma BARREL_SHIFT_zero_shift_witness :
  BARREL_SHIFT 0xdeadbeef 0 = 0xdeadbeef /\
  BARREL_SHIFT_defined 0 = true /\
  BARREL_SHIFT 0xdeadbeef (Z.land 64 0x1f) = 0xdeadbeef /\
  BARREL_SHIFT_defined (Z.land 64 0x1f) = true.
Proof.
  apply (BARREL_SHIFT_zero_shift 0xdeadbeef 64).
  - unfold is_u32. lia.
  - lia.
  - reflexivity.
Defined.

(** *** Tables *)

Lemma tbl_is_u32 h b : Forall is_u32 h -> is_u32 (tbl h b).
Proof.
  intros Hh. unfold tbl.
  destruct (Nat.lt_ge_cases (Byte.to_nat b) (length h)) as [Hlt|Hge].
  - rewrite Forall_forall in Hh. apply Hh. apply nth_In. exact Hlt.
  - rewrite nth_overflow by exact Hge. unfold is_u32. lia.
Qed.

Lemma table_base_is_u32 : Forall is_u32 table_base.
Proof.
  apply Forall_forall. intros x Hx.
  assert (Hb : forallb (fun t => (0 <=? t) && (t <? 2 ^ 32)) table_base = true)
    by (vm_compute; reflexivity).
  rewrite forallb_forall in Hb. specialize (Hb x Hx).
  apply andb_true_iff in Hb. destruct Hb as [H1 H2].
  apply Z.leb_le in H1. apply Z.ltb_lt in H2. split; assumption.
Qed.

Lemma seed_mask_is_u32 seed : is_u32 (Z.land seed 0xffffffff).
Proof.
  change 0xffffffff with (Z.ones 32). rewrite Z.land_ones by lia.
  apply Z.mod_pos_bound. reflexivity.
Qed.

Lemma seed_mask_mod seed : Z.land seed 0xffffffff = seed mod 2 ^ 32.
Proof. change 0xffffffff with (Z.ones 32). apply Z.land_ones. lia. Qed.

Lemma init_table_is_u32 seed :
  is_u32 seed -> Forall is_u32 (buzhash_init_table seed).
Proof.
  intros Hs. unfold buzhash_init_table. apply Forall_map.
  eapply Forall_impl; [|exact table_base_is_u32].
  intros t Ht. apply is_u32_lxor; assumption.
Qed.

(** *** The full hash, one byte at a time *)

Lemma _buzhash_loop_acc h i : forall data acc,
  _buzhash_loop h i data acc =
  (Z.lxor acc (fst (_buzhash_loop h i data 0)),
   snd (_buzhash_loop h i data 0)).
Proof.
  induction i as [|i IH]; intros data acc; cbn [_buzhash_loop].
  - cbn [fst snd]. rewrite Z.lxor_0_r. reflexivity.
  - rewrite IH. rewrite (IH _ (Z.lxor 0 _)). cbn [fst snd].
    rewrite Z.lxor_0_l, Z.lxor_assoc. reflexivity.
Qed.

Lemma loop_start n :
  Z.of_nat (S n) < 2 ^ 32 -> Nat.pred (Z.to_nat (u32 (Z.of_nat (S n)))) = n.
Proof.
  intros Hn. rewrite u32_small by (unfold is_u32; lia). lia.
Qed.

(** A length that is 0 in 32 bits: the loop does not run. *)
Lemma _buzhash_wrapped data len h :
  u32 (Z.of_nat len) = 0 -> _buzhash data len h = tbl h (deref data).
Proof.
  intros Hn. unfold _buzhash. rewrite Hn.
  change (Nat.pred (Z.to_nat 0)) with 0%nat.
  cbn [_buzhash_loop]. apply Z.lxor_0_l.
Qed.

Lemma _buzhash_eq data n h :
  Z.of_nat (S n) < 2 ^ 32 ->
  _buzhash data (S n) h =
  Z.lxor (fst (_buzhash_loop h n data 0))
         (tbl h (deref (snd (_buzhash_loop h n data 0)))).
Proof.
  intros Hn. unfold _buzhash. rewrite loop_start by exact Hn.
  destruct (_buzhash_loop h n data 0) as [s d]. reflexivity.
Qed.

Lemma _buzhash_one data h : _buzhash data 1 h = tbl h (deref data).
Proof. rewrite _buzhash_eq by lia. cbn. apply Z.lxor_0_l. Qed.

Lemma _buzhash_cons data n h :
  Z.of_nat (S (S n)) < 2 ^ 32 ->
  _buzhash data (S (S n)) h =
  Z.lxor (BARREL_SHIFT (tbl h (deref data)) (Z.land (Z.of_nat (S n)) 0x1f))
         (_buzhash (tl data) (S n) h).
Proof.
  intros Hn. rewrite !_buzhash_eq by lia.
  cbn [_buzhash_loop]. rewrite _buzhash_loop_acc. cbn [fst snd].
  rewrite Z.lxor_0_l, Z.lxor_assoc. reflexivity.
Qed.

Lemma land_0x1f_range k : 0 <= Z.land k 0x1f < 32.
Proof. rewrite land_0x1f. apply Z.mod_pos_bound. lia. Qed.

Lemma is_u32_buzhash h : Forall is_u32 h -> forall n data,
  Z.of_nat (S n) < 2 ^ 32 -> is_u32 (_buzhash data (S n) h).
Proof.
  intros Hh. induction n as [|n IH]; intros data Hn.
  - rewrite _buzhash_one. apply tbl_is_u32. exact Hh.
  - rewrite _buzhash_cons by exact Hn. apply is_u32_lxor.
    + apply is_u32_BARREL_SHIFT; [apply tbl_is_u32; exact Hh|].
      apply land_0x1f_range.
    + apply IH. lia.
Qed.

(** The hash reads only the [len] bytes under the pointer. *)
Lemma _buzhash_firstn h : forall n data,
  Z.of_nat (S n) < 2 ^ 32 ->
  _buzhash (firstn (S n) data) (S n) h = _buzhash data (S n) h.
Proof.
  induction n as [|n IH]; intros data Hn.
  - rewrite !_buzhash_one. destruct data; reflexivity.
  - rewrite !_buzhash_cons by exact Hn.
    destruct data as [|b data].
    + reflexivity.
    + change (firstn (S (S n)) (b :: data)) with (b :: firstn (S n) data).
      cbn [tl deref hd]. rewrite IH by lia. reflexivity.
Qed.

Lemma succ_mod32 n :
  (Z.land (Z.of_nat n) 0x1f + 1) mod 32 = Z.land (Z.of_nat (S n)) 0x1f.
Proof.
  rewrite !land_0x1f. rewrite Zplus_mod_idemp_l. f_equal. lia.
Qed.

(** One rolling step moves the hashed window by one byte, for a window
    anywhere inside a longer byte string. *)
Lemma _buzhash_roll h : Forall is_u32 h -> forall n data,
  Z.of_nat (S n) < 2 ^ 32 ->
  _buzhash_update (_buzhash data (S n) h) (deref data) (nth (S n) data x00)
    (S n) h
  = _buzhash (tl data) (S n) h.
Proof.
  intros Hh. unfold _buzhash_update.
  induction n as [|n IH]; intros data Hn.
  - rewrite !_buzhash_one.
    change (Z.land (Z.of_nat 1) 0x1f) with 1.
    rewrite Z.lxor_nilpotent, Z.lxor_0_l.
    destruct data as [|b [|b' data]]; reflexivity.
  - rewrite (_buzhash_cons (tl data)) by lia.
    specialize (IH (tl data)).
    replace (nth (S n) (tl data) x00) with (nth (S (S n)) data x00) in IH
      by (destruct data; [destruct n|]; reflexivity).
    rewrite <- IH by lia. clear IH.
    rewrite (_buzhash_cons data) by lia.
    set (t0 := tbl h (deref data)).
    set (t1 := tbl h (deref (tl data))).
    set (hs := _buzhash (tl data) (S n) h).
    assert (Ht0 : is_u32 t0) by (apply tbl_is_u32; exact Hh).
    assert (Hhs : is_u32 hs) by (apply is_u32_buzhash; [exact Hh|lia]).
    rewrite BARREL_SHIFT_lxor
      by (auto using is_u32_BARREL_SHIFT, land_0x1f_range; lia).
    rewrite BARREL_SHIFT_compose by (auto using land_0x1f_range; lia).
    rewrite succ_mod32.
    set (r0 := BARREL_SHIFT t0 (Z.land (Z.of_nat (S (S n))) 0x1f)).
    set (r1 := BARREL_SHIFT t1 (Z.land (Z.of_nat (S n)) 0x1f)).
    set (rs := BARREL_SHIFT hs 1).
    set (ta := tbl h (nth (S (S n)) data x00)).
    rewrite (Z.lxor_comm r0 rs), (Z.lxor_assoc rs r0 r0).
    rewrite Z.lxor_nilpotent, Z.lxor_0_r.
    rewrite (Z.lxor_comm r1), !Z.lxor_assoc.
    rewrite (Z.lxor_comm ta r1), <- (Z.lxor_assoc r1 r1).
    rewrite Z.lxor_nilpotent, Z.lxor_0_l. reflexivity.
Qed.

(** *** Argument conversion of the exported functions *)

Lemma as_unsigned_in bits x :
  0 <= x < 2 ^ bits -> as_unsigned bits x = Some x.
Proof.
  intros [H0 H1]. unfold as_unsigned.
  destruct (Z.leb_spec 0 x); [|lia].
  destruct (Z.ltb_spec x (2 ^ bits)); [reflexivity|lia].
Qed.

Lemma as_unsigned_out bits x :
  x < 0 \/ 2 ^ bits <= x -> as_unsigned bits x = None.
Proof.
  intros H. unfold as_unsigned.
  destruct (Z.leb_spec 0 x); [|reflexivity].
  destruct (Z.ltb_spec x (2 ^ bits)); [lia|reflexivity].
Qed.

Lemma as_unsigned_Some bits x y :
  as_unsigned bits x = Some y -> y = x /\ 0 <= x < 2 ^ bits.
Proof.
  unfold as_unsigned.
  destruct (Z.leb_spec 0 x); [|discriminate].
  destruct (Z.ltb_spec x (2 ^ bits)); [|discriminate].
  cbn [andb]. intros E. injection E as <-. lia.
Qed.

Lemma buzhash_in data seed :
  0 <= seed < 2 ^ 64 ->
  buzhash data seed =
  Some (_buzhash data (length data)
          (buzhash_init_table (Z.land seed 0xffffffff))).
Proof.
  intros Hs. unfold buzhash. rewrite as_unsigned_in by exact Hs.
  reflexivity.
Qed.

Lemma buzhash_update_in sum remove add len seed :
  is_u32 sum -> Z.of_nat len < 2 ^ 64 -> 0 <= seed < 2 ^ 64 ->
  buzhash_update sum remove add len seed =
  Some (_buzhash_update sum remove add len
          (buzhash_init_table (Z.land seed 0xffffffff))).
Proof.
  intros Hsum Hlen Hs. unfold buzhash_update.
  rewrite (as_unsigned_in 32 sum) by exact Hsum.
  rewrite (as_unsigned_in 64 (Z.of_nat len)) by lia.
  rewrite (as_unsigned_in 64 seed) by exact Hs.
  reflexivity.
Qed.

(** C4 (as the code behaves).  For every window length
    [1 <= W < 2^32], every byte string [b] of length at least [W + 1]
    and every seed that the functions accept ([0 <= seed < 2^64], the
    range of [unsigned long]), the three calls return and one
    incremental step from the hash of the first window is the hash of
    the window shifted by one byte:
    [buzhash_update(buzhash(b[0..W], seed), b[0], b[W], W, seed)
     == buzhash(b[1..W+1], seed)]. *)
Theorem buzhash_rolling_identity (b : list byte) (W : nat) (seed : Z) :
  (1 <= W)%nat -> Z.of_nat W < 2 ^ 32 -> (W + 1 <= length b)%nat ->
  0 <= seed < 2 ^ 64 ->
  exists sum shifted,
    buzhash (firstn W b) seed = Some sum /\
    buzhash (firstn W (skipn 1 b)) seed = Some shifted /\
    buzhash_update sum (nth 0 b x00) (nth W b x00) W seed = Some shifted.
Proof.
  intros HW Hfit Hlen Hseed. destruct W as [|n]; [lia|].
  rewrite !buzhash_in by exact Hseed.
  rewrite !length_firstn, length_skipn.
  rewrite !Nat.min_l by lia.
  rewrite !_buzhash_firstn by lia.
  set (h := buzhash_init_table (Z.land seed 0xffffffff)).
  assert (Hh : Forall is_u32 h)
    by (apply init_table_is_u32, seed_mask_is_u32).
  eexists. eexists. split; [reflexivity|]. split; [reflexivity|].
  rewrite buzhash_update_in;
    [|apply is_u32_buzhash; [exact Hh|lia]|lia|exact Hseed].
  fold h. f_equal.
  replace (nth 0 b x00) with (deref b) by (destruct b; reflexivity).
  replace (skipn 1 b) with (tl b) by (destruct b; reflexivity).
  apply _buzhash_roll; assumption.
Qed.

Lemma buzhash_rolling_identity_witness :
  exists sum shifted,
    buzhash (firstn 4 [x11; x22; x33; x44; x55]) 7 = Some sum /\
    buzhash (firstn 4 (skipn 1 [x11; x22; x33; x44; x55])) 7
    = Some shifted /\
    buzhash_update sum (nth 0 [x11; x22; x33; x44; x55] x00)
      (nth 4 [x11; x22; x33; x44; x55] x00) 4 7 = Some shifted.
Proof.
  apply (buzhash_rolling_identity [x11; x22; x33; x44; x55] 4 7).
  - lia.
  - lia.
  - simpl. lia.
  - lia.
Defined.

(** A window of [2^32] bytes, abstractly: the loop counter of [_buzhash]
    starts from 0, so the hash of the window is the table entry of its
    first byte, while the update step rotates the old hash. *)
Lemma wrapped_window_hashes (W : nat) :
  Z.of_nat W = 2 ^ 32 ->
  buzhash (firstn W (repeat x00 (W + 1))) 0 = Some 3891802604 /\
  buzhash (firstn W (skipn 1 (repeat x00 (W + 1)))) 0 = Some 3891802604 /\
  buzhash_update 3891802604 (nth 0 (repeat x00 (W + 1)) x00)
    (nth W (repeat x00 (W + 1)) x00) W 0 = Some 3488637913.
Proof.
  intros HW.
  assert (Hd : forall l : list byte, length l = W ->
            _buzhash l (length l) (buzhash_init_table (Z.land 0 0xffffffff))
            = tbl (buzhash_init_table (Z.land 0 0xffffffff)) (deref l)).
  { intros l Hl. apply _buzhash_wrapped. rewrite Hl, HW. reflexivity. }
  assert (Hz : forall l : list byte, Forall (fun x => x = x00) l ->
            deref l = x00).
  { intros l Hl. destruct l as [|x l]; [reflexivity|].
    inversion Hl; subst. reflexivity. }
  assert (Hr : forall n, Forall (fun x : byte => x = x00) (repeat x00 n)).
  { intros n. apply Forall_forall. intros x Hx.
    apply repeat_spec in Hx. exact Hx. }
  assert (Hf : forall n (l : list byte), Forall (fun x => x = x00) l ->
            Forall (fun x => x = x00) (firstn n l)).
  { intros n l Hl. revert n. induction Hl as [|x l Hx Hl IH]; intros n.
    - rewrite firstn_nil. constructor.
    - destruct n as [|n]; [constructor|].
      cbn [firstn]. constructor; [exact Hx|apply IH]. }
  assert (Hn : forall n k, nth n (repeat x00 k) x00 = x00).
  { intros n k. destruct (nth_in_or_default n (repeat x00 k) x00) as [Hi|Hi];
      [apply repeat_spec in Hi|]; exact Hi. }
  split; [|split].
  - rewrite buzhash_in by lia. rewrite Hd.
    + rewrite Hz by apply Hf, Hr. reflexivity.
    + rewrite length_firstn, repeat_length. lia.
  - rewrite buzhash_in by lia. rewrite Hd.
    + rewrite Hz; [reflexivity|]. apply Hf.
      replace (W + 1)%nat with (1 + W)%nat by lia.
      cbn [repeat skipn Nat.add]. apply Hr.
    + rewrite length_firstn, length_skipn, repeat_length. lia.
  - rewrite buzhash_update_in by (unfold is_u32; lia).
    rewrite !Hn. unfold _buzhash_update. rewrite HW. reflexivity.
Qed.

(** C4 as stated fails where the length of the window is 0 in the 32
    bits of the loop counter of [_buzhash].  For a window of [2^32]
    zero bytes in a string of [2^32 + 1] zero bytes the hash of either
    window is the table entry of its first byte, 3891802604, and the
    update step gives 3488637913.  The empty window ([W = 0]) gives the
    same two values.  A seed outside the range of [unsigned long] is
    refused with [OverflowError] before anything is computed. *)
Lemma rolling_identity_fails_on_wrapped_window :
  (exists sum,
     buzhash (firstn (Z.to_nat (2 ^ 32))
                (repeat x00 (Z.to_nat (2 ^ 32) + 1))) 0 = Some sum /\
     buzhash_update sum
       (nth 0 (repeat x00 (Z.to_nat (2 ^ 32) + 1)) x00)
       (nth (Z.to_nat (2 ^ 32)) (repeat x00 (Z.to_nat (2 ^ 32) + 1)) x00)
       (Z.to_nat (2 ^ 32)) 0 = Some 3488637913 /\
     buzhash (firstn (Z.to_nat (2 ^ 32))
                (skipn 1 (repeat x00 (Z.to_nat (2 ^ 32) + 1)))) 0
     = Some 3891802604) /\
  (exists sum,
     buzhash (firstn 0 [x01]) 0 = Some sum /\
     buzhash_update sum (nth 0 [x01] x00) (nth 0 [x01] x00) 0 0
     = Some 3488637913 /\
     buzhash (firstn 0 (skipn 1 [x01])) 0 = Some 3891802604) /\
  buzhash (firstn 4 [x11; x22; x33; x44; x55]) (-1) = None /\
  buzhash (firstn 4 [x11; x22; x33; x44; x55]) (2 ^ 64) = None.
Proof.
  split; [|split; [|split]].
  - destruct (wrapped_window_hashes (Z.to_nat (2 ^ 32)))
      as (H1 & H2 & H3).
    + apply Z2Nat.id. apply Z.pow_nonneg. lia.
    + exists 3891802604. split; [exact H1|]. split; [exact H3|exact H2].
  - exists 3891802604. split; [reflexivity|]. split; reflexivity.
  - reflexivity.
  - reflexivity.
Qed.

(** C10. The exported hash functions depend on the seed only through
    its low 32 bits: for every seed [s] in the range of the
    [unsigned long] argument, [buzhash] returns, and returns the same
    as for [s mod 2^32], and [buzhash_update] with seed [s] gives the
    same as with seed [s mod 2^32]. *)
Theorem buzhash_seed_low_bits (data : list byte) (sum : Z)
  (remove add : byte) (len : nat) (s : Z) :
  0 <= s < 2 ^ 64 ->
  (exists h, buzhash data s = Some h) /\
  buzhash data s = buzhash data (s mod 2 ^ 32) /\
  buzhash_update sum remove add len s =
  buzhash_update sum remove add len (s mod 2 ^ 32).
Proof.
  intros Hs.
  assert (Hm : 0 <= s mod 2 ^ 32 < 2 ^ 64).
  { pose proof (Z.mod_pos_bound s (2 ^ 32) ltac:(lia)). lia. }
  assert (Ht : Z.land (s mod 2 ^ 32) 0xffffffff = Z.land s 0xffffffff).
  { rewrite (seed_mask_mod (s mod 2 ^ 32)), seed_mask_mod.
    apply Z.mod_mod. lia. }
  split; [|split].
  - eexists. apply buzhash_in. exact Hs.
  - rewrite !buzhash_in by assumption. rewrite Ht. reflexivity.
  - unfold buzhash_update.
    rewrite (as_unsigned_in 64 s), (as_unsigned_in 64 (s mod 2 ^ 32))
      by assumption.
    rewrite Ht. reflexivity.
Qed.

Lemma buzhash_seed_low_bits_witness :
  (exists h, buzhash [x11; x22; x33] (2 ^ 40 + 9) = Some h) /\
  buzhash [x11; x22; x33] (2 ^ 40 + 9) =
  buzhash [x11; x22; x33] ((2 ^ 40 + 9) mod 2 ^ 32) /\
  buzhash_update 5 x11 x22 3 (2 ^ 40 + 9) =
  buzhash_update 5 x11 x22 3 ((2 ^ 40 + 9) mod 2 ^ 32).
Proof.
  apply (buzhash_seed_low_bits [x11; x22; x33] 5 x11 x22 3 (2 ^ 40 + 9)).
  lia.
Defined.

End BuzhashFacts.

(** ** Prefixes and suffixes of lists *)

Module ListFacts.
Local Open Scope nat_scope.

(** Split conjunctions only (records stay whole). *)
Ltac splits := repeat match goal with |- _ /\ _ => split end.

Lemma firstn_app_exact {A} (l1 l2 : list A) n :
  n = length l1 -> firstn n (l1 ++ l2) = l1.
Proof.
  intros ->. rewrite firstn_app, Nat.sub_diag, firstn_all.
  cbn [firstn]. apply app_nil_r.
Qed.

Lemma skipn_app_exact {A} (l1 l2 : list A) n :
  n = length l1 -> skipn n (l1 ++ l2) = l2.
Proof.
  intros ->. rewrite skipn_app, Nat.sub_diag, skipn_all. reflexivity.
Qed.

Lemma firstn_add {A} (l : list A) : forall n k,
  firstn (n + k) l = firstn n l ++ firstn k (skipn n l).
Proof.
  induction l as [|x l IH]; intros n k.
  - rewrite skipn_nil, !firstn_nil. reflexivity.
  - destruct n as [|n]; [reflexivity|].
    cbn [Nat.add firstn skipn app]. rewrite IH. reflexivity.
Qed.

Lemma firstn_skipn_add {A} (l : list A) a n k :
  firstn (n + k) (skipn a l) =
  firstn n (skipn a l) ++ firstn k (skipn (a + n) l).
Proof.
  rewrite firstn_add, skipn_skipn. do 3 f_equal. lia.
Qed.

Lemma firstn_eq_shorter {A} (l1 l2 : list A) n k :
  firstn n l1 = firstn n l2 -> k <= n -> firstn k l1 = firstn k l2.
Proof.
  intros H Hk.
  rewrite <- (Nat.min_l k n) by exact Hk.
  rewrite <- !firstn_firstn. rewrite H. reflexivity.
Qed.

Lemma firstn_skipn_eq_shift {A} (l1 l2 : list A) a b n j k :
  firstn n (skipn a l1) = firstn n (skipn b l2) ->
  j + k <= n ->
  firstn k (skipn (a + j) l1) = firstn k (skipn (b + j) l2).
Proof.
  intros H Hjk.
  assert (H' : firstn (j + k) (skipn a l1) = firstn (j + k) (skipn b l2))
    by (eapply firstn_eq_shorter; eassumption).
  rewrite !firstn_skipn_add in H'.
  assert (Hj : firstn j (skipn a l1) = firstn j (skipn b l2))
    by (eapply firstn_eq_shorter; [exact H|lia]).
  assert (Hlen : length (firstn j (skipn a l1)) =
                 length (firstn j (skipn b l2))) by (rewrite Hj; reflexivity).
  rewrite Hj in H'. apply app_inv_head in H'. exact H'.
Qed.

Lemma nth_skipn_firstn {A} (l : list A) d p :
  p < length l -> firstn 1 (skipn p l) = [nth p l d].
Proof.
  revert p. induction l as [|x l IH]; intros p Hp; cbn [length] in Hp; [lia|].
  destruct p as [|p]; [reflexivity|].
  cbn [skipn nth]. apply IH. lia.
Qed.

Lemma firstn_length_firstn {A} (l : list A) k :
  firstn (length (firstn k l)) l = firstn k l.
Proof.
  rewrite length_firstn.
  destruct (Nat.le_gt_cases k (length l)) as [H|H].
  - rewrite Nat.min_l by exact H. reflexivity.
  - rewrite Nat.min_r by lia. rewrite !firstn_all2 by lia. reflexivity.
Qed.

Lemma tl_skipn {A} (l : list A) : forall p, tl (skipn p l) = skipn (S p) l.
Proof.
  induction l as [|x l IH]; intros p.
  - rewrite !skipn_nil. reflexivity.
  - destruct p as [|p]; [reflexivity|]. cbn [skipn]. rewrite IH.
    reflexivity.
Qed.

Lemma removelast_map {A B} (f : A -> B) (l : list A) :
  removelast (List.map f l) = List.map f (removelast l).
Proof.
  induction l as [|x l IH]; [reflexivity|].
  destruct l as [|y l]; [reflexivity|].
  cbn [List.map removelast] in *. rewrite IH. reflexivity.
Qed.

End ListFacts.

(** ** Regular files *)

Module SourceFacts.
Import Source.

Lemma set_pos_same f : set_pos f (f_pos f) = f.
Proof. destruct f; reflexivity. Qed.

Lemma read_full f n :
  f_caps f = [] ->
  read f n =
  (firstn (N.to_nat n) (skipn (N.to_nat (f_pos f)) (f_bytes f)),
   set_pos f (f_pos f + N.of_nat
     (length (firstn (N.to_nat n) (skipn (N.to_nat (f_pos f)) (f_bytes f)))))).
Proof.
  intros Hc. unfold read, set_pos. rewrite Hc. reflexivity.
Qed.

End SourceFacts.

(** ** Chunks and the all-zero classification *)

Module ChunkFacts.
Import ChunkDef Fixed.
Local Open Scope nat_scope.

Lemma byte_eqb_eq (a b : byte) : Byte.eqb a b = true <-> a = b.
Proof.
  split.
  - apply Byte.byte_dec_bl.
  - intros ->. apply Byte.byte_dec_lb. reflexivity.
Qed.

Lemma all_zero_repeat block :
  all_zero block = true <-> block = repeat x00 (length block).
Proof.
  unfold all_zero. induction block as [|b block IH]; cbn [forallb length repeat].
  - split; reflexivity.
  - rewrite andb_true_iff, byte_eqb_eq, IH. split.
    + intros [-> <-]. reflexivity.
    + intros H. injection H as -> H. split; [reflexivity|exact H].
Qed.

(** [zeros.startswith(block)], for [zeros] made of zero bytes: the
    block is no longer than [zeros] and holds zero bytes only. *)
Lemma startswith_zeros zeros : all_zero zeros = true -> forall block,
  startswith zeros block = true <->
  length block <= length zeros /\ all_zero block = true.
Proof.
  unfold all_zero.
  induction zeros as [|z zeros IH]; intros Hz block.
  - destruct block as [|b block]; cbn.
    + split; [intros _; split; [lia|reflexivity]|reflexivity].
    + split; [discriminate|intros [H _]; lia].
  - cbn [forallb] in Hz. apply andb_true_iff in Hz. destruct Hz as [Hz0 Hz].
    apply byte_eqb_eq in Hz0. subst z.
    destruct block as [|b block]; cbn [startswith forallb length].
    + split; [intros _; split; [lia|reflexivity]|reflexivity].
    + rewrite !andb_true_iff, (IH Hz block).
      rewrite !byte_eqb_eq.
      split.
      * intros [-> [H1 H2]]. repeat split; [lia|exact H2].
      * intros [H1 [-> H2]]. repeat split; [lia|exact H2].
Qed.

Lemma size_classify zeros block : size (classify zeros block) = length block.
Proof. unfold classify. destruct (startswith zeros block); reflexivity. Qed.

(** The classification decides the kind and the payload of the chunk. *)
Lemma classify_cases zeros block :
  (startswith zeros block = true /\
   classify zeros block = mkChunk None (length block) CH_ALLOC) \/
  (startswith zeros block = false /\
   classify zeros block = mkChunk (Some block) (length block) CH_DATA).
Proof.
  unfold classify. destruct (startswith zeros block); [left|right];
    split; reflexivity.
Qed.

Lemma rebuild_classify zeros block :
  all_zero zeros = true -> rebuild (classify zeros block) = block.
Proof.
  intros Hz. destruct (classify_cases zeros block) as [[Hs ->]|[Hs ->]];
    [|reflexivity].
  unfold rebuild; cbn [data size].
  apply (startswith_zeros zeros Hz) in Hs. destruct Hs as [_ Hs].
  symmetry. apply all_zero_repeat. exact Hs.
Qed.

Lemma rebuild_all_classify zeros blocks :
  all_zero zeros = true ->
  rebuild_all (List.map (classify zeros) blocks) = concat blocks.
Proof.
  intros Hz. unfold rebuild_all. rewrite map_map. f_equal.
  rewrite <- (map_id blocks) at 2.
  apply map_ext. intros b. apply rebuild_classify. exact Hz.
Qed.

Lemma total_size_app cs1 cs2 :
  total_size (cs1 ++ cs2) = total_size cs1 + total_size cs2.
Proof.
  unfold total_size. induction cs1 as [|c cs1 IH]; cbn [app fold_right];
    [reflexivity|]. rewrite IH. lia.
Qed.

Lemma total_size_classify zeros blocks :
  total_size (List.map (classify zeros) blocks) = length (concat blocks).
Proof.
  unfold total_size.
  induction blocks as [|b blocks IH]; cbn [List.map fold_right concat];
    [reflexivity|].
  rewrite IH, size_classify, length_app. reflexivity.
Qed.

Lemma rebuild_all_app cs1 cs2 :
  rebuild_all (cs1 ++ cs2) = rebuild_all cs1 ++ rebuild_all cs2.
Proof. unfold rebuild_all. rewrite map_app, concat_app. reflexivity. Qed.

Lemma classify_classified zeros block :
  all_zero zeros = true -> length block <= length zeros ->
  classified (classify zeros block) block.
Proof.
  intros Hz Hlen. unfold classified. rewrite size_classify.
  split; [reflexivity|].
  destruct (classify_cases zeros block) as [[Hs ->]|[Hs ->]]; cbn [allocation data].
  - left. apply (startswith_zeros zeros Hz) in Hs. destruct Hs as [_ Hs].
    repeat split. exact Hs.
  - right. repeat split.
    destruct (all_zero block) eqn:Ea; [|reflexivity].
    assert (Hs' : startswith zeros block = true)
      by (apply (startswith_zeros zeros Hz); split; assumption).
    congruence.
Qed.

Lemma Forall2_classify zeros blocks :
  all_zero zeros = true ->
  Forall (fun b => length b <= length zeros) blocks ->
  Forall2 classified (List.map (classify zeros) blocks) blocks.
Proof.
  intros Hz H. induction H as [|b blocks Hb _ IH]; cbn [List.map];
    constructor; [|exact IH].
  apply classify_classified; assumption.
Qed.

(** The boundaries of the chunks depend on the lengths of the blocks
    only, not on what the classification makes of them. *)
Lemma boundaries_classify zeros zeros' blocks : forall off,
  boundaries off (List.map (classify zeros) blocks) =
  boundaries off (List.map (classify zeros') blocks).
Proof.
  induction blocks as [|b blocks IH]; intros off; cbn [List.map boundaries];
    [reflexivity|].
  rewrite !size_classify, IH. reflexivity.
Qed.

(** *** Blocks of a fixed size *)

Lemma split_blocks_enough bs : 0 < bs -> forall n m s,
  length s <= n -> length s <= m ->
  split_blocks n bs s = split_blocks m bs s.
Proof.
  intros Hbs. induction n as [|n IH]; intros m s Hn Hm.
  - destruct s; [|cbn in Hn; lia]. destruct m; reflexivity.
  - destruct s as [|b s']; [destruct m; reflexivity|].
    destruct m as [|m]; [cbn in Hm; lia|].
    cbn [split_blocks]. f_equal.
    apply IH; rewrite length_skipn; cbn [length] in *; lia.
Qed.

Lemma fixed_blocks_nil bs : fixed_blocks bs [] = [].
Proof. reflexivity. Qed.

Lemma fixed_blocks_cons bs s :
  0 < bs -> s <> [] ->
  fixed_blocks bs s = firstn bs s :: fixed_blocks bs (skipn bs s).
Proof.
  intros Hbs Hs. unfold fixed_blocks.
  destruct s as [|b s']; [congruence|].
  set (s := b :: s'). change (length s) with (S (length s')).
  cbn [split_blocks]. unfold s at 1. fold s. f_equal.
  apply split_blocks_enough; [exact Hbs| |lia].
  rewrite length_skipn. subst s. cbn [length]. lia.
Qed.

Lemma fixed_blocks_concat bs : 0 < bs -> forall s,
  concat (fixed_blocks bs s) = s.
Proof.
  intros Hbs s. remember (length s) as n eqn:Hn.
  revert s Hn. induction n as [n IH] using lt_wf_ind. intros s Hn.
  destruct s as [|b s'] eqn:Es; [reflexivity|]. rewrite <- Es in *.
  rewrite fixed_blocks_cons by (assumption || (rewrite Es; discriminate)).
  cbn [concat].
  rewrite (IH (length (skipn bs s))); [apply firstn_skipn| |reflexivity].
  rewrite length_skipn. subst n. rewrite Es. cbn [length]. lia.
Qed.

Lemma fixed_blocks_sizes bs : 0 < bs -> forall s,
  Forall (fun b => 1 <= length b <= bs) (fixed_blocks bs s).
Proof.
  intros Hbs s. remember (length s) as n eqn:Hn.
  revert s Hn. induction n as [n IH] using lt_wf_ind. intros s Hn.
  destruct s as [|b s'] eqn:Es; [constructor|]. rewrite <- Es in *.
  assert (0 < length s) by (rewrite Es; cbn; lia).
  rewrite fixed_blocks_cons by (assumption || (rewrite Es; discriminate)).
  constructor.
  - rewrite length_firstn. lia.
  - apply (IH (length (skipn bs s))); [|reflexivity].
    rewrite length_skipn. lia.
Qed.

End ChunkFacts.

(** ** The failing chunker *)

Module FailingFacts.
Import ListFacts SourceFacts Source ChunkDef ChunkFacts Failing.

Lemma length_8 (b : list byte) :
  length b = 8%nat ->
  exists b0 b1 b2 b3 b4 b5 b6 b7, b = [b0; b1; b2; b3; b4; b5; b6; b7].
Proof.
  intros H.
  do 8 (destruct b as [|? b]; [discriminate H|]).
  destruct b; [|discriminate H].
  repeat eexists.
Qed.

(** C6 (as the code behaves).  [ChunkerFailing(4, "RERR")] on an 8-byte
    source: the first pull yields a [DATA] chunk with the first four
    bytes; the second pull reads the last four bytes and raises
    [OSError(EIO)].  When the caller resumes with [chunkify] on the same
    source, that source is at its end and the third pull ends the
    sequence.  When the caller resumes on the reopened source, the third
    and the fourth pull yield [DATA] chunks of size 4 (the map says [R]
    for blocks 2 and 3) and the fifth pull ends the sequence. *)
Theorem failing_RERR_scenario (b : list byte) (fuel : nat) :
  length b = 8%nat -> (0 < fuel)%nat ->
  exists c, init 4 "RERR" = inr c /\
  scenario fuel c (plain b) false =
    [Got (mkChunk (Some (firstn 4 b)) 4 CH_DATA); Failed (OSError EIO);
     Ended; Ended; Ended] /\
  scenario fuel c (plain b) true =
    [Got (mkChunk (Some (firstn 4 b)) 4 CH_DATA); Failed (OSError EIO);
     Got (mkChunk (Some (firstn 4 b)) 4 CH_DATA);
     Got (mkChunk (Some (skipn 4 b)) 4 CH_DATA); Ended].
Proof.
  intros Hlen Hfuel.
  destruct (length_8 b Hlen) as (b0 & b1 & b2 & b3 & b4 & b5 & b6 & b7 & ->).
  destruct fuel as [|fuel]; [lia|].
  eexists. split; [reflexivity|]. split; reflexivity.
Qed.

Lemma failing_RERR_scenario_witness :
  exists c, init 4 "RERR" = inr c /\
  scenario 1 c (plain [x01; x02; x03; x04; x05; x06; x07; x08]) false =
    [Got (mkChunk (Some [x01; x02; x03; x04]) 4 CH_DATA);
     Failed (OSError EIO); Ended; Ended; Ended] /\
  scenario 1 c (plain [x01; x02; x03; x04; x05; x06; x07; x08]) true =
    [Got (mkChunk (Some [x01; x02; x03; x04]) 4 CH_DATA);
     Failed (OSError EIO);
     Got (mkChunk (Some [x01; x02; x03; x04]) 4 CH_DATA);
     Got (mkChunk (Some [x05; x06; x07; x08]) 4 CH_DATA); Ended].
Proof.
  apply (failing_RERR_scenario [x01; x02; x03; x04; x05; x06; x07; x08] 1).
  - reflexivity.
  - lia.
Defined.

(** The scenario as the specification words it fails on the source
    [01 02 .. 08]: whichever source the caller resumes on, it is not the
    case that the third pull yields a [DATA] chunk of size 4 and the
    fourth pull ends the sequence. *)
Lemma failing_RERR_as_stated_fails :
  let c := mkFailing 4 ["R"; "E"; "R"; "R"]%char 0 in
  let src := plain [x01; x02; x03; x04; x05; x06; x07; x08] in
  init 4 "RERR" = inr c /\
  ~ (exists ch,
       nth 2 (scenario 1 c src false) NoAnswer = Got ch /\
       size ch = 4%nat /\ allocation ch = CH_DATA /\
       nth 3 (scenario 1 c src false) NoAnswer = Ended) /\
  ~ (exists ch,
       nth 2 (scenario 1 c src true) NoAnswer = Got ch /\
       size ch = 4%nat /\ allocation ch = CH_DATA /\
       nth 3 (scenario 1 c src true) NoAnswer = Ended).
Proof.
  cbv zeta. split; [reflexivity|].
  split; intros (ch & H3 & _ & _ & H4); cbv in H3, H4; discriminate.
Qed.

(** *** Every emitted chunk holds at least one byte *)

Lemma loop_nonempty : forall fuel c f ch g c' f',
  loop fuel c f = Some (Yield ch, g, c', f') -> (0 < size ch)%nat.
Proof.
  induction fuel as [|fuel IH]; intros c f ch g c' f' H; cbn [loop] in H;
    [discriminate|].
  destruct (read f (block_size c)) as [block f1].
  destruct (N.ltb_spec 0 (N.of_nat (length block))) as [Hpos|Hz].
  - destruct (behaviour c) as [b|]; [|discriminate].
    destruct (is_E b); [discriminate|].
    destruct (is_R b); [|discriminate].
    injection H as <- _ _ _. cbn [size]. lia.
  - destruct (N.of_nat (length block) <? block_size c)%N; [discriminate|].
    eapply IH. exact H.
Qed.

Lemma next_nonempty fuel g c f ch g' c' f' :
  next fuel g c f = Some (Yield ch, g', c', f') -> (0 < size ch)%nat.
Proof.
  destruct g as [|got wanted|]; cbn [next]; intros H.
  - eapply loop_nonempty. exact H.
  - destruct (got <? wanted)%N; [discriminate|].
    eapply loop_nonempty. exact H.
  - discriminate.
Qed.

(** No chunk of the failing chunker is empty, whatever the source and
    the map. *)
Lemma drain_nonempty : forall fuel g c f chs e c' f',
  drain fuel g c f = Some (chs, e, c', f') ->
  Forall (fun ch => (0 < size ch)%nat) chs.
Proof.
  induction fuel as [|fuel IH]; intros g c f chs e c' f' H; cbn [drain] in H;
    [discriminate|].
  destruct (next (S fuel) g c f) as [[[[o g1] c1] f1]|] eqn:En;
    [|discriminate].
  destruct o as [ch| |e1].
  - destruct (drain fuel g1 c1 f1) as [[[[chs1 e1] c2] f2]|] eqn:Ed;
      [|discriminate].
    injection H as <- _ _ _. constructor.
    + eapply next_nonempty. exact En.
    + eapply IH. exact Ed.
  - injection H as <- _ _ _. constructor.
  - injection H as <- _ _ _. constructor.
Qed.

(** *** A map without failures *)

Lemma behaviour_all_R c :
  map c <> [] -> forallb is_R (map c) = true ->
  exists b, behaviour c = Some b /\ is_R b = true /\ is_E b = false.
Proof.
  intros Hne Hall. unfold behaviour.
  assert (Hget : forall i, (i < length (map c))%nat ->
            exists b, nth_error (map c) i = Some b /\ is_R b = true /\
                      is_E b = false).
  { intros i Hi. destruct (nth_error (map c) i) as [b|] eqn:E.
    - exists b. split; [reflexivity|].
      rewrite forallb_forall in Hall.
      pose proof (Hall b (nth_error_In _ _ E)) as HR. split; [exact HR|].
      unfold is_R, is_E in *. apply Ascii.eqb_eq in HR. subst b. reflexivity.
    - apply nth_error_None in E. lia. }
  assert (0 < length (map c))%nat
    by (destruct (map c); [congruence|cbn; lia]).
  destruct (Nat.ltb_spec (count c) (length (map c))); apply Hget; lia.
Qed.

(** With a map of [R]s the failing chunker cuts the rest of the source
    into blocks and emits them all. *)
Lemma failing_drain_unfold fuel g c f :
  drain (S fuel) g c f =
  match next (S fuel) g c f with
  | None => None
  | Some (Yield ch, g', c', f') =>
      match drain fuel g' c' f' with
      | Some (chs, e, c'', f'') => Some (ch :: chs, e, c'', f'')
      | None => None
      end
  | Some (StopIteration, _, c', f') => Some ([], None, c', f')
  | Some (Raise e, _, c', f') => Some ([], Some e, c', f')
  end.
Proof. reflexivity. Qed.

Lemma skipn_min_length {A} (l : list A) k :
  skipn (Nat.min k (length l)) l = skipn k l.
Proof.
  destruct (Nat.le_gt_cases k (length l)) as [H|H].
  - rewrite Nat.min_l by exact H. reflexivity.
  - rewrite Nat.min_r by lia. rewrite !skipn_all2 by lia. reflexivity.
Qed.

Lemma loop_all_R fuel c f :
  (0 < block_size c)%N -> map c <> [] -> forallb is_R (map c) = true ->
  f_caps f = [] ->
  let block := firstn (N.to_nat (block_size c))
                      (skipn (N.to_nat (f_pos f)) (f_bytes f)) in
  loop (S fuel) c f =
  if (0 <? N.of_nat (length block))%N
  then Some (Yield (mkChunk (Some block) (length block) CH_DATA),
             AtYield (N.of_nat (length block)) (block_size c), bump c,
             set_pos f (f_pos f + N.of_nat (length block)))
  else Some (StopIteration, Finished, c,
             set_pos f (f_pos f + N.of_nat (length block))).
Proof.
  intros Hbs Hne HR Hcaps block. cbn [loop].
  rewrite read_full by exact Hcaps. fold block.
  destruct (behaviour_all_R c Hne HR) as (b & -> & -> & ->).
  destruct (N.ltb_spec 0 (N.of_nat (length block))) as [Hpos|Hz];
    [reflexivity|].
  destruct (N.ltb_spec (N.of_nat (length block)) (block_size c));
    [reflexivity|lia].
Qed.

Lemma drain_all_R : forall n fuel g c f,
  (0 < block_size c)%N -> map c <> [] -> forallb is_R (map c) = true ->
  f_caps f = [] ->
  (g = Created \/
   exists got, g = AtYield got (block_size c) /\
     ((got < block_size c)%N -> (f_len f <= f_pos f)%N)) ->
  (length (f_bytes f) - N.to_nat (f_pos f) <= n)%nat ->
  (n + 2 <= fuel)%nat ->
  exists c' f',
    drain fuel g c f =
    Some (data_chunks (Fixed.fixed_blocks (N.to_nat (block_size c))
                         (skipn (N.to_nat (f_pos f)) (f_bytes f))),
          None, c', f').
Proof.
  induction n as [n IH] using lt_wf_ind.
  intros fuel g c f Hbs Hne HR Hcaps Hg Hn Hfuel.
  destruct fuel as [|fuel]; [lia|]. rewrite failing_drain_unfold.
  set (X := skipn (N.to_nat (f_pos f)) (f_bytes f)).
  assert (HX : length X = (length (f_bytes f) - N.to_nat (f_pos f))%nat)
    by (subst X; apply length_skipn).
  assert (Hnext :
    next (S fuel) g c f = loop (S fuel) c f \/
    (next (S fuel) g c f = Some (StopIteration, Finished, c, f) /\ X = [])).
  { destruct Hg as [->|(got & -> & Hshort)]; [left; reflexivity|].
    cbn [next].
    destruct (N.ltb_spec got (block_size c)) as [Hlt|Hge];
      [|left; reflexivity].
    right. split; [reflexivity|].
    apply length_zero_iff_nil. specialize (Hshort Hlt).
    unfold f_len in Hshort. lia. }
  destruct Hnext as [->|[-> HXnil]];
    [|rewrite HXnil; do 2 eexists; reflexivity].
  rewrite (loop_all_R fuel c f Hbs Hne HR Hcaps). cbv zeta. fold X.
  set (block := firstn (N.to_nat (block_size c)) X).
  assert (Hblen : length block = Nat.min (N.to_nat (block_size c)) (length X))
    by (subst block; apply length_firstn).
  destruct (N.ltb_spec 0 (N.of_nat (length block))) as [Hpos|Hz].
  - (* a block, then the rest *)
    assert (HXne : X <> []).
    { intros E. rewrite E in Hblen. cbn [length] in Hblen. lia. }
    destruct (IH (n - 1)%nat ltac:(lia) fuel
                (AtYield (N.of_nat (length block)) (block_size c)) (bump c)
                (set_pos f (f_pos f + N.of_nat (length block))))
      as (c' & f' & Hd); try assumption.
    + right. eexists. split; [reflexivity|].
      unfold f_len. cbn [set_pos f_bytes f_pos bump block_size]. lia.
    + cbn [set_pos f_bytes f_pos]. lia.
    + lia.
    + rewrite Hd. cbn [set_pos f_bytes f_pos bump block_size].
      exists c', f'. do 3 f_equal.
      rewrite (fixed_blocks_cons (N.to_nat (block_size c)) X)
        by (assumption || lia).
      unfold data_chunks. cbn [List.map]. fold block. do 3 f_equal.
      replace (N.to_nat (f_pos f + N.of_nat (length block)))
        with (length block + N.to_nat (f_pos f))%nat by lia.
      rewrite <- skipn_skipn. fold X. rewrite Hblen.
      rewrite skipn_min_length. reflexivity.
  - (* the end of the source *)
    assert (HXnil : X = []) by (apply length_zero_iff_nil; lia).
    rewrite HXnil. do 2 eexists. reflexivity.
Qed.

(** With a map of [R]s the chunks of the failing chunker rebuild the
    source. *)
Lemma failing_rebuilds c f fuel :
  (0 < block_size c)%N -> map c <> [] -> forallb is_R (map c) = true ->
  f_caps f = [] -> f_pos f = 0%N ->
  (length (f_bytes f) + 2 <= fuel)%nat ->
  exists chs c' f',
    drain fuel chunkify c f = Some (chs, None, c', f') /\
    rebuild_all chs = f_bytes f /\
    total_size chs = length (f_bytes f).
Proof.
  intros Hbs Hne HR Hcaps Hpos Hfuel.
  destruct (drain_all_R (length (f_bytes f)) fuel chunkify c f Hbs Hne HR
              Hcaps (or_introl eq_refl)) as (c' & f' & Hd); [lia|lia|].
  rewrite Hpos in Hd. change (N.to_nat 0) with 0%nat in Hd.
  cbn [skipn] in Hd.
  eexists. exists c', f'. split; [exact Hd|].
  assert (Hbs' : (0 < N.to_nat (block_size c))%nat) by lia.
  generalize (fixed_blocks_concat _ Hbs' (f_bytes f)).
  generalize (Fixed.fixed_blocks (N.to_nat (block_size c)) (f_bytes f)).
  intros blocks Hc. rewrite <- Hc. clear.
  unfold rebuild_all, total_size, data_chunks.
  induction blocks as [|b blocks [IH1 IH2]]; [split; reflexivity|].
  cbn [List.map concat fold_right]. rewrite IH1, IH2, length_app.
  split; reflexivity.
Qed.

End FailingFacts.

(** ** The sparse-range enumerator *)

Module SparsemapFacts.
Import ListFacts Source Sparsemap.
Local Open Scope N_scope.

(** *** Seeks *)

Lemma dseek_set p f : dseek p SEEK_SET f = (inr p, set_pos f p).
Proof. reflexivity. Qed.

Lemma dpos_curr_end_eq f :
  dpos_curr_end f = (inr (f_pos f, f_len f), f).
Proof.
  unfold dpos_curr_end, dseek, lseek. cbn [set_pos f_pos f_len f_bytes].
  rewrite !N.add_0_r. destruct f; reflexivity.
Qed.

Lemma scan_ge want holes : forall k off o,
  scan want holes off k = Some o -> (off <= o < off + k)%nat.
Proof.
  induction k as [|k IH]; intros off o H; cbn [scan] in H; [discriminate|].
  destruct (Bool.eqb (nth off holes false) want).
  - injection H as <-. lia.
  - apply IH in H. lia.
Qed.

Lemma scan_flag want holes : forall k off o,
  scan want holes off k = Some o -> nth o holes false = want.
Proof.
  induction k as [|k IH]; intros off o H; cbn [scan] in H; [discriminate|].
  destruct (Bool.eqb (nth off holes false) want) eqn:E.
  - injection H as <-. apply Bool.eqb_prop. exact E.
  - eapply IH. exact H.
Qed.

Lemma scan_first want holes : forall k off o,
  scan want holes off k = Some o ->
  forall i, (off <= i < o)%nat -> nth i holes false = negb want.
Proof.
  induction k as [|k IH]; intros off o H i Hi; cbn [scan] in H;
    [discriminate|].
  destruct (Bool.eqb (nth off holes false) want) eqn:E.
  - injection H as <-. lia.
  - destruct (Nat.eq_dec i off) as [->|Hne].
    + apply Bool.eqb_false_iff in E.
      destruct (nth off holes false), want; try reflexivity; congruence.
    + eapply IH; [exact H|lia].
Qed.

Lemma scan_none want holes : forall k off,
  scan want holes off k = None ->
  forall i, (off <= i < off + k)%nat -> nth i holes false = negb want.
Proof.
  induction k as [|k IH]; intros off H i Hi; cbn [scan] in H; [lia|].
  destruct (Bool.eqb (nth off holes false) want) eqn:E; [discriminate|].
  destruct (Nat.eq_dec i off) as [->|Hne].
  - apply Bool.eqb_false_iff in E.
    destruct (nth off holes false), want; try reflexivity; congruence.
  - apply IH with (off := S off); [exact H|lia].
Qed.

(** *** The generator keeps the start position for its [finally] *)

Lemma finally_tied curr leave f o g f' :
  finally curr leave f = (o, g, f') -> g = Finished /\ f_pos f' = curr.
Proof.
  unfold finally. rewrite dseek_set. intros H. injection H as _ <- <-.
  split; reflexivity.
Qed.

(** From [Some a = Some b] to [a = b], without unfolding [a]. *)
Ltac some_inj H :=
  match type of H with
  | Some ?a = Some ?b =>
      let H' := fresh in
      assert (H' : a = b) by congruence; clear H; rename H' into H
  end.

Ltac by_finally H :=
  some_inj H; apply finally_tied in H; destruct H as [-> H]; exact H.

Lemma loop_tied fuel : forall curr file_len start w f o g f',
  loop fuel curr file_len start w f = Some (o, g, f') -> tied curr g f'.
Proof.
  induction fuel as [|fuel IH]; intros curr file_len start w f o g f' H;
    cbn [loop] in H; [discriminate|].
  destruct (dseek start w f) as [[e|end_] f1].
  - destruct e as [e| | |].
    + destruct (errno_eqb e ENXIO).
      * destruct (negb _ && _).
        -- injection H as _ <- _. reflexivity.
        -- by_finally H.
      * by_finally H.
    + by_finally H.
    + by_finally H.
    + by_finally H.
  - destruct (start <? end_).
    + injection H as _ <- _. reflexivity.
    + eapply IH. exact H.
Qed.

Lemma next_tied fuel p g f o g' f' :
  tied p g f -> next fuel g f = Some (o, g', f') -> tied p g' f'.
Proof.
  intros Ht H. destruct g as [|curr file_len end_ is_data|curr|];
    cbn [next] in H.
  - rewrite dpos_curr_end_eq in H. cbn [tied] in Ht. rewrite <- Ht.
    eapply loop_tied. exact H.
  - cbn [tied] in Ht. subst p. eapply loop_tied. exact H.
  - cbn [tied] in Ht. subst p. by_finally H.
  - injection H as _ <- <-. exact Ht.
Qed.

Lemma pulls_tied fuel p : forall n g f g' f',
  tied p g f -> pulls fuel n g f = Some (g', f') -> tied p g' f'.
Proof.
  induction n as [|n IH]; intros g f g' f' Ht H; cbn [pulls] in H.
  - injection H as <- <-. exact Ht.
  - destruct (next fuel g f) as [[[o g1] f1]|] eqn:E; [|discriminate].
    eapply IH; [|exact H]. eapply next_tied; eassumption.
Qed.

Lemma close_tied p g f : tied p g f -> f_pos (snd (close g f)) = p.
Proof.
  intros Ht. destruct g; cbn [close tied] in *; exact Ht.
Qed.

(** *** Every pull returns *)

Lemma lseek_hole_result f off w o f' :
  hole_seek w -> lseek f off w = (inr o, f') ->
  f_bytes f' = f_bytes f /\ f_holes f' = f_holes f /\
  off < f_len f /\ off <= o <= f_len f /\
  (o < f_len f -> nth (N.to_nat o) (f_holes f) false = wanted_flag w) /\
  (forall i, off <= i < o ->
     nth (N.to_nat i) (f_holes f) false = negb (wanted_flag w)) /\
  (o = f_len f -> w = SEEK_HOLE) /\
  f_pos f' = o.
Proof.
  intros Hw H. unfold lseek in H.
  destruct Hw as [->| ->];
    destruct (f_faults f) as [|[e|] fl]; try discriminate;
    cbn [wanted_flag];
    unfold f_len in *;
    (destruct (N.leb_spec (N.of_nat (length (f_bytes f))) off) as [Hle|Hlt];
     [discriminate|]);
    (destruct (scan _ _ _ _) as [o0|] eqn:Es;
     [ injection H as <- <-; cbn [set_pos f_bytes f_holes f_pos];
       pose proof (scan_ge _ _ _ _ _ Es) as Hge;
       pose proof (scan_flag _ _ _ _ _ Es) as Hfl;
       pose proof (scan_first _ _ _ _ _ Es) as Hfi;
       repeat split; try lia;
       [ intros _; rewrite Nat2N.id; exact Hfl
       | intros i Hi; apply Hfi; lia ]
     | try discriminate;
       injection H as <- <-; cbn [set_pos f_bytes f_holes f_pos];
       pose proof (scan_none _ _ _ _ Es) as Hno;
       repeat split; try lia;
       intros i Hi; apply Hno; lia ]).
Qed.

Lemma dseek_hole_result f off w o f' :
  hole_seek w -> dseek off w f = (inr o, f') ->
  f_bytes f' = f_bytes f /\ f_holes f' = f_holes f /\
  off < f_len f /\ off <= o <= f_len f /\
  (o < f_len f -> nth (N.to_nat o) (f_holes f) false = wanted_flag w) /\
  (forall i, off <= i < o ->
     nth (N.to_nat i) (f_holes f) false = negb (wanted_flag w)) /\
  (o = f_len f -> w = SEEK_HOLE) /\
  f_pos f' = o.
Proof.
  intros Hw H. unfold dseek in H.
  destruct (lseek f off w) as [[e|p] f1] eqn:E; [discriminate|].
  injection H as <- <-. eapply lseek_hole_result; eassumption.
Qed.


Lemma finally_some curr leave f :
  exists o f', finally curr leave f = (o, Finished, f').
Proof. unfold finally. rewrite dseek_set. eauto. Qed.

Lemma flip_hole_seek (b : bool) : hole_seek (if b then SEEK_DATA else SEEK_HOLE).
Proof. destruct b; [left|right]; reflexivity. Qed.

Lemma loop_returns fuel curr file_len start w f :
  hole_seek w ->
  exists r, loop (S (S fuel)) curr file_len start w f = Some r.
Proof.
  intros Hw. cbn [loop].
  destruct (dseek start w f) as [[e|end_] f1] eqn:E1.
  - destruct e as [e| | |]; try (eexists; reflexivity).
    destruct (errno_eqb e ENXIO); [|eexists; reflexivity].
    destruct (negb _ && _); eexists; reflexivity.
  - destruct (N.ltb_spec start end_) as [Hlt|Hge]; [eexists; reflexivity|].
    set (w' := if match w with SEEK_HOLE => true | _ => false end
               then SEEK_DATA else SEEK_HOLE).
    assert (Hw' : hole_seek w') by apply flip_hole_seek.
    destruct (dseek end_ w' f1) as [[e|end2] f2] eqn:E2.
    + destruct e as [e| | |]; try (eexists; reflexivity).
      destruct (errno_eqb e ENXIO); [|eexists; reflexivity].
      destruct (negb _ && _); eexists; reflexivity.
    + destruct (N.ltb_spec end_ end2) as [Hlt2|Hge2]; [eexists; reflexivity|].
      exfalso.
      destruct (dseek_hole_result _ _ _ _ _ Hw E1)
        as (Hb & Hh & Hin & Hr & Hfl & _ & _ & _).
      destruct (dseek_hole_result _ _ _ _ _ Hw' E2)
        as (_ & _ & Hin2 & Hr2 & Hfl2 & _ & _ & _).
      unfold f_len in *. rewrite Hb in *. rewrite Hh in *.
      assert (end_ = start) by lia. subst end_.
      assert (end2 = start) by lia. subst end2.
      specialize (Hfl Hin). specialize (Hfl2 Hin).
      rewrite Hfl in Hfl2. subst w'.
      destruct Hw as [->| ->]; discriminate Hfl2.
Qed.

Lemma next_returns fuel g f :
  exists r, next (S (S fuel)) g f = Some r.
Proof.
  destruct g as [|curr file_len end_ is_data|curr|]; cbn [next].
  - rewrite dpos_curr_end_eq. apply loop_returns. right. reflexivity.
  - apply loop_returns. apply flip_hole_seek.
  - eexists; reflexivity.
  - eexists; reflexivity.
Qed.

Lemma pulls_return fuel : forall n g f,
  exists g' f', pulls (S (S fuel)) n g f = Some (g', f').
Proof.
  induction n as [|n IH]; intros g f; cbn [pulls].
  - eauto.
  - destruct (next_returns fuel g f) as [[[o g1] f1] ->]. apply IH.
Qed.

(** A pull that does not yield leaves the generator finished. *)
Lemma loop_ends fuel : forall curr file_len start w f o g f',
  loop fuel curr file_len start w f = Some (o, g, f') ->
  ends o -> g = Finished.
Proof.
  induction fuel as [|fuel IH]; intros curr file_len start w f o g f' H Ho;
    cbn [loop] in H; [discriminate|].
  assert (Hfin : forall leave f1,
            Some (finally curr leave f1) = Some (o, g, f') -> g = Finished).
  { intros leave f1 Hf. some_inj Hf. apply finally_tied in Hf. apply Hf. }
  assert (Hy : forall (r : range) g1 f1,
            Some (Yield r, g1, f1) = Some (o, g, f') -> g = Finished).
  { intros r g1 f1 Hf. injection Hf as <- _ _.
    destruct Ho as [Ho|[e Ho]]; discriminate Ho. }
  destruct (dseek start w f) as [[e|end_] f1].
  - destruct e as [e| | |]; eauto.
    destruct (errno_eqb e ENXIO); eauto.
    destruct (negb _ && _); eauto.
  - destruct (start <? end_); eauto.
Qed.

Lemma next_ends fuel g f o g' f' :
  next fuel g f = Some (o, g', f') -> ends o -> g' = Finished.
Proof.
  intros H Ho. destruct g as [|curr file_len end_ is_data|curr|];
    cbn [next] in H.
  - rewrite dpos_curr_end_eq in H. eapply loop_ends; eassumption.
  - eapply loop_ends; eassumption.
  - some_inj H. apply finally_tied in H. apply H.
  - injection H as _ <- _. reflexivity.
Qed.

(** C7. The sparse-range enumerator gives the source back at the seek
    position it had when the enumeration started, however it ends.
    After any number [n] of pulls from a generator started on [f]
    (whatever holes [f] has and whichever of its data/hole seeks fail):
    - the pulls return, and if they left the generator finished (by
      exhaustion or by an error) the source is at the start position;
    - a further pull that ends the enumeration, by [StopIteration] or by
      an exception, leaves the source at the start position;
    - abandoning the generator at this point ([close]) leaves the source
      at the start position. *)
Theorem sparsemap_restores_position (f : file) (fuel n : nat) :
  (2 <= fuel)%nat ->
  exists g f',
    pulls fuel n Created f = Some (g, f') /\
    (g = Finished -> f_pos f' = f_pos f) /\
    (exists o g'' f'', next fuel g f' = Some (o, g'', f'') /\
       (ends o -> f_pos f'' = f_pos f)) /\
    f_pos (snd (close g f')) = f_pos f.
Proof.
  intros Hfuel.
  destruct fuel as [|[|fuel]]; try lia.
  destruct (pulls_return fuel n Created f) as (g & f' & Hp).
  exists g, f'. split; [exact Hp|].
  assert (Ht : tied (f_pos f) g f').
  { eapply pulls_tied; [|exact Hp]. reflexivity. }
  split; [|split].
  - intros ->. exact Ht.
  - destruct (next_returns fuel g f') as [[[o g''] f''] Hn].
    exists o, g'', f''. split; [exact Hn|].
    intros Ho. pose proof (next_ends _ _ _ _ _ _ Hn Ho) as ->.
    exact (next_tied _ _ _ _ _ _ _ Ht Hn).
  - apply close_tied. exact Ht.
Qed.

Lemma sparsemap_restores_position_witness :
  let f := mkfile [x01; x02; x00; x00; x00; x03; x04; x00]
                  [false; false; true; true; true; false; false; true]
                  1 [] [None; None; Some EIO] in
  exists g f',
    pulls 2 2 Created f = Some (g, f') /\
    (g = Finished -> f_pos f' = f_pos f) /\
    (exists o g'' f'', next 2 g f' = Some (o, g'', f'') /\
       (ends o -> f_pos f'' = f_pos f)) /\
    f_pos (snd (close g f')) = f_pos f.
Proof.
  apply (sparsemap_restores_position
           (mkfile [x01; x02; x00; x00; x00; x03; x04; x00]
                   [false; false; true; true; true; false; false; true]
                   1 [] [None; None; Some EIO]) 2 2).
  lia.
Defined.

(** *** Seeks that do not fail *)

Lemma same_content_refl f : same_content f f.
Proof. repeat split. Qed.

Lemma same_content_set_pos f p : same_content f (set_pos f p).
Proof. repeat split. Qed.

Lemma same_content_trans f1 f2 f3 :
  same_content f1 f2 -> same_content f2 f3 -> same_content f1 f3.
Proof.
  unfold same_content. intros (?&?&?&?) (?&?&?&?). repeat split; congruence.
Qed.

Lemma same_content_eq f f' :
  same_content f f' -> f' = set_pos f (f_pos f').
Proof.
  destruct f, f'. unfold same_content, set_pos. cbn.
  intros (-> & -> & -> & ->). reflexivity.
Qed.

(** On a file whose seeks do not fail, a data/hole seek either finds
    its target, or fails with [ENXIO] because the offset is at or past
    the end of the file, or ([SEEK_DATA]) because only a hole follows. *)
Lemma dseek_nofault f off w :
  f_faults f = [] -> hole_seek w ->
  (exists o, dseek off w f = (inr o, set_pos f o) /\
     off < f_len f /\ off <= o <= f_len f /\
     (o < f_len f -> nth (N.to_nat o) (f_holes f) false = wanted_flag w) /\
     (forall i, off <= i < o ->
        nth (N.to_nat i) (f_holes f) false = negb (wanted_flag w))) \/
  (dseek off w f = (inl (OSError ENXIO), f) /\
   (f_len f <= off \/
    (w = SEEK_DATA /\ off < f_len f /\
     forall i, off <= i < f_len f ->
       nth (N.to_nat i) (f_holes f) false = true))).
Proof.
  intros Hf Hw.
  assert (Hsame : mkfile (f_bytes f) (f_holes f) (f_pos f) (f_caps f)
                    (tl (f_faults f)) = f)
    by (rewrite Hf; destruct f; cbn in *; subst; reflexivity).
  destruct (dseek off w f) as [[e|o] f'] eqn:E.
  - right. unfold dseek in E.
    destruct (lseek f off w) as [[e0|p] f1] eqn:El; [|discriminate].
    injection E as <- <-.
    unfold lseek in El. rewrite Hsame in El. rewrite Hf in El.
    destruct Hw as [->| ->]; cbn [wanted_flag] in El;
      (destruct (N.leb_spec (f_len f) off) as [Hle|Hlt];
       [injection El as <- <-; split; [reflexivity|left; exact Hle]|]);
      (destruct (scan _ _ _ _) as [o0|] eqn:Es; [discriminate|]);
      [|discriminate].
    injection El as <- <-. split; [reflexivity|]. right.
    split; [reflexivity|]. split; [exact Hlt|].
    intros i Hi. pose proof (scan_none _ _ _ _ Es (N.to_nat i)) as Hn.
    unfold f_len in *. apply Hn. lia.
  - left. exists o.
    destruct (dseek_hole_result _ _ _ _ _ Hw E)
      as (Hb & Hh & Hin & Hr & Hfl & Hbefore & _ & Hp).
    split; [|splits; try assumption; lia].
    unfold dseek in E.
    destruct (lseek f off w) as [[e0|p] f1] eqn:El; [discriminate|].
    injection E as <- <-. f_equal.
    unfold lseek in El. rewrite Hsame in El. rewrite Hf in El.
    destruct Hw as [->| ->]; cbn [wanted_flag] in El;
      (destruct (f_len f <=? off)%N; [discriminate|]);
      (destruct (scan _ _ _ _) as [o0|]; [|try discriminate]);
      injection El as <- <-; reflexivity.
Qed.

(** *** One pull on a file whose seeks do not fail *)

(** A pull that enters the loop at [start] yields the range that
    starts there, or the hole that reaches the end of the file, or ends
    the enumeration because [start] is at or past the end of the file. *)
Lemma loop_step fuel curr start w f :
  f_faults f = [] -> hole_seek w ->
  exists o g f',
    loop (S (S fuel)) curr (f_len f) start w f = Some (o, g, f') /\
    same_content f f' /\
    ((exists e d, o = Yield (start, e - start, d) /\
        g = AtRangeYield curr (f_len f) e d /\ start < e <= f_len f /\
        (d = false -> forall i, start <= i < e ->
           nth (N.to_nat i) (f_holes f) false = true)) \/
     (o = Yield (start, f_len f - start, false) /\ g = AtTailYield curr /\
      start < f_len f /\
      forall i, start <= i < f_len f ->
        nth (N.to_nat i) (f_holes f) false = true) \/
     (o = StopIteration /\ g = Finished /\ f_pos f' = curr /\
      f_len f <= start)).
Proof.
  intros Hf Hw.
  assert (Hflip : forall b : bool,
            wanted_flag (if b then SEEK_DATA else SEEK_HOLE) = negb b)
    by (intros []; reflexivity).
  assert (His : (match w with SEEK_HOLE => true | _ => false end)
                = wanted_flag w) by reflexivity.
  cbn [loop]. rewrite His.
  destruct (dseek_nofault f start w Hf Hw)
    as [(e1 & -> & Hin1 & Hr1 & Hfl1 & Hbef1)|(-> & Hwhy)].
  - destruct (N.ltb_spec start e1) as [Hlt|Hge].
    + (* a range of at least one byte *)
      do 3 eexists. split; [reflexivity|].
      split; [apply same_content_set_pos|].
      left. exists e1, (wanted_flag w). splits; try reflexivity; try lia.
      intros Hd i Hi. rewrite (Hbef1 i Hi), Hd. reflexivity.
    + (* an empty range: seek the other way *)
      assert (e1 = start) by lia. subst e1.
      set (w' := if wanted_flag w then SEEK_DATA else SEEK_HOLE).
      assert (His' : (match w' with SEEK_HOLE => true | _ => false end)
                     = wanted_flag w') by reflexivity.
      rewrite His'.
      destruct (dseek_nofault (set_pos f start) start w' Hf
                  (flip_hole_seek _))
        as [(e2 & -> & Hin2 & Hr2 & Hfl2 & Hbef2)|(-> & Hwhy)].
      * change (f_len (set_pos f start)) with (f_len f) in *.
        change (f_holes (set_pos f start)) with (f_holes f) in *.
        destruct (N.ltb_spec start e2) as [Hlt2|Hge2].
        -- do 3 eexists. split; [reflexivity|].
           split; [apply (same_content_set_pos f e2)|].
           left. exists e2, (wanted_flag w').
           splits; try reflexivity; try lia.
           intros Hd i Hi. rewrite (Hbef2 i Hi), Hd. reflexivity.
        -- exfalso. assert (e2 = start) by lia. subst e2.
           specialize (Hfl1 Hin1). specialize (Hfl2 Hin1).
           subst w'. rewrite Hflip in Hfl2. rewrite Hfl1 in Hfl2.
           destruct (wanted_flag w); discriminate Hfl2.
      * change (f_len (set_pos f start)) with (f_len f) in *.
        change (f_holes (set_pos f start)) with (f_holes f) in *.
        destruct Hwhy as [Hend|(Hw' & _ & Htail)]; [lia|].
        rewrite Hw'. cbn [errno_eqb wanted_flag negb andb].
        destruct (N.ltb_spec start (f_len f)) as [_|]; [|lia].
        do 3 eexists. split; [reflexivity|].
        split; [apply same_content_set_pos|].
        right. left. splits; try reflexivity; assumption.
  - cbn [errno_eqb].
    destruct (negb (wanted_flag w) && (start <? f_len f)%N) eqn:Et.
    + apply andb_true_iff in Et. destruct Et as [Hd Hlt].
      apply N.ltb_lt in Hlt. apply negb_true_iff in Hd.
      destruct Hwhy as [Hend|(Hw' & _ & Htail)]; [lia|].
      do 3 eexists. split; [rewrite Hd; reflexivity|].
      split; [apply same_content_refl|].
      right. left. splits; try reflexivity; assumption.
    + unfold finally. rewrite dseek_set.
      do 3 eexists. split; [reflexivity|].
      split; [apply same_content_set_pos|].
      right. right. splits; try reflexivity.
      apply andb_false_iff in Et. destruct Et as [Hd|Hge].
      * apply negb_false_iff in Hd.
        destruct Hwhy as [Hend|(Hw' & _)]; [exact Hend|].
        rewrite Hw' in Hd. discriminate Hd.
      * apply N.ltb_ge in Hge. exact Hge.
Qed.

End SparsemapFacts.

(** ** The fixed-size chunker *)

Module FixedFacts.
Import ListFacts SourceFacts Source ChunkDef ChunkFacts Sparsemap SparsemapFacts Fixed.
Local Open Scope nat_scope.

Section WithConstants.

Variable zeros : list byte.

(** *** Every emitted chunk holds at least one byte *)

Lemma chunk_range_nonempty : forall fuel c is_data r o f chs st f',
  chunk_range zeros fuel c is_data r o f = Some (chs, st, f') ->
  Forall (fun ch => 0 < size ch) chs.
Proof.
  induction fuel as [|fuel IH]; intros c is_data r o f chs st f' H;
    cbn [chunk_range] in H; [discriminate|].
  destruct (r =? 0)%N; [injection H as <- _ _; constructor|].
  set (wanted := N.min r (block_size c)) in *.
  assert (Hstep : forall block got f1,
    (0 < got)%N -> (0 < size block) ->
    (if (0 <? got)%N
     then if (got <? wanted)%N
          then Some ([block], inr (true, (o + got)%N), f1)
          else match chunk_range zeros fuel c is_data (r - got) (o + got) f1
               with
               | Some (chs, st, f2) => Some (block :: chs, st, f2)
               | None => None
               end
     else if (got <? wanted)%N then Some ([], inr (true, o), f1)
          else chunk_range zeros fuel c is_data r o f1) = Some (chs, st, f') ->
    Forall (fun ch => 0 < size ch) chs).
  { intros block got f1 Hgot Hsize Hr.
    destruct (N.ltb_spec 0 got) as [_|]; [|lia].
    destruct (got <? wanted)%N.
    - injection Hr as <- _ _. constructor; [exact Hsize|constructor].
    - destruct (chunk_range zeros fuel c is_data (r - got) (o + got) f1)
        as [[[chs' st'] f2]|] eqn:E; [|discriminate].
      injection Hr as <- _ _. constructor; [exact Hsize|].
      eapply IH. exact E. }
  assert (Hzero : forall f1,
    (if (0 <? 0)%N
     then None
     else if (0 <? wanted)%N then Some ([], inr (true, o), f1)
          else chunk_range zeros fuel c is_data r o f1) = Some (chs, st, f') ->
    Forall (fun ch => 0 < size ch) chs).
  { intros f1 Hr. cbn [N.ltb N.compare] in Hr.
    destruct (0 <? wanted)%N.
    - injection Hr as <- _ _. constructor.
    - eapply IH. exact Hr. }
  destruct is_data.
  - unfold dread in H.
    destruct (read f wanted) as [block f1] eqn:Er.
    destruct (N.eq_dec (N.of_nat (length block)) 0) as [Hz|Hnz].
    + rewrite Hz in H. destruct (0 <? wanted)%N.
      * injection H as <- _ _. constructor.
      * eapply IH. exact H.
    + eapply (Hstep (classify zeros block)); [| |exact H].
      * lia.
      * rewrite size_classify. lia.
  - destruct (dseek wanted SEEK_CUR f) as [[e|pos] f1].
    + injection H as <- _ _. constructor.
    + destruct (N.eq_dec (pos - o)%N 0) as [Hz|Hnz].
      * rewrite Hz in H. destruct (0 <? wanted)%N.
        -- injection H as <- _ _. constructor.
        -- eapply IH. exact H.
      * eapply (Hstep (mkChunk None (N.to_nat (pos - o)) CH_HOLE));
          [| |exact H].
        -- lia.
        -- cbn [size]. lia.
Qed.

Lemma walk_nonempty fuel c : forall fmap o f chs e f',
  walk zeros fuel c fmap o f = Some (chs, e, f') ->
  Forall (fun ch => 0 < size ch) chs.
Proof.
  induction fmap as [|[[start rsize] is_data] fmap IH];
    intros o f chs e f' H; cbn [walk] in H.
  - injection H as <- _ _. constructor.
  - destruct (if negb (start =? o)%N
              then match dseek start SEEK_SET f with
                   | (inl e0, f1) => (inl e0, f1)
                   | (inr _, f1) => (inr start, f1)
                   end
              else (inr o, f)) as [[e0|o1] f1].
    + injection H as <- _ _. constructor.
    + destruct (chunk_range zeros fuel c is_data rsize o1 f1)
        as [[[chs1 st] f2]|] eqn:Ec; [|discriminate].
      pose proof (chunk_range_nonempty _ _ _ _ _ _ _ _ _ Ec) as H1.
      destruct st as [e1|[[|] o2]].
      * injection H as <- _ _. exact H1.
      * injection H as <- _ _. exact H1.
      * destruct (walk zeros fuel c fmap o2 f2) as [[[chs2 e2] f3]|] eqn:Ew;
          [|discriminate].
        injection H as <- _ _. apply Forall_app. split; [exact H1|].
        eapply IH. exact Ew.
Qed.

(** No chunk of the fixed chunker is empty, whatever the source, the
    file map and the configuration. *)
Lemma chunkify_nonempty fuel c fmap f chs e f' :
  chunkify zeros fuel c fmap f = Some (chs, e, f') ->
  Forall (fun ch => 0 < size ch) chs.
Proof.
  unfold chunkify. intros H.
  destruct (match fmap with
            | Some m => Some (inr (Some m), f)
            | None => if try_sparse c then sparse_fmap c fuel f
                      else Some (inr None, f)
            end) as [[[e0|m] f1]|]; [| |discriminate].
  - injection H as <- _ _. constructor.
  - eapply walk_nonempty. exact H.
Qed.

(** *** Regular files *)

Lemma segment_eq f o n :
  segment f o n =
  firstn (Nat.min (N.to_nat n) (length (f_bytes f) - N.to_nat o))
         (skipn (N.to_nat o) (f_bytes f)).
Proof. unfold segment, f_len. f_equal. lia. Qed.

Lemma length_segment f o n :
  length (segment f o n) =
  Nat.min (N.to_nat n) (length (f_bytes f) - N.to_nat o).
Proof. rewrite segment_eq, length_firstn, length_skipn. lia. Qed.

Lemma firstn_firstn_skipn {A} (l : list A) a b :
  firstn a (firstn b l) = firstn (Nat.min a b) l.
Proof. apply firstn_firstn. Qed.

Lemma skipn_firstn {A} (l : list A) a b :
  skipn a (firstn b l) = firstn (b - a) (skipn a l).
Proof. apply skipn_firstn_comm. Qed.

(** *** A data range *)

(** Over a data range the chunker emits the classified blocks of the
    bytes of the range that the file holds, and returns if the file
    ends inside the range. *)
Lemma data_range : forall fuel c r o f,
  (0 < block_size c)%N -> f_caps f = [] -> f_pos f = o ->
  N.to_nat (N.min r (f_len f - o)) + 2 <= fuel ->
  chunk_range zeros fuel c true r o f =
  Some (List.map (classify zeros)
          (fixed_blocks (N.to_nat (block_size c)) (segment f o r)),
        inr ((f_len f - o <? r)%N, (o + N.min r (f_len f - o))%N),
        set_pos f (o + N.min r (f_len f - o))).
Proof.
  induction fuel as [|fuel IH]; intros c r o f Hbs Hcaps Hpos Hfuel; [lia|].
  cbn [chunk_range].
  destruct (N.eqb_spec r 0) as [->|Hr].
  { rewrite segment_eq. change (N.to_nat 0) with 0.
    cbn [Nat.min firstn]. rewrite fixed_blocks_nil.
    rewrite N.min_0_l, N.add_0_r. rewrite <- Hpos, set_pos_same.
    destruct (N.ltb_spec (f_len f - f_pos f) 0); [lia|]. reflexivity. }
  unfold dread. rewrite read_full by exact Hcaps. rewrite Hpos.
  set (bs := N.to_nat (block_size c)).
  set (wanted := N.min r (block_size c)).
  set (X := skipn (N.to_nat o) (f_bytes f)).
  assert (HX : length X = length (f_bytes f) - N.to_nat o)
    by (subst X; apply length_skipn).
  assert (Hseg : segment f o r = firstn (Nat.min (N.to_nat r) (length X)) X).
  { rewrite segment_eq, HX. reflexivity. }
  rewrite Hseg.
  set (block := firstn (N.to_nat wanted) X).
  assert (Hblen : length block = Nat.min (N.to_nat wanted) (length X)).
  { subst block. apply length_firstn. }
  assert (Ha : N.to_nat (f_len f - o) = length X).
  { unfold f_len. lia. }
  destruct (Nat.eq_dec (length X) 0) as [Hz|Hnz].
  - (* the file has ended *)
    rewrite Hz in *. rewrite Nat.min_0_r in *. cbn [firstn].
    rewrite fixed_blocks_nil. rewrite Hblen.
    change (N.of_nat 0) with 0%N. cbn [N.ltb N.compare].
    destruct (N.ltb_spec 0 wanted) as [_|]; [|lia].
    destruct (N.ltb_spec (f_len f - o) r) as [_|]; [|lia].
    replace (N.min r (f_len f - o)) with 0%N by lia.
    replace (o + 0)%N with o by lia. reflexivity.
  - destruct (N.ltb_spec 0 (N.of_nat (length block))) as [_|]; [|lia].
    assert (Hne : firstn (Nat.min (N.to_nat r) (length X)) X <> []).
    { intros E. apply (f_equal (@length byte)) in E.
      rewrite length_firstn in E. cbn [length] in E. lia. }
    rewrite fixed_blocks_cons by (assumption || lia).
    rewrite firstn_firstn.
    replace (Nat.min bs (Nat.min (N.to_nat r) (length X)))
      with (Nat.min (N.to_nat wanted) (length X)) by lia.
    assert (Hb : firstn (Nat.min (N.to_nat wanted) (length X)) X = block).
    { subst block. rewrite <- Hblen. apply firstn_length_firstn. }
    rewrite Hb. cbn [List.map].
    destruct (N.ltb_spec (N.of_nat (length block)) wanted) as [Hshort|Hfull].
    + (* a short read: the file ends inside the block *)
      rewrite skipn_firstn_comm.
      replace (Nat.min (N.to_nat r) (length X) - bs) with 0 by lia.
      cbn [firstn]. rewrite fixed_blocks_nil. cbn [List.map].
      destruct (N.ltb_spec (f_len f - o) r) as [_|]; [|lia].
      replace (N.min r (f_len f - o)) with (N.of_nat (length block)) by lia.
      reflexivity.
    + (* a full block *)
      set (f1 := set_pos f (o + N.of_nat (length block))).
      rewrite (IH c (r - N.of_nat (length block))%N
                 (o + N.of_nat (length block))%N f1 Hbs Hcaps eq_refl).
      2:{ subst f1. unfold f_len. cbn [set_pos f_bytes]. lia. }
      assert (Hlen1 : f_len f1 = f_len f) by reflexivity.
      rewrite Hlen1.
      assert (Hb' : N.of_nat (length block) = wanted) by lia.
      rewrite Hb'.
      f_equal. f_equal; [f_equal|].
      * (* the blocks that follow *)
        f_equal. f_equal. rewrite segment_eq.
        subst f1. cbn [set_pos f_bytes].
        rewrite skipn_firstn_comm. fold bs.
        destruct (N.lt_ge_cases r (block_size c)) as [Hlt|Hge].
        -- replace (Nat.min (N.to_nat (r - wanted))
                      (length (f_bytes f) - N.to_nat (o + wanted)))
             with 0 by lia.
           replace (Nat.min (N.to_nat r) (length X) - bs) with 0 by lia.
           reflexivity.
        -- subst X. rewrite skipn_skipn.
           replace (N.to_nat (o + wanted)) with (bs + N.to_nat o)
             by (subst wanted bs; lia).
           rewrite length_skipn. subst wanted bs.
           match goal with
           | |- context [firstn ?a _ = firstn ?b _] => idtac
           | |- fixed_blocks _ (firstn ?a _) = fixed_blocks _ (firstn ?b _) =>
               replace a with b by lia
           end.
           reflexivity.
      * f_equal. f_equal; [|lia].
        destruct (N.ltb_spec (f_len f - (o + wanted)) (r - wanted));
          destruct (N.ltb_spec (f_len f - o) r); try reflexivity; lia.
      * subst f1. unfold set_pos. cbn [f_bytes f_holes f_caps f_faults].
        f_equal. lia.
Qed.

(** *** A hole range *)

Lemma skipn_repeat {A} (x : A) : forall n k,
  skipn k (repeat x n) = repeat x (n - k).
Proof.
  induction n as [|n IH]; intros k.
  - rewrite skipn_nil. reflexivity.
  - destruct k as [|k]; [reflexivity|]. cbn [repeat skipn Nat.sub].
    apply IH.
Qed.

Lemma hole_chunks_0 bs : hole_chunks bs 0 = [].
Proof. reflexivity. Qed.

Lemma hole_chunks_cons bs n :
  0 < bs -> 0 < n ->
  hole_chunks bs n =
  mkChunk None (Nat.min bs n) CH_HOLE :: hole_chunks bs (n - bs).
Proof.
  intros Hbs Hn. unfold hole_chunks.
  rewrite fixed_blocks_cons by (assumption || (destruct n; [lia|discriminate])).
  cbn [List.map]. rewrite length_firstn, repeat_length, skipn_repeat.
  reflexivity.
Qed.

Lemma rebuild_hole_chunks bs : 0 < bs -> forall n,
  rebuild_all (hole_chunks bs n) = repeat x00 n /\
  total_size (hole_chunks bs n) = n.
Proof.
  intros Hbs n. induction n as [n IH] using lt_wf_ind.
  destruct (Nat.eq_dec n 0) as [->|Hn]; [split; reflexivity|].
  rewrite hole_chunks_cons by lia.
  destruct (IH (n - bs) ltac:(lia)) as [IH1 IH2].
  unfold rebuild_all, total_size in *. cbn [List.map concat fold_right].
  rewrite IH1, IH2. unfold rebuild. cbn [data size]. split; [|lia].
  rewrite <- repeat_app. f_equal. lia.
Qed.

Lemma dseek_cur f n :
  dseek n SEEK_CUR f = (inr (f_pos f + n)%N, set_pos f (f_pos f + n)).
Proof. reflexivity. Qed.

(** Over a hole range the chunker seeks block by block and emits one
    [HOLE] chunk per block. *)
Lemma hole_range : forall fuel c r o f,
  (0 < block_size c)%N -> f_pos f = o -> N.to_nat r + 1 <= fuel ->
  chunk_range zeros fuel c false r o f =
  Some (hole_chunks (N.to_nat (block_size c)) (N.to_nat r),
        inr (false, (o + r)%N), set_pos f (o + r)).
Proof.
  induction fuel as [|fuel IH]; intros c r o f Hbs Hpos Hfuel; [lia|].
  cbn [chunk_range].
  destruct (N.eqb_spec r 0) as [->|Hr].
  { rewrite N.add_0_r, <- Hpos, set_pos_same. reflexivity. }
  rewrite dseek_cur, Hpos.
  set (wanted := N.min r (block_size c)).
  replace (o + wanted - o)%N with wanted by lia.
  destruct (N.ltb_spec 0 wanted) as [_|]; [|subst wanted; lia].
  destruct (N.ltb_spec wanted wanted) as [|_]; [lia|].
  rewrite (IH c (r - wanted)%N (o + wanted)%N (set_pos f (o + wanted)) Hbs
              eq_refl) by (subst wanted; lia).
  rewrite (hole_chunks_cons (N.to_nat (block_size c)) (N.to_nat r)) by lia.
  f_equal. f_equal; [f_equal|].
  - f_equal; [f_equal; subst wanted; lia|].
    f_equal. subst wanted. lia.
  - f_equal. f_equal. subst wanted. lia.
  - unfold set_pos. cbn [f_bytes f_holes f_caps f_faults]. f_equal.
    subst wanted. lia.
Qed.

(** *** A file map without gaps *)

Lemma segment_past f o n m :
  (f_len f - o <= n)%N -> (f_len f - o <= m)%N ->
  segment f o n = segment f o m.
Proof.
  intros Hn Hm. unfold segment. f_equal. lia.
Qed.

Lemma segment_add f o r n :
  (r <= f_len f - o)%N ->
  segment f o (r + n) = segment f o r ++ segment f (o + r) n.
Proof.
  intros Hr. rewrite !segment_eq.
  unfold f_len in Hr.
  replace (Nat.min (N.to_nat (r + n)) (length (f_bytes f) - N.to_nat o))
    with (N.to_nat r +
          Nat.min (N.to_nat n) (length (f_bytes f) - N.to_nat (o + r)))
    by lia.
  rewrite firstn_skipn_add.
  replace (Nat.min (N.to_nat r) (length (f_bytes f) - N.to_nat o))
    with (N.to_nat r) by lia.
  replace (N.to_nat o + N.to_nat r) with (N.to_nat (o + r)) by lia.
  reflexivity.
Qed.

Lemma rebuild_fixed_blocks bs seg :
  all_zero zeros = true -> 0 < bs ->
  rebuild_all (List.map (classify zeros) (fixed_blocks bs seg)) = seg /\
  total_size (List.map (classify zeros) (fixed_blocks bs seg)) = length seg.
Proof.
  intros Hz Hbs.
  rewrite rebuild_all_classify by exact Hz.
  rewrite total_size_classify.
  rewrite fixed_blocks_concat by exact Hbs. split; reflexivity.
Qed.

(** The chunks of a walk over a file map without gaps rebuild the bytes
    the map spans. *)
Lemma walk_contiguous : all_zero zeros = true -> forall fmap fuel c o f,
  (0 < block_size c)%N -> f_caps f = [] -> f_pos f = o ->
  contiguous o fmap -> Forall (range_sound f) fmap ->
  length (f_bytes f) + 2 <= fuel ->
  exists chs f',
    walk zeros fuel c fmap o f = Some (chs, Exhausted, f') /\
    rebuild_all chs = segment f o (span fmap) /\
    total_size chs = length (segment f o (span fmap)).
Proof.
  intros Hz. induction fmap as [|[[start r] d] fmap IH];
    intros fuel c o f Hbs Hcaps Hpos Hcont Hsound Hfuel.
  - exists [], f. splits; try reflexivity.
    + unfold span; cbn [fold_right]. rewrite segment_eq.
      change (N.to_nat 0) with 0. reflexivity.
    + unfold span; cbn [fold_right]. rewrite length_segment.
      change (N.to_nat 0) with 0. reflexivity.
  - cbn [contiguous] in Hcont. destruct Hcont as [Hst Hcont]. subst start.
    apply Forall_cons_iff in Hsound. destruct Hsound as [Hs1 Hs2].
    cbn [walk]. rewrite N.eqb_refl. cbn [negb].
    assert (Hbs' : 0 < N.to_nat (block_size c)) by lia.
    change (span ((o, r, d) :: fmap)) with (r + span fmap)%N.
    assert (Hcont' : forall f1 chs1,
      f1 = set_pos f (o + r) -> (r <= f_len f - o)%N ->
      rebuild_all chs1 = segment f o r ->
      total_size chs1 = length (segment f o r) ->
      exists chs f',
        match walk zeros fuel c fmap (o + r) f1 with
        | Some (chs', e, f3) => Some (chs1 ++ chs', e, f3)
        | None => None
        end = Some (chs, Exhausted, f') /\
        rebuild_all chs = segment f o (r + span fmap) /\
        total_size chs = length (segment f o (r + span fmap))).
    { intros f1 chs1 -> Hr Hreb Htot.
      destruct (IH fuel c (o + r)%N (set_pos f (o + r)) Hbs Hcaps eq_refl
                  Hcont Hs2 Hfuel) as (chs2 & f2 & -> & Hreb2 & Htot2).
      exists (chs1 ++ chs2), f2. split; [reflexivity|].
      rewrite rebuild_all_app, total_size_app, segment_add by exact Hr.
      rewrite length_app, Hreb, Htot, Hreb2, Htot2. split; reflexivity. }
    destruct d.
    + (* a data range *)
      rewrite data_range by (assumption || (unfold f_len; lia)).
      destruct (rebuild_fixed_blocks (N.to_nat (block_size c))
                  (segment f o r) Hz Hbs') as [Hreb Htot].
      destruct (N.ltb_spec (f_len f - o) r) as [Hshort|Hfull].
      * (* the file ends inside the range *)
        eexists. eexists. split; [reflexivity|].
        rewrite Hreb, Htot.
        rewrite (segment_past f o (r + span fmap) r) by lia.
        split; reflexivity.
      * replace (N.min r (f_len f - o)) with r by lia.
        apply Hcont'; [reflexivity|lia|exact Hreb|exact Htot].
    + (* a hole range *)
      destruct Hs1 as [Hd|[Hin Hzero]]; [discriminate|].
      rewrite hole_range by (assumption || (unfold f_len in Hin; lia)).
      destruct (rebuild_hole_chunks (N.to_nat (block_size c)) Hbs'
                  (N.to_nat r)) as [Hreb Htot].
      apply Hcont'; [reflexivity|lia| |].
      * rewrite Hreb, Hzero. reflexivity.
      * rewrite Htot, Hzero, repeat_length. reflexivity.
Qed.

(** *** The sparse map of a file *)

Lemma all_x00 (l : list byte) :
  (forall i, i < length l -> nth i l x00 = x00) -> l = repeat x00 (length l).
Proof.
  induction l as [|b l IH]; intros H; [reflexivity|].
  cbn [length repeat]. f_equal.
  - apply (H 0). cbn. lia.
  - apply IH. intros i Hi. apply (H (S i)). cbn. lia.
Qed.

(** A run of offsets flagged as holes is a sound hole range. *)
Lemma hole_range_sound f start e :
  holes_read_zero f -> (start <= e <= f_len f)%N ->
  (forall i, (start <= i < e)%N ->
     nth (N.to_nat i) (f_holes f) false = true) ->
  range_sound f (start, (e - start)%N, false).
Proof.
  intros Hwf Hr Hfl. cbn [range_sound]. right. split; [lia|].
  assert (Hlen : length (segment f start (e - start))
                 = N.to_nat (e - start)).
  { rewrite length_segment. unfold f_len in Hr. lia. }
  rewrite <- Hlen. apply all_x00. intros i Hi. rewrite Hlen in Hi.
  rewrite segment_eq, nth_firstn.
  destruct (Nat.ltb_spec i
              (Nat.min (N.to_nat (e - start))
                       (length (f_bytes f) - N.to_nat start)))
    as [_|Hge]; [|unfold f_len in Hr; lia].
  rewrite nth_skipn.
  replace (N.to_nat start + i) with (N.to_nat (start + N.of_nat i)) by lia.
  apply Hwf. apply Hfl. lia.
Qed.

Lemma range_sound_content f f' r :
  same_content f f' -> range_sound f r -> range_sound f' r.
Proof.
  intros (Hb & _) H. destruct r as [[start size] d].
  cbn [range_sound] in *. unfold segment, f_len in *. rewrite Hb. exact H.
Qed.

Lemma drain_unfold fuel g f :
  Sparsemap.drain (S fuel) g f =
  match next (S fuel) g f with
  | None => None
  | Some (Yield r, g', f') =>
      match Sparsemap.drain fuel g' f' with
      | Some (inr rs, f'') => Some (inr (r :: rs), f'')
      | other => other
      end
  | Some (StopIteration, _, f') => Some (inr [], f')
  | Some (Raise e, _, f') => Some (inl e, f')
  end.
Proof. reflexivity. Qed.

(** The enumeration, resumed at offset [start], lists the ranges from
    [start] to the end of the file, one after the other, and leaves the
    source where the enumeration started. *)
Lemma drain_from : forall n fuel curr start d f,
  f_faults f = [] -> holes_read_zero f ->
  N.to_nat (f_len f - start) <= n -> n + 3 <= fuel ->
  exists ranges f',
    Sparsemap.drain fuel (AtRangeYield curr (f_len f) start d) f
      = Some (inr ranges, f') /\
    same_content f f' /\ f_pos f' = curr /\
    contiguous start ranges /\ Forall (range_sound f) ranges /\
    span ranges = (f_len f - start)%N.
Proof.
  induction n as [|n IH]; intros fuel curr start d f Hf Hwf Hn Hfuel;
    (destruct fuel as [|[|fuel]]; [lia|lia|]);
    rewrite drain_unfold; cbn [next];
    destruct (loop_step fuel curr start (if d then SEEK_DATA else SEEK_HOLE)
                f Hf (flip_hole_seek d))
      as (o & g & f1 & -> & Hsc & Hcase);
    (destruct Hcase as [(e & d' & -> & -> & Hr & Hfl)
                       |[(-> & -> & Hlt & Hfl)|(-> & -> & Hp & Hend)]];
     [| |exists [], f1; splits;
         [reflexivity|assumption|assumption|exact I|constructor|
          unfold span; cbn [fold_right]; lia]]);
    try (exfalso; unfold f_len in *; lia).
  - (* a range, then the rest *)
    pose proof Hsc as (Hb1 & Hh1 & Hc1 & Hf1).
    assert (Hlen1 : f_len f1 = f_len f)
      by (unfold f_len; rewrite Hb1; reflexivity).
    assert (Hwf1 : holes_read_zero f1).
    { unfold holes_read_zero. rewrite Hb1, Hh1. exact Hwf. }
    destruct (IH (S fuel) curr e d' f1) as
      (rs & f2 & Hd & Hsc2 & Hp2 & Hcont & Hsound & Hspan);
      [congruence|exact Hwf1|rewrite Hlen1; lia|lia|].
    rewrite Hlen1 in Hd, Hspan. rewrite Hd.
    exists ((start, (e - start)%N, d') :: rs), f2.
    splits; try reflexivity.
    + eapply same_content_trans; eassumption.
    + exact Hp2.
    + cbn [contiguous]. split; [reflexivity|].
      replace (start + (e - start))%N with e by lia. exact Hcont.
    + constructor.
      * destruct d'; [left; reflexivity|].
        apply hole_range_sound; [exact Hwf|lia|]. apply Hfl. reflexivity.
      * eapply Forall_impl; [|exact Hsound]. intros r.
        apply range_sound_content.
        destruct Hsc as (?&?&?&?). repeat split; congruence.
    + change (span ((start, (e - start)%N, d') :: rs))
        with ((e - start) + span rs)%N.
      rewrite Hspan. lia.
  - (* a hole up to the end of the file, then the end *)
    rewrite drain_unfold. cbn [next]. unfold finally. rewrite dseek_set.
    exists [(start, (f_len f - start)%N, false)], (set_pos f1 curr).
    splits; try reflexivity.
    + eapply same_content_trans; [exact Hsc|apply same_content_set_pos].
    + cbn [contiguous]. split; [reflexivity|exact I].
    + constructor; [|constructor].
      apply hole_range_sound; [exact Hwf|lia|exact Hfl].
    + unfold span. cbn [fold_right fst snd]. lia.
Qed.

Lemma drain_created fuel f :
  Sparsemap.drain fuel Created f =
  Sparsemap.drain fuel (AtRangeYield (f_pos f) (f_len f) (f_pos f) false) f.
Proof.
  destruct fuel as [|fuel]; [reflexivity|].
  rewrite !drain_unfold. cbn [next]. rewrite dpos_curr_end_eq. reflexivity.
Qed.

(** [list(sparsemap(fd, fh))] on a well-formed sparse file. *)
Lemma sparsemap_ranges f fuel :
  f_faults f = [] -> holes_read_zero f ->
  length (f_bytes f) + 3 <= fuel ->
  exists ranges f',
    Sparsemap.drain fuel Created f = Some (inr ranges, f') /\
    same_content f f' /\ f_pos f' = f_pos f /\
    contiguous (f_pos f) ranges /\ Forall (range_sound f) ranges /\
    span ranges = (f_len f - f_pos f)%N.
Proof.
  intros Hf Hwf Hfuel. rewrite drain_created.
  apply (drain_from (length (f_bytes f))); try assumption.
  unfold f_len. lia.
Qed.

(** *** The whole file *)

Lemma segment_all f n : (f_len f <= n)%N -> segment f 0 n = f_bytes f.
Proof.
  intros Hn. rewrite segment_eq. change (N.to_nat 0) with 0.
  cbn [skipn]. unfold f_len in Hn. apply firstn_all2. lia.
Qed.

(** Without an external file map, on a regular file read from its
    start, the chunks of the fixed chunker rebuild the file, holes
    included. *)
Lemma chunkify_rebuilds c f fuel :
  all_zero zeros = true -> (0 < block_size c)%N ->
  f_pos f = 0%N -> f_caps f = [] -> f_faults f = [] ->
  holes_read_zero f -> (f_len f <= 2 ^ 62)%N ->
  length (f_bytes f) + 4 <= fuel ->
  exists chs f',
    chunkify zeros fuel c None f = Some (chs, Exhausted, f') /\
    rebuild_all chs = f_bytes f /\
    total_size chs = length (f_bytes f).
Proof.
  intros Hz Hbs Hpos Hcaps Hf Hwf Hlen Hfuel.
  assert (Hwalk : forall fmap f1,
    same_content f f1 -> f_pos f1 = 0%N ->
    contiguous 0 fmap -> Forall (range_sound f) fmap ->
    (f_len f <= span fmap)%N ->
    exists chs f',
      walk zeros fuel c fmap 0 f1 = Some (chs, Exhausted, f') /\
      rebuild_all chs = f_bytes f /\ total_size chs = length (f_bytes f)).
  { intros fmap f1 Hsc Hp1 Hcont Hsound Hspan.
    pose proof Hsc as (Hb1 & _ & Hc1 & _).
    destruct (walk_contiguous Hz fmap fuel c 0%N f1 Hbs) as
      (chs & f' & Hw & Hreb & Htot); try assumption.
    - congruence.
    - eapply Forall_impl; [|exact Hsound]. intros r.
      apply range_sound_content. exact Hsc.
    - rewrite Hb1. lia.
    - exists chs, f'. split; [exact Hw|].
      rewrite segment_all in Hreb, Htot
        by (unfold f_len in *; rewrite Hb1; exact Hspan).
      rewrite Hb1 in Hreb, Htot. split; assumption. }
  assert (Hfake : exists chs f',
    walk zeros fuel c (fake_fmap c) 0 f = Some (chs, Exhausted, f') /\
    rebuild_all chs = f_bytes f /\ total_size chs = length (f_bytes f)).
  { apply Hwalk; [apply same_content_refl|exact Hpos| | |].
    - unfold fake_fmap. destruct (0 <? header_size c)%N; cbn; auto.
    - unfold fake_fmap. destruct (0 <? header_size c)%N;
        repeat constructor.
    - unfold fake_fmap, span.
      destruct (0 <? header_size c)%N; cbn [app fold_right fst snd]; lia. }
  unfold chunkify.
  destruct (try_sparse c); [|exact Hfake].
  unfold sparse_fmap.
  destruct (N.ltb_spec 0 (header_size c)) as [Hh|Hh].
  - (* a header block, then the sparse map of the body *)
    rewrite dseek_set.
    destruct (sparsemap_ranges (set_pos f (header_size c)) fuel Hf Hwf)
      as (ranges & f2 & -> & Hsc2 & Hp2 & Hcont & Hsound & Hspan);
      [cbn [set_pos f_bytes]; lia|].
    rewrite dseek_set.
    cbn [set_pos f_pos] in Hp2, Hcont, Hspan.
    change (f_len (set_pos f (header_size c))) with (f_len f) in Hspan.
    apply Hwalk.
    + eapply same_content_trans; [|apply same_content_set_pos].
      eapply same_content_trans; [apply same_content_set_pos|exact Hsc2].
    + reflexivity.
    + cbn [app contiguous]. split; [reflexivity|exact Hcont].
    + cbn [app]. constructor; [left; reflexivity|exact Hsound].
    + cbn [app]. change (span ((0%N, header_size c, true) :: ranges))
        with (header_size c + span ranges)%N.
      rewrite Hspan. lia.
  - (* the sparse map of the whole file *)
    destruct (sparsemap_ranges f fuel Hf Hwf)
      as (ranges & f2 & -> & Hsc2 & Hp2 & Hcont & Hsound & Hspan); [lia|].
    rewrite Hpos in Hp2, Hcont, Hspan.
    apply Hwalk; try assumption.
    cbn [app]. rewrite Hspan. lia.
Qed.

End WithConstants.

End FixedFacts.

(** ** The content-defined chunker *)

Module CdcFacts.
Import Buzhash BuzhashFacts ListFacts Source ChunkDef ChunkFacts Cdc CdcSpec.
Local Open Scope nat_scope.

(** *** Buffers as lists *)

Lemma memmove_front (buf : list byte) src n :
  src + n <= length buf ->
  memmove buf 0 src n = firstn n (skipn src buf) ++ skipn n buf.
Proof. intros _. reflexivity. Qed.

Lemma length_memmove_front (buf : list byte) src n :
  src + n <= length buf -> length (memmove buf 0 src n) = length buf.
Proof.
  intros H. unfold memmove. cbn [firstn app Nat.add].
  rewrite length_app, length_firstn, !length_skipn. lia.
Qed.

Lemma length_memcpy (buf bytes : list byte) dst :
  dst + length bytes <= length buf ->
  length (memcpy buf dst bytes) = length buf.
Proof.
  intros H. unfold memcpy.
  rewrite !length_app, length_firstn, length_skipn. lia.
Qed.

(** *** Reads *)

Lemma read_spec f n r :
  f_pos f = N.of_nat r -> Forall (fun k => 0 < k) (f_caps f) -> 0 < n ->
  exists k, 1 <= k <= n /\
    read f (N.of_nat n) =
    (firstn k (skipn r (f_bytes f)),
     mkfile (f_bytes f) (f_holes f)
            (N.of_nat (r + length (firstn k (skipn r (f_bytes f)))))
            (tl (f_caps f)) (f_faults f)).
Proof.
  intros Hpos Hcaps Hn. unfold read. rewrite Hpos, Nat2N.id.
  set (cap := match f_caps f with
              | [] => N.of_nat n
              | c :: _ => N.min (N.of_nat n) (N.of_nat c)
              end).
  exists (N.to_nat cap). split.
  - subst cap. destruct (f_caps f) as [|c caps]; [lia|].
    inversion Hcaps; subst. lia.
  - f_equal. f_equal. lia.
Qed.

(** *** [fill] *)

Ltac fields :=
  unfold advance, emit, set_done in *;
  cbn [last position remaining eof done chunk_mask table min_size buf_size
       window_size data _fd bytes_read bytes_yielded f_bytes f_pos f_caps]
    in *;
  unfold held in *;
  cbn [last position remaining eof done chunk_mask table min_size buf_size
       window_size data _fd bytes_read bytes_yielded f_bytes f_pos f_caps]
    in *.


(** What [fill] leaves of the buffered bytes: they move to the front of
    the buffer, and the bytes of one read follow them. *)
Lemma fill_spec S e c :
  chunker_inv S e c ->
  chunker_inv S e (fill c) /\ same_config c (fill c) /\
  last (fill c) = 0 /\ position (fill c) = position c - last c /\
  done (fill c) = done c /\ remaining c <= remaining (fill c) /\
  (eof (fill c) = true -> remaining (fill c) = remaining c) /\
  (eof (fill c) = false -> remaining (fill c) = remaining c ->
   eof c = false /\ held c = buf_size c).
Proof.
  intros [Hlast Hfit Hlen Hheld Hbound Hread Hyld Hbytes Hpos Heof Hcaps].
  unfold held in *.
  set (B := position c + remaining c - last c) in *.
  assert (HB : position c - last c + remaining c = B) by (subst B; lia).
  assert (Hmoved : firstn B (memmove (data c) 0 (last c) B)
                   = firstn B (skipn e S)).
  { unfold memmove. cbn [firstn app Nat.add].
    rewrite firstn_app_exact; [exact Hheld|].
    rewrite length_firstn, length_skipn. lia. }
  assert (Hmlen : length (memmove (data c) 0 (last c) B) = buf_size c).
  { rewrite length_memmove_front by lia. exact Hlen. }
  unfold fill. fold B.
  destruct (eof c) eqn:Eeof; cbn [orb].
  { (* already at the end of the source *)
    repeat split; fields; try lia; try assumption; try reflexivity;
      try discriminate.
    rewrite Nat.sub_0_r, HB. exact Hmoved. }
  destruct (Nat.eqb_spec (buf_size c - (position c - last c) - remaining c) 0)
    as [En|En].
  { (* the buffer is full *)
    repeat split; fields; try lia; try assumption; try reflexivity;
      try discriminate.
    rewrite Nat.sub_0_r, HB. exact Hmoved. }
  (* one read *)
  set (n := buf_size c - (position c - last c) - remaining c) in *.
  destruct (read_spec (_fd c) n (e + B) Hpos Hcaps ltac:(lia))
    as (k & Hk & ->).
  rewrite Hbytes.
  set (got := firstn k (skipn (e + B) S)).
  assert (Hgot : length got <= n).
  { subst got. rewrite length_firstn. lia. }
  assert (Hgot' : e + B + length got <= length S).
  { subst got. rewrite length_firstn, length_skipn. lia. }
  assert (Hcaps' : Forall (fun k => 0 < k) (tl (f_caps (_fd c)))).
  { destruct (f_caps (_fd c)); [constructor|]. inversion Hcaps; assumption. }
  destruct (Nat.eqb_spec (length got) 0) as [Eg|Eg]; cbn [negb].
  - (* nothing came: end of the source *)
    assert (Hend : e + B = length S).
    { subst got. rewrite length_firstn, length_skipn in Eg. lia. }
    repeat split; fields; try lia; try assumption; try reflexivity;
      try discriminate.
    rewrite Nat.sub_0_r, HB. exact Hmoved.
  - (* some bytes came *)
    repeat split; fields; try lia; try assumption; try reflexivity;
      try discriminate.
    + rewrite length_memcpy; [exact Hmlen|]. rewrite Hmlen. lia.
    + rewrite Nat.sub_0_r.
      replace (position c - last c + (remaining c + length got))
        with (B + length got) by lia.
      rewrite HB. unfold memcpy. cbn [skipn].
      rewrite Hmoved.
      rewrite app_assoc, firstn_app_exact.
      * rewrite firstn_add, skipn_skipn. f_equal.
        rewrite (Nat.add_comm B e).
        subst got. rewrite firstn_length_firstn. reflexivity.
      * rewrite length_app, length_firstn, length_skipn. lia.
Qed.

Lemma same_config_refl c : same_config c c.
Proof. repeat split. Qed.

Lemma same_config_trans c0 c1 c2 :
  same_config c0 c1 -> same_config c1 c2 -> same_config c0 c2.
Proof.
  unfold same_config. intros (?&?&?&?&?) (?&?&?&?&?).
  repeat split; congruence.
Qed.

Lemma valid_same_config c0 c : valid c0 -> same_config c0 c -> valid c.
Proof.
  intros [] (Hm & Ht & Hmin & Hb & Hw).
  constructor; rewrite ?Hm, ?Ht, ?Hmin, ?Hb, ?Hw; assumption.
Qed.

(** *** The refill loop *)

(** The loop ends as soon as the source has been read to its end, and
    otherwise every turn reads at least one byte. *)
Lemma refill_spec S e : forall fuel c,
  valid c -> chunker_inv S e c -> position c = last c ->
  (eof c = true -> remaining c < min_size c + window_size c + 1) ->
  length S - (e + held c) + (if eof c then 0 else 1) + 1 <= fuel ->
  exists c', refill fuel c = Some c' /\
    chunker_inv S e c' /\ same_config c c' /\
    position c' = last c' /\ done c' = done c /\
    (if eof c' then remaining c' < min_size c + window_size c + 1
     else min_size c + window_size c + 1 <= remaining c').
Proof.
  induction fuel as [|fuel IH]; intros c Hv Hinv Hpl Heof Hfuel; [lia|].
  cbn [refill].
  destruct (Nat.ltb_spec (remaining c) (min_size c + window_size c + 1))
    as [Hsmall|Hbig]; cbn [andb].
  2: { exists c. splits; try assumption; try reflexivity.
       - apply same_config_refl.
       - destruct (eof c); [apply Heof; reflexivity|exact Hbig]. }
  destruct (eof c) eqn:Eeof; cbn [negb].
  { exists c. splits; try assumption; try reflexivity.
    - apply same_config_refl.
    - rewrite Eeof. exact Hsmall. }
  destruct (fill_spec S e c Hinv)
    as (Hinv1 & Hcfg1 & Hl1 & Hp1 & Hd1 & Hr1 & He1 & Hfull).
  pose proof Hcfg1 as (_ & _ & Hmin1 & Hbuf1 & Hwin1).
  destruct (IH (fill c)) as (c' & Hre & Hinv' & Hcfg' & Hpl' & Hd' & Hres).
  - eapply valid_same_config; eassumption.
  - exact Hinv1.
  - lia.
  - intros H. rewrite (He1 H), Hmin1, Hwin1. exact Hsmall.
  - pose proof (ci_bound _ _ _ Hinv1) as Hb1.
    unfold held in *. rewrite Hl1, Hp1 in *.
    destruct (eof (fill c)) eqn:Eeof1.
    + lia.
    + destruct (Nat.eq_dec (remaining (fill c)) (remaining c)) as [Heq|Hne].
      * destruct (Hfull eq_refl Heq) as [_ Hf].
        pose proof (v_room _ Hv). lia.
      * lia.
  - exists c'. rewrite Hre. split; [reflexivity|].
    split; [exact Hinv'|]. split; [eapply same_config_trans; eassumption|].
    split; [exact Hpl'|]. split; [congruence|].
    rewrite Hmin1, Hwin1 in Hres. exact Hres.
Qed.

(** *** The sliding window *)

Lemma deref_skipn (l : list byte) p : deref (skipn p l) = nth p l x00.
Proof.
  unfold deref. rewrite <- (Nat.add_0_r p) at 2. rewrite <- nth_skipn.
  destruct (skipn p l); reflexivity.
Qed.

Lemma roll_buf c p :
  valid c ->
  _buzhash_update (hash_buf c p) (nth p (data c) x00)
    (nth (p + window_size c) (data c) x00) (window_size c) (table c)
  = hash_buf c (p + 1).
Proof.
  intros Hv. destruct Hv as [_ Hw Hc _ Ht]. unfold hash_buf.
  destruct (window_size c) as [|n] eqn:EW; [lia|].
  rewrite <- deref_skipn, <- nth_skipn, Nat.add_1_r, <- tl_skipn.
  apply _buzhash_roll; assumption.
Qed.

(** The inner loop stops at the first window whose hash has its masked
    bits zero, or after [k] steps. *)
Lemma slide_spec c : valid c -> forall k p sum,
  sum = hash_buf c p ->
  exists p', slide k c p sum = (p', hash_buf c p') /\
    p <= p' <= p + k /\
    (forall j, p <= j < p' -> masked c (hash_buf c j) = true) /\
    (p' < p + k -> masked c (hash_buf c p') = false).
Proof.
  intros Hv. induction k as [|k IH]; intros p sum ->; cbn [slide].
  - exists p. splits; try reflexivity; lia.
  - destruct (masked c (hash_buf c p)) eqn:Em.
    + rewrite roll_buf by exact Hv.
      destruct (IH (p + 1) _ eq_refl) as (p' & Hs & Hr & Hall & Hstop).
      exists p'. splits; try lia.
      * exact Hs.
      * intros j Hj. destruct (Nat.eq_dec j p) as [->|Hne]; [exact Em|].
        apply Hall. lia.
      * intros H. apply Hstop. lia.
    + exists p. splits; try reflexivity; try lia.
      intros _. exact Em.
Qed.

(** *** Buffer and stream *)

Lemma hash_at_config c0 c s k :
  same_config c0 c -> hash_at c s k = hash_at c0 s k.
Proof. intros (_ & Ht & _ & _ & Hw). unfold hash_at. rewrite Ht, Hw. reflexivity. Qed.

Lemma masked_config c0 c x : same_config c0 c -> masked c x = masked c0 x.
Proof. intros (Hm & _). unfold masked. rewrite Hm. reflexivity. Qed.

(** A window that lies inside the buffered bytes has the hash of the
    same window of the stream. *)
Lemma window_eq S e c j :
  chunker_inv S e c -> valid c -> last c <= j ->
  j + window_size c <= position c + remaining c ->
  hash_buf c j = hash_at c (skipn e S) (j - last c).
Proof.
  intros Hinv Hv Hj Hfit. unfold hash_buf, hash_at.
  destruct Hv as [_ Hw Hc _ _].
  destruct (window_size c) as [|n] eqn:EW; [lia|].
  rewrite <- (_buzhash_firstn _ n (skipn j _)) by lia.
  rewrite <- (_buzhash_firstn _ n (skipn (j - last c) _)) by lia.
  f_equal. rewrite skipn_skipn.
  replace j with (last c + (j - last c)) at 1 by lia.
  rewrite (Nat.add_comm (j - last c) e).
  eapply firstn_skipn_eq_shift; [exact (ci_held _ _ _ Hinv)|].
  unfold held. lia.
Qed.

Lemma held_le S e c :
  chunker_inv S e c ->
  held c <= Nat.min (length (skipn e S)) (buf_size c).
Proof.
  intros Hinv. pose proof (ci_bound _ _ _ Hinv). pose proof (ci_fit _ _ _ Hinv).
  rewrite length_skipn. unfold held in *. lia.
Qed.

Lemma advance_inv S e c did :
  did <= remaining c -> chunker_inv S e c ->
  chunker_inv S e (advance c did) /\ held (advance c did) = held c.
Proof.
  intros Hdid [Hlast Hfit Hlen Hheld Hbound Hread Hyld Hbytes Hpos Heof Hcaps].
  assert (Hh : held (advance c did) = held c) by (unfold held; fields; lia).
  split; [|exact Hh].
  constructor; rewrite ?Hh; fields; try assumption; lia.
Qed.

(** *** The search for the cut point *)

Lemma find_cut_skip c0 s m : forall d n q,
  (forall i, q <= i < q + d -> masked c0 (hash_at c0 s i) = true) ->
  d <= n ->
  find_cut c0 n s q m = find_cut c0 (n - d) s (q + d) m.
Proof.
  induction d as [|d IH]; intros n q Hall Hd.
  - rewrite Nat.sub_0_r, Nat.add_0_r. reflexivity.
  - destruct n as [|n]; [lia|]. cbn [find_cut].
    rewrite Hall by lia.
    rewrite (IH n (q + 1)); [|intros i Hi; apply Hall; lia|lia].
    f_equal; lia.
Qed.

Lemma search_spec S e c0 cut : valid c0 -> forall fuel c sum,
  same_config c0 c -> chunker_inv S e c ->
  window_size c0 <= remaining c ->
  sum = hash_at c0 (skipn e S) (position c - last c) ->
  find_cut c0
    (Nat.min (length (skipn e S)) (buf_size c0) - window_size c0
     - (position c - last c))
    (skipn e S) (position c - last c)
    (Nat.min (length (skipn e S)) (buf_size c0)) = cut ->
  (eof c = true -> remaining c <= window_size c0) ->
  (remaining c <= window_size c0 ->
   held c = Nat.min (length (skipn e S)) (buf_size c0)) ->
  buf_size c0 - (position c - last c) + 1 <= fuel ->
  exists c', search fuel c sum = Some c' /\
    same_config c0 c' /\ chunker_inv S e c' /\ done c' = done c /\
    window_size c0 <= remaining c' /\
    (eof c' = true -> remaining c' <= window_size c0) /\
    (if remaining c' <=? window_size c0
     then position c' - last c' + remaining c' = cut
     else position c' - last c' = cut).
Proof.
  intros Hv0. set (s := skipn e S). set (m := Nat.min (length s) (buf_size c0)).
  induction fuel as [|fuel IH];
    intros c sum Hcfg Hinv HW Hsum Hcut Heof Hfull Hfuel; [lia|].
  pose proof Hcfg as (Hmask & Htab & Hmin & Hbuf & Hwin).
  assert (Hv : valid c) by (eapply valid_same_config; eassumption).
  pose proof (held_le S e c Hinv) as Hheld. fold s in Hheld.
  rewrite Hbuf in Hheld. fold m in Hheld.
  pose proof (ci_last _ _ _ Hinv) as Hlast.
  cbn [search]. rewrite Hwin.
  destruct (Nat.ltb_spec (window_size c0) (remaining c)) as [Hgt|Hle];
    cbn [andb].
  2: { exists c. splits; try assumption; try reflexivity.
       destruct (Nat.leb_spec (remaining c) (window_size c0)); [|lia].
       rewrite <- Hcut. specialize (Hfull Hle). unfold held in Hfull.
       replace (m - window_size c0 - (position c - last c)) with 0 by lia.
       cbn [find_cut]. lia. }
  destruct (masked c sum) eqn:Em.
  2: { exists c. splits; try assumption; try reflexivity.
       destruct (Nat.leb_spec (remaining c) (window_size c0)); [lia|].
       rewrite <- Hcut. unfold held in Hheld.
       destruct (m - window_size c0 - (position c - last c)) eqn:En; [lia|].
       cbn [find_cut]. rewrite <- Hsum.
       rewrite <- (masked_config c0 c) by exact Hcfg. rewrite Em.
       reflexivity. }
  (* one turn of the loop *)
  assert (Hm : position c + remaining c <= m + last c)
    by (unfold held in Hheld; clear - Hheld Hlast; lia).
  assert (Hwe : forall j, last c <= j ->
            j + window_size c0 <= position c + remaining c ->
            hash_buf c j = hash_at c0 s (j - last c)).
  { intros j Hj1 Hj2. rewrite (window_eq S e); try assumption.
    - apply hash_at_config. exact Hcfg.
    - rewrite Hwin. exact Hj2. }
  assert (Hsb : sum = hash_buf c (position c)).
  { rewrite Hwe; [exact Hsum|exact Hlast|clear - Hgt; lia]. }
  destruct (slide_spec c Hv
              (position c + remaining c - window_size c0 - position c)
              (position c) sum Hsb) as (p' & Hs & Hr & Hall & Hstop).
  rewrite Hs. cbv beta iota zeta.
  assert (Hr' : position c <= p' /\
                p' + window_size c0 <= position c + remaining c)
    by (clear - Hr Hgt; lia).
  assert (Hp' : position c < p').
  { destruct (Nat.eq_dec p' (position c)) as [->|Hne];
      [|clear - Hr' Hne; lia].
    rewrite <- Hsb, Em in Hstop. discriminate Hstop. clear - Hgt. lia. }
  clear Hr Hstop. destruct Hr' as [_ Hr'].
  set (c1 := advance c (p' - position c)).
  assert (Hdid : p' - position c <= remaining c) by (clear - Hr' Hp'; lia).
  destruct (advance_inv S e c (p' - position c) Hdid Hinv)
    as [Hinv1 Hheld1]. fold c1 in Hinv1, Hheld1.
  assert (Hc1 : position c1 = p' /\
                remaining c1 = remaining c - (p' - position c)
                /\ last c1 = last c /\ eof c1 = eof c /\ done c1 = done c
                /\ same_config c0 c1).
  { subst c1. unfold advance; cbn [position remaining last eof done].
    splits; try reflexivity; [clear - Hp'; lia|exact Hcfg]. }
  destruct Hc1 as (Hp1 & Hr1 & Hl1 & He1 & Hd1 & Hcfg1).
  assert (Hr1' : remaining c1 + p' = remaining c + position c)
    by (clear - Hr1 Hdid Hp'; lia).
  assert (Heof0 : eof c = false).
  { destruct (eof c); [specialize (Heof eq_refl); clear - Heof Hgt; lia
                      |reflexivity]. }
  replace (window_size c1) with (window_size c0)
    by (symmetry; apply Hcfg1).
  set (c2 := if remaining c1 <=? window_size c0 then fill c1 else c1).
  assert (H2 : same_config c0 c2 /\ chunker_inv S e c2 /\ done c2 = done c /\
               position c2 - last c2 = p' - last c /\
               window_size c0 <= remaining c2 /\
               (eof c2 = true -> remaining c2 <= window_size c0) /\
               (remaining c2 <= window_size c0 -> held c2 = m)).
  { subst c2.
    destruct (Nat.leb_spec (remaining c1) (window_size c0)) as [Hsm|Hbg].
    - destruct (fill_spec S e c1 Hinv1)
        as (Hinv2 & Hcfg2 & Hl2 & Hp2 & Hd2 & Hr2 & He2 & Hfull2).
      pose proof (held_le S e _ Hinv2) as Hheld2. fold s in Hheld2.
      replace (buf_size (fill c1)) with (buf_size c0) in Hheld2
        by (symmetry; eapply same_config_trans; eassumption).
      fold m in Hheld2.
      assert (Hrem1 : remaining c1 = window_size c0)
        by (clear - Hsm Hr1' Hr'; lia).
      splits.
      + eapply same_config_trans; eassumption.
      + exact Hinv2.
      + congruence.
      + rewrite Hl2, Hp2, Hp1, Hl1. clear. lia.
      + clear - Hr2 Hrem1. lia.
      + intros H. rewrite (He2 H). exact Hsm.
      + intros H.
        assert (Hsame : remaining (fill c1) = remaining c1)
          by (clear - H Hr2 Hrem1; lia).
        destruct (eof (fill c1)) eqn:Eeof2.
        * pose proof (ci_eof _ _ _ Hinv2 Eeof2) as Hend.
          pose proof (ci_bound _ _ _ Hinv2) as Hbd.
          assert (Hms : m <= length S - e).
          { unfold m, s. rewrite length_skipn. apply Nat.le_min_l. }
          clear - Hend Hheld2 Hms. lia.
        * destruct (Hfull2 eq_refl Hsame) as [_ Hf].
          assert (Hh21 : held (fill c1) = held c1).
          { unfold held. rewrite Hl2, Hp2, Hsame.
            pose proof (ci_last _ _ _ Hinv1) as Hl. clear - Hl. lia. }
          replace (buf_size c1) with (buf_size c0) in Hf
            by (symmetry; apply Hcfg1).
          assert (Hmb : m <= buf_size c0) by (unfold m; apply Nat.le_min_r).
          clear - Hf Hh21 Hheld2 Hmb. lia.
    - splits; try assumption.
      + rewrite Hp1, Hl1. reflexivity.
      + clear - Hbg. lia.
      + intros H. rewrite He1, Heof0 in H. discriminate H.
      + intros H. clear - H Hbg. lia. }
  destruct H2 as (Hcfg2 & Hinv2 & Hd2 & Hq2 & HW2 & Heof2 & Hfull2).
  assert (Hq' : p' - last c = position c - last c + (p' - position c))
    by (clear - Hlast Hp'; lia).
  destruct (IH c2 (hash_buf c p') Hcfg2 Hinv2 HW2)
    as (c' & Hse & Hcfg' & Hinv' & Hd' & HW' & Heof' & Hres).
  - rewrite Hq2. apply Hwe; [clear - Hlast Hp'; lia|exact Hr'].
  - rewrite Hq2. rewrite <- Hcut.
    rewrite (find_cut_skip c0 s m (p' - position c)
               (m - window_size c0 - (position c - last c))
               (position c - last c)).
    + rewrite <- Hq'.
      replace (m - window_size c0 - (position c - last c) - (p' - position c))
        with (m - window_size c0 - (p' - last c))
        by (clear - Hq'; lia).
      reflexivity.
    + intros i Hi.
      assert (Hi1 : last c <= i + last c) by (clear; lia).
      assert (Hi2 : i + last c + window_size c0 <= position c + remaining c)
        by (clear - Hi Hr' Hlast Hp'; lia).
      assert (Hi3 : position c <= i + last c < p')
        by (clear - Hi Hlast Hp'; lia).
      pose proof (Hwe (i + last c) Hi1 Hi2) as Hw.
      replace (i + last c - last c) with i in Hw by (clear; lia).
      rewrite <- Hw.
      rewrite <- (masked_config c0 c) by exact Hcfg.
      apply Hall. exact Hi3.
    + clear - Hm Hr' Hlast Hp'. lia.
  - exact Heof2.
  - exact Hfull2.
  - rewrite Hq2.
    assert (Hmb0 : m <= buf_size c0) by (unfold m; apply Nat.le_min_r).
    clear - Hfuel Hq' Hp' Hmb0 Hm Hr' Hlast. lia.
  - exists c'. splits; try assumption. congruence.
Qed.

(** *** The reference cut *)

Lemma find_cut_range c0 s m : forall n q,
  q + n <= m -> q <= find_cut c0 n s q m <= m.
Proof.
  induction n as [|n IH]; intros q Hq; cbn [find_cut]; [lia|].
  destruct (masked c0 (hash_at c0 s q)); [|lia].
  specialize (IH (q + 1)). lia.
Qed.

Lemma cut_len_long c0 s :
  min_size c0 + window_size c0 + 1 <= length s ->
  cut_len c0 s =
  find_cut c0 (Nat.min (length s) (buf_size c0) - window_size c0 - min_size c0)
           s (min_size c0) (Nat.min (length s) (buf_size c0)).
Proof.
  intros H. unfold cut_len.
  destruct (Nat.ltb_spec (length s) (min_size c0 + window_size c0 + 1));
    [lia|reflexivity].
Qed.

Lemma cut_len_short c0 s :
  length s < min_size c0 + window_size c0 + 1 -> cut_len c0 s = length s.
Proof.
  intros H. unfold cut_len.
  destruct (Nat.ltb_spec (length s) (min_size c0 + window_size c0 + 1));
    [reflexivity|lia].
Qed.

(** A chunk of a stream that is not empty is not empty, is no longer
    than the stream and no longer than [buf_size]; unless it ends the
    stream it has at least [min_size] bytes. *)
Lemma cut_len_bounds c0 s :
  valid c0 -> s <> [] ->
  1 <= cut_len c0 s <= length s /\ cut_len c0 s <= buf_size c0 /\
  (cut_len c0 s < length s -> min_size c0 <= cut_len c0 s).
Proof.
  intros Hv Hs.
  assert (0 < length s) by (destruct s; [congruence|cbn; lia]).
  destruct Hv as [Hmin _ _ Hroom _].
  destruct (Nat.lt_ge_cases (length s) (min_size c0 + window_size c0 + 1))
    as [Hsh|Hlo].
  - rewrite cut_len_short by exact Hsh. lia.
  - rewrite cut_len_long by exact Hlo.
    pose proof (find_cut_range c0 s (Nat.min (length s) (buf_size c0))
      (Nat.min (length s) (buf_size c0) - window_size c0 - min_size c0)
      (min_size c0) ltac:(lia)).
    lia.
Qed.

(** *** One pull *)

(** Emitting the bytes between [last] and [position] leaves the chunker
    ready for the next pull. *)
Lemma emit_between S e c :
  chunker_inv S e c -> done c = false -> (eof c = true -> remaining c = 0) ->
  between_pulls S (e + (position c - last c))
    (emit c (position c) (position c - last c)).
Proof.
  intros [Hlast Hfit Hlen Hheld Hbound Hread Hyld Hbytes Hpos Heof Hcaps]
         Hdone Heof0.
  split; [|fields; splits; try reflexivity; assumption].
  constructor; fields; try assumption; try lia.
  - replace (position c + remaining c - position c)
      with (remaining c) by lia.
    replace (position c) with (last c + (position c - last c)) at 1 by lia.
    eapply firstn_skipn_eq_shift; [exact Hheld|]. lia.
  - intros H. specialize (Heof H). lia.
Qed.

Lemma process_finished fuel c :
  finished c -> process fuel c = Some (StopIteration, c).
Proof.
  intros [Hd Hb]. unfold process. rewrite Hd, Hb, Nat.eqb_refl. reflexivity.
Qed.

Lemma process_spec S e c0 c fuel :
  valid c0 -> same_config c0 c -> between_pulls S e c ->
  length S + buf_size c0 + 3 <= fuel ->
  (skipn e S = [] /\
   exists c', process fuel c = Some (StopIteration, c') /\ finished c' /\
              same_config c0 c') \/
  (skipn e S <> [] /\
   exists c',
     process fuel c =
       Some (Yield (firstn (cut_len c0 (skipn e S)) (skipn e S)), c') /\
     same_config c0 c' /\
     (between_pulls S (e + cut_len c0 (skipn e S)) c' \/
      (finished c' /\ e + cut_len c0 (skipn e S) = length S))).
Proof.
  intros Hv0 Hcfg (Hinv & Hpl & Hdone & Heof0) Hfuel.
  set (s := skipn e S).
  assert (Hv : valid c) by (eapply valid_same_config; eassumption).
  pose proof Hcfg as (Hmask & Htab & Hmin & Hbuf & Hwin).
  pose proof (v_room _ Hv0) as Hroom. pose proof (v_min _ Hv0) as Hmin1.
  unfold process. rewrite Hdone.
  destruct (refill_spec S e fuel c Hv Hinv Hpl)
    as (c1 & Hre & Hinv1 & Hcfg1 & Hpl1 & Hd1 & Hres).
  { intros H. rewrite (Heof0 H). lia. }
  { pose proof (ci_bound _ _ _ Hinv). destruct (eof c); lia. }
  rewrite Hre. rewrite Hmin, Hwin in Hres.
  assert (Hcfg01 : same_config c0 c1)
    by (eapply same_config_trans; eassumption).
  pose proof Hcfg01 as (Hmask1 & Htab1 & Hmin1' & Hbuf1 & Hwin1).
  pose proof (ci_bound _ _ _ Hinv1) as Hb1.
  pose proof (ci_held _ _ _ Hinv1) as Hh1.
  pose proof (ci_read _ _ _ Hinv1) as Hrd1.
  pose proof (ci_yielded _ _ _ Hinv1) as Hy1.
  assert (Hheld1 : held c1 = remaining c1) by (unfold held; lia).
  assert (Hslen : length s = length S - e)
    by (subst s; apply length_skipn).
  destruct (eof c1) eqn:Eeof1.
  - (* the source is exhausted: what is buffered is the last chunk *)
    pose proof (ci_eof _ _ _ Hinv1 Eeof1) as Hend.
    fields.
    destruct (Nat.eqb_spec (remaining c1) 0) as [Hz|Hnz]; cbn [negb].
    + left. split.
      * apply length_zero_iff_nil. lia.
      * rewrite Hrd1, Hy1.
        replace (e + (position c1 + remaining c1 - last c1)) with e by lia.
        rewrite Nat.eqb_refl. eexists. split; [reflexivity|].
        split; [split; fields; [reflexivity|lia]|exact Hcfg01].
    + right. split.
      * intros Hs. apply length_zero_iff_nil in Hs. lia.
      * eexists. split; [|split].
        -- f_equal. f_equal. f_equal.
           unfold view. fields.
           rewrite cut_len_short by lia.
           rewrite firstn_all.
           rewrite Hpl1.
           replace (remaining c1) with (position c1 + remaining c1 - last c1)
             by lia.
           rewrite Hh1. subst s. apply firstn_all2.
           rewrite length_skipn. lia.
        -- exact Hcfg01.
        -- right. split; [split; fields; [reflexivity|lia]|].
           rewrite cut_len_short by lia. lia.
  - (* enough bytes are buffered to look for a cut point *)
    right. split.
    { intros Hs. apply length_zero_iff_nil in Hs. lia. }
    set (c2 := advance c1 (min_size c1)).
    destruct (advance_inv S e c1 (min_size c1) ltac:(lia) Hinv1)
      as [Hinv2 Hheld2]. fold c2 in Hinv2, Hheld2.
    assert (Hc2 : position c2 = position c1 + min_size c0 /\
                  remaining c2 = remaining c1 - min_size c0 /\
                  last c2 = last c1 /\ eof c2 = false /\ done c2 = false /\
                  same_config c0 c2).
    { subst c2. unfold advance; cbn [position remaining last eof done].
      splits; try congruence; try lia. exact Hcfg01. }
    destruct Hc2 as (Hp2 & Hr2 & Hl2 & He2 & Hd2 & Hcfg2).
    assert (Hv2 : valid c2) by (eapply valid_same_config; eassumption).
    pose proof Hcfg2 as (_ & _ & _ & _ & Hwin2).
    replace (_buzhash (skipn (position c2) (data c2)) (window_size c2)
                      (table c2)) with (hash_buf c2 (position c2))
      by reflexivity.
    destruct (search_spec S e c0 (cut_len c0 s) Hv0 fuel c2
                (hash_buf c2 (position c2)) Hcfg2 Hinv2)
      as (c3 & Hse & Hcfg3 & Hinv3 & Hd3 & HW3 & Heof3 & Hcut3).
    { lia. }
    { rewrite (window_eq S e) by (assumption || lia).
      apply hash_at_config. exact Hcfg2. }
    { fold s. rewrite cut_len_long by lia.
      replace (position c2 - last c2) with (min_size c0) by lia.
      reflexivity. }
    { intros H. rewrite He2 in H. discriminate H. }
    { intros H. lia. }
    { lia. }
    rewrite Hse.
    pose proof Hcfg3 as (_ & _ & _ & _ & Hwin3). rewrite Hwin3.
    pose proof (ci_last _ _ _ Hinv3) as Hlast3.
    pose proof (ci_fit _ _ _ Hinv3) as Hfit3.
    pose proof (ci_bound _ _ _ Hinv3) as Hb3.
    pose proof (ci_held _ _ _ Hinv3) as Hh3.
    set (c4 := if remaining c3 <=? window_size c0
               then advance c3 (remaining c3) else c3).
    assert (Hc4 : chunker_inv S e c4 /\ held c4 = held c3 /\
                  position c4 - last c4 = cut_len c0 s /\
                  last c4 = last c3 /\ same_config c0 c4 /\
                  done c4 = false /\ (eof c4 = true -> remaining c4 = 0)).
    { subst c4. destruct (Nat.leb_spec (remaining c3) (window_size c0)).
      - destruct (advance_inv S e c3 (remaining c3) ltac:(lia) Hinv3)
          as [Hi Hh].
        splits; try assumption; unfold advance; cbn; try lia; congruence.
      - splits; try assumption; try reflexivity; try congruence.
        intros H'. specialize (Heof3 H'). lia. }
    destruct Hc4 as (Hinv4 & Hheld4 & Hcut4 & Hl4 & Hcfg4 & Hd4 & Heof4).
    pose proof (ci_last _ _ _ Hinv4) as Hlast4.
    pose proof (ci_held _ _ _ Hinv4) as Hh4.
    exists (emit c4 (position c4) (position c4 - last c4)).
    split; [|split].
    + f_equal. f_equal. f_equal. unfold view. fields.
      replace (position c4 - last c4) with (cut_len c0 s) by lia.
      fold s in Hh4.
      eapply firstn_eq_shorter; [exact Hh4|]. lia.
    + unfold emit. exact Hcfg4.
    + left. rewrite <- Hcut4. apply emit_between; assumption.
Qed.

(** *** All pulls *)

Lemma cut_upto_nil c0 n : cut_upto c0 n [] = [].
Proof. destruct n; reflexivity. Qed.

Lemma drain_finished zeros fuel c :
  finished c -> drain zeros (S fuel) c = Some ([], None, c).
Proof.
  intros Hf. cbn [drain]. unfold next. rewrite process_finished by exact Hf.
  reflexivity.
Qed.

(** The chunker emits the chunks of the reference cut, one per pull,
    and then ends the sequence. *)
Lemma drain_spec zeros S c0 : valid c0 -> forall n e c fuel,
  same_config c0 c -> between_pulls S e c ->
  length S - e <= n -> n + length S + buf_size c0 + 4 <= fuel ->
  exists c',
    drain zeros fuel c =
      Some (List.map (classify zeros) (cut_upto c0 n (skipn e S)), None, c') /\
    finished c' /\ same_config c0 c'.
Proof.
  intros Hv0. induction n as [|n IH]; intros e c fuel Hcfg Hbp Hn Hfuel;
    (destruct fuel as [|fuel]; [lia|]); cbn [drain]; unfold next;
    destruct (process_spec S e c0 c (Datatypes.S fuel) Hv0 Hcfg Hbp
                ltac:(lia))
      as [[Hs (c' & -> & Hfin & Hcfg')]|[Hs (c' & -> & Hcfg' & Hnext)]].
  - rewrite Hs. exists c'. splits; [reflexivity|exact Hfin|exact Hcfg'].
  - exfalso. apply Hs. apply length_zero_iff_nil. rewrite length_skipn. lia.
  - rewrite Hs, cut_upto_nil.
    exists c'. splits; [reflexivity|exact Hfin|exact Hcfg'].
  - destruct (cut_len_bounds c0 (skipn e S) Hv0 Hs) as (Hc1 & _).
    rewrite length_skipn in Hc1.
    destruct (skipn e S) as [|b s'] eqn:Es; [congruence|].
    cbn [cut_upto List.map]. rewrite <- Es in *.
    destruct Hnext as [Hbp'|[Hfin Hend]].
    + destruct (IH (e + cut_len c0 (skipn e S)) c' fuel Hcfg' Hbp')
        as (c'' & Hd & Hfin'' & Hcfg''); [lia|lia|].
      rewrite Hd. rewrite skipn_skipn, (Nat.add_comm (cut_len _ _) e).
      exists c''. splits; [reflexivity|assumption|assumption].
    + destruct fuel as [|fuel]; [lia|].
      rewrite drain_finished by exact Hfin.
      rewrite (skipn_all2 (skipn e S)) by (rewrite length_skipn; lia).
      rewrite cut_upto_nil.
      exists c'. splits; [reflexivity|assumption|assumption].
Qed.

(** *** Construction *)

Lemma length_malloc n junk : length (malloc n junk) = n.
Proof. unfold malloc. rewrite length_map, length_seq. reflexivity. Qed.

Lemma cinit_spec zeros seed min_exp max_exp mask_bits W junk c :
  cinit zeros seed min_exp max_exp mask_bits W junk = Some c ->
  min_size c = 2 ^ min_exp /\ buf_size c = 2 ^ max_exp /\
  window_size c = W /\ length (data c) = buf_size c /\
  buf_size c <= length zeros /\
  W + min_size c + 1 <= buf_size c /\
  (Z.of_nat W < 2 ^ 32)%Z /\ Forall is_u32 (table c) /\
  position c = 0 /\ last c = 0.
Proof.
  unfold cinit. intros H.
  destruct (fits_int seed && fits_int (Z.of_nat min_exp)
            && fits_int (Z.of_nat max_exp) && fits_int (Z.of_nat mask_bits)
            && fits_int (Z.of_nat W)) eqn:Efit; cbn [negb] in H;
    [|discriminate].
  destruct (Nat.leb_spec (2 ^ max_exp) (length zeros)) as [Hz|Hz];
    cbn [negb] in H; [|discriminate].
  destruct (Nat.leb_spec (W + 2 ^ min_exp + 1) (2 ^ max_exp)) as [Hr|Hr];
    cbn [negb] in H; [|discriminate].
  injection H as <-.
  cbn [min_size buf_size window_size data table position last].
  rewrite length_malloc.
  splits; try reflexivity; try assumption.
  - apply andb_true_iff in Efit. destruct Efit as [_ HW].
    unfold fits_int in HW. apply andb_true_iff in HW. destruct HW as [_ HW].
    apply Z.ltb_lt in HW. lia.
  - apply init_table_is_u32, seed_mask_is_u32.
Qed.

Lemma cinit_valid zeros seed min_exp max_exp mask_bits W junk c :
  cinit zeros seed min_exp max_exp mask_bits W junk = Some c ->
  1 <= W -> valid c.
Proof.
  intros H HW.
  destruct (cinit_spec _ _ _ _ _ _ _ _ H)
    as (Hmin & Hbuf & Hwin & _ & _ & Hroom & Hc & Ht & _).
  constructor; rewrite ?Hwin; try assumption; try lia.
  rewrite Hmin. pose proof (Nat.pow_nonzero 2 min_exp). lia.
Qed.

Lemma chunkify_config c f : same_config c (chunkify c f).
Proof. repeat split. Qed.

Lemma chunkify_between c f :
  length (data c) = buf_size c -> f_pos f = 0%N ->
  Forall (fun k => 0 < k) (f_caps f) ->
  between_pulls (f_bytes f) 0 (chunkify c f).
Proof.
  intros Hlen Hpos Hcaps. unfold between_pulls, chunkify.
  splits; try reflexivity.
  constructor; fields; try reflexivity; try assumption; try lia.
Qed.

(** The chunker emits the chunks of the reference cut of its source,
    however the source cuts its reads. *)
Lemma chunker_emits zeros c f fuel :
  valid c -> length (data c) = buf_size c -> f_pos f = 0%N ->
  Forall (fun k => 0 < k) (f_caps f) ->
  2 * length (f_bytes f) + buf_size c + 4 <= fuel ->
  exists c',
    drain zeros fuel (chunkify c f) =
    Some (List.map (classify zeros) (cuts c (f_bytes f)), None, c').
Proof.
  intros Hv Hlen Hpos Hcaps Hfuel.
  destruct (drain_spec zeros (f_bytes f) c Hv (length (f_bytes f)) 0
              (chunkify c f) fuel (chunkify_config c f)
              (chunkify_between c f Hlen Hpos Hcaps))
    as (c' & Hd & _); [lia|lia|].
  exists c'. exact Hd.
Qed.

(** *** Properties of the reference cut *)

Lemma cut_upto_concat c0 : valid c0 -> forall n s,
  length s <= n -> concat (cut_upto c0 n s) = s.
Proof.
  intros Hv. induction n as [|n IH]; intros s Hn.
  - destruct s; [reflexivity|cbn in Hn; lia].
  - destruct s as [|b s'] eqn:Es; [reflexivity|]. rewrite <- Es in *.
    assert (Hne : s <> []) by (rewrite Es; discriminate).
    destruct (cut_len_bounds c0 s Hv Hne) as (Hc & _).
    replace (cut_upto c0 (S n) s)
      with (firstn (cut_len c0 s) s
            :: cut_upto c0 n (skipn (cut_len c0 s) s))
      by (rewrite Es; reflexivity).
    cbn [concat]. rewrite IH by (rewrite length_skipn; lia).
    apply firstn_skipn.
Qed.

Lemma cut_upto_sizes c0 : valid c0 -> forall n s,
  length s <= n ->
  Forall (fun b => 1 <= length b <= buf_size c0) (cut_upto c0 n s) /\
  Forall (fun b => min_size c0 <= length b) (removelast (cut_upto c0 n s)).
Proof.
  intros Hv. induction n as [|n IH]; intros s Hn.
  - split; constructor.
  - destruct s as [|b s'] eqn:Es; [split; constructor|]. rewrite <- Es in *.
    assert (Hne : s <> []) by (rewrite Es; discriminate).
    destruct (cut_len_bounds c0 s Hv Hne) as (Hc & Hmax & Hmin).
    replace (cut_upto c0 (S n) s)
      with (firstn (cut_len c0 s) s
            :: cut_upto c0 n (skipn (cut_len c0 s) s))
      by (rewrite Es; reflexivity).
    destruct (IH (skipn (cut_len c0 s) s)) as [IH1 IH2];
      [rewrite length_skipn; lia|].
    assert (Hlen : length (firstn (cut_len c0 s) s) = cut_len c0 s)
      by (rewrite length_firstn; lia).
    split.
    + constructor; [rewrite Hlen; lia|exact IH1].
    + destruct (cut_upto c0 n (skipn (cut_len c0 s) s)) as [|x rest] eqn:Er.
      * constructor.
      * cbn [removelast]. constructor; [|exact IH2].
        rewrite Hlen. apply Hmin.
        destruct (Nat.eq_dec (cut_len c0 s) (length s)) as [Heq|]; [|lia].
        rewrite (skipn_all2 s) in Er by lia.
        rewrite cut_upto_nil in Er. discriminate Er.
Qed.

(** The reference cut depends on the chunker through its parameters
    only. *)
Lemma find_cut_config c0 c s m :
  same_config c0 c -> forall n k, find_cut c n s k m = find_cut c0 n s k m.
Proof.
  intros Hcfg. induction n as [|n IH]; intros k; cbn [find_cut];
    [reflexivity|].
  rewrite (masked_config c0 c), (hash_at_config c0 c), IH by exact Hcfg.
  reflexivity.
Qed.

Lemma cut_len_config c0 c s :
  same_config c0 c -> cut_len c s = cut_len c0 s.
Proof.
  intros Hcfg. pose proof Hcfg as (_ & _ & Hmin & Hbuf & Hwin).
  unfold cut_len. rewrite Hmin, Hbuf, Hwin.
  rewrite (find_cut_config c0 c) by exact Hcfg. reflexivity.
Qed.

Lemma cut_upto_config c0 c :
  same_config c0 c -> forall n s, cut_upto c n s = cut_upto c0 n s.
Proof.
  intros Hcfg. induction n as [|n IH]; intros s; cbn [cut_upto];
    [reflexivity|].
  destruct s; [reflexivity|].
  rewrite (cut_len_config c0 c), IH by exact Hcfg. reflexivity.
Qed.

Lemma cinit_same_config zeros seed min_exp max_exp mask_bits W junk1 junk2
  c1 c2 :
  cinit zeros seed min_exp max_exp mask_bits W junk1 = Some c1 ->
  cinit zeros seed min_exp max_exp mask_bits W junk2 = Some c2 ->
  same_config c1 c2.
Proof.
  unfold cinit. intros H1 H2.
  destruct (negb _); [discriminate|].
  destruct (negb _); [discriminate|].
  destruct (negb _); [discriminate|].
  injection H1 as <-. injection H2 as <-. repeat split.
Qed.

(** C2. For fixed seed, size exponents, mask bits, window size and
    input bytes, the content-defined chunker emits the same chunks, cut
    at the same boundaries, whatever way the source cuts the input into
    reads (and whatever the fresh buffer held): two runs over the same
    bytes, each with its own sequence of read sizes, agree. *)
Theorem cuts_independent_of_reads zeros seed min_exp max_exp mask_bits W
  junk1 junk2 c1 c2 f1 f2 fuel :
  cinit zeros seed min_exp max_exp mask_bits W junk1 = Some c1 ->
  cinit zeros seed min_exp max_exp mask_bits W junk2 = Some c2 ->
  1 <= W ->
  f_bytes f1 = f_bytes f2 -> f_pos f1 = 0%N -> f_pos f2 = 0%N ->
  Forall (fun k => 0 < k) (f_caps f1) ->
  Forall (fun k => 0 < k) (f_caps f2) ->
  2 * length (f_bytes f1) + 2 ^ max_exp + 4 <= fuel ->
  exists chunks1 chunks2 c1' c2',
    drain zeros fuel (chunkify c1 f1) = Some (chunks1, None, c1') /\
    drain zeros fuel (chunkify c2 f2) = Some (chunks2, None, c2') /\
    boundaries 0 chunks1 = boundaries 0 chunks2 /\
    chunks1 = chunks2.
Proof.
  intros H1 H2 HW Hb Hp1 Hp2 Hc1 Hc2 Hfuel.
  pose proof (cinit_valid _ _ _ _ _ _ _ _ H1 HW) as Hv1.
  pose proof (cinit_valid _ _ _ _ _ _ _ _ H2 HW) as Hv2.
  destruct (cinit_spec _ _ _ _ _ _ _ _ H1) as (_ & Hbuf1 & _ & Hlen1 & _).
  destruct (cinit_spec _ _ _ _ _ _ _ _ H2) as (_ & Hbuf2 & _ & Hlen2 & _).
  destruct (chunker_emits zeros c1 f1 fuel Hv1 Hlen1 Hp1 Hc1) as (c1' & Hd1);
    [lia|].
  destruct (chunker_emits zeros c2 f2 fuel Hv2 Hlen2 Hp2 Hc2) as (c2' & Hd2);
    [rewrite <- Hb; lia|].
  assert (Heq : cuts c2 (f_bytes f2) = cuts c1 (f_bytes f1)).
  { rewrite <- Hb. unfold cuts. apply cut_upto_config.
    eapply cinit_same_config; eassumption. }
  rewrite Heq in Hd2.
  do 4 eexists. split; [exact Hd1|]. split; [exact Hd2|].
  split; reflexivity.
Qed.

Lemma cuts_independent_of_reads_witness :
  let zeros := repeat x00 64 in
  let stream := [
         xa5; x4d; xca; x18; x25; x30; xbb; x1d; x6d; x13; x2c; xde;
         xd6; x23; x7b; x2e; xd9; x1e; x3f; x72; x1f; xcb; x19; x71;
         x17; x44; x94; xd6; x49; x3c; x9d; x5c; x34; x60; xbe; x31;
         x20; x1e; x69; xfe; xda; xa0; xee; xe8; xb9; x99; x7f; x5c] in
  let f1 := mkfile stream [] 0 [] [] in
  let f2 := mkfile stream [] 0 [17; 17; 17; 17; 17] [] in
  exists c1 c2,
    cinit zeros 1 1 5 2 3 (fun _ => x00) = Some c1 /\
    cinit zeros 1 1 5 2 3 (fun _ => xff) = Some c2 /\
    exists chunks1 chunks2 c1' c2',
      drain zeros 200 (chunkify c1 f1) = Some (chunks1, None, c1') /\
      drain zeros 200 (chunkify c2 f2) = Some (chunks2, None, c2') /\
      boundaries 0 chunks1 = boundaries 0 chunks2 /\
      chunks1 = chunks2.
Proof.
  cbv zeta. eexists. eexists.
  split; [reflexivity|]. split; [reflexivity|].
  eapply (cuts_independent_of_reads (repeat x00 64) 1 1 5 2 3
            (fun _ => x00) (fun _ => xff)).
  - reflexivity.
  - reflexivity.
  - lia.
  - reflexivity.
  - reflexivity.
  - reflexivity.
  - constructor.
  - repeat (constructor; [lia|]). constructor.
  - cbn [f_bytes length]. change (2 ^ 5) with 32. lia.
Defined.

(** C3. Under the construction precondition [W + min_size + 1 <=
    max_size], every chunk the content-defined chunker emits has at most
    [max_size] bytes, and every chunk but the final one of the stream
    has at least [min_size] bytes. *)
Theorem chunk_size_bounds zeros seed min_exp max_exp mask_bits W junk c f
  fuel :
  cinit zeros seed min_exp max_exp mask_bits W junk = Some c ->
  1 <= W -> f_pos f = 0%N -> Forall (fun k => 0 < k) (f_caps f) ->
  2 * length (f_bytes f) + 2 ^ max_exp + 4 <= fuel ->
  W + 2 ^ min_exp + 1 <= 2 ^ max_exp /\
  exists chunks c',
    drain zeros fuel (chunkify c f) = Some (chunks, None, c') /\
    Forall (fun ch => size ch <= 2 ^ max_exp) chunks /\
    Forall (fun ch => 2 ^ min_exp <= size ch <= 2 ^ max_exp)
           (removelast chunks).
Proof.
  intros H HW Hp Hc Hfuel.
  pose proof (cinit_valid _ _ _ _ _ _ _ _ H HW) as Hv.
  destruct (cinit_spec _ _ _ _ _ _ _ _ H)
    as (Hmin & Hbuf & _ & Hlen & _ & Hroom & _).
  split; [rewrite <- Hmin, <- Hbuf; exact Hroom|].
  destruct (chunker_emits zeros c f fuel Hv Hlen Hp Hc) as (c' & Hd); [lia|].
  destruct (cut_upto_sizes c Hv (length (f_bytes f)) (f_bytes f) (le_n _))
    as [Hall Hbut].
  fold (cuts c (f_bytes f)) in Hall, Hbut.
  assert (Hall' : Forall (fun ch => size ch <= 2 ^ max_exp)
                    (List.map (classify zeros) (cuts c (f_bytes f)))).
  { apply Forall_map. eapply Forall_impl; [|exact Hall].
    intros b Hb. rewrite size_classify. cbv beta in Hb. lia. }
  eexists. exists c'. split; [exact Hd|]. split; [exact Hall'|].
  rewrite removelast_map. apply Forall_map.
  rewrite Forall_forall in *. intros b Hb.
  rewrite size_classify. split.
  - rewrite <- Hmin. apply Hbut. exact Hb.
  - rewrite <- Hbuf. apply Hall.
    clear - Hb. revert Hb. generalize (cuts c (f_bytes f)).
    induction l as [|x l IH]; [intros []|].
    destruct l as [|y l]; [intros []|].
    cbn [removelast]. intros [->|Hin]; [left; reflexivity|].
    right. apply IH. exact Hin.
Qed.

Lemma chunk_size_bounds_witness :
  let zeros := repeat x00 64 in
  let stream := [
         xa5; x4d; xca; x18; x25; x30; xbb; x1d; x6d; x13; x2c; xde;
         xd6; x23; x7b; x2e; xd9; x1e; x3f; x72; x1f; xcb; x19; x71;
         x17; x44; x94; xd6; x49; x3c; x9d; x5c; x34; x60; xbe; x31;
         x20; x1e; x69; xfe; xda; xa0; xee; xe8; xb9; x99; x7f; x5c] in
  let f := mkfile stream [] 0 [5; 1; 9; 2; 7] [] in
  exists c,
    cinit zeros 1 1 5 2 3 (fun _ => x00) = Some c /\
    (3 + 2 ^ 1 + 1 <= 2 ^ 5 /\
     exists chunks c',
       drain zeros 200 (chunkify c f) = Some (chunks, None, c') /\
       Forall (fun ch => size ch <= 2 ^ 5) chunks /\
       Forall (fun ch => 2 ^ 1 <= size ch <= 2 ^ 5) (removelast chunks)).
Proof.
  cbv zeta. eexists. split; [reflexivity|].
  eapply (chunk_size_bounds (repeat x00 64) 1 1 5 2 3 (fun _ => x00)).
  - reflexivity.
  - lia.
  - reflexivity.
  - repeat (constructor; [lia|]). constructor.
  - cbn [f_bytes length]. change (2 ^ 5) with 32. lia.
Defined.

(** *** No chunk is empty, whatever the source *)

Lemma read_length f n : length (fst (read f n)) <= N.to_nat n.
Proof.
  unfold read. cbn [fst]. rewrite length_firstn.
  destruct (f_caps f); lia.
Qed.

Lemma fill_shape c :
  shape c ->
  shape (fill c) /\
  position (fill c) - last (fill c) = position c - last c /\
  window_size (fill c) = window_size c /\ min_size (fill c) = min_size c.
Proof.
  intros (Hlast & Hfit & Hlen & Hmin). unfold fill.
  set (B := position c + remaining c - last c).
  assert (Hmlen : length (memmove (data c) 0 (last c) B) = buf_size c).
  { rewrite length_memmove_front by (subst B; lia). exact Hlen. }
  destruct (eof c || (buf_size c - (position c - last c) - remaining c =? 0)).
  { unfold shape. fields. splits; try assumption; lia. }
  pose proof (read_length (_fd c)
    (N.of_nat (buf_size c - (position c - last c) - remaining c))) as Hrl.
  destruct (read (_fd c) _) as [data_py fd]. cbn [fst] in Hrl.
  destruct (length data_py =? 0); cbn [negb]; unfold shape; fields;
    splits; try assumption; try lia.
  rewrite length_memcpy; [exact Hmlen|]. rewrite Hmlen. lia.
Qed.

Lemma refill_shape : forall fuel c c',
  refill fuel c = Some c' -> shape c ->
  shape c' /\ position c' - last c' = position c - last c /\
  window_size c' = window_size c /\ min_size c' = min_size c /\
  (eof c' = false -> min_size c + window_size c + 1 <= remaining c').
Proof.
  induction fuel as [|fuel IH]; intros c c' H Hs; cbn [refill] in H;
    [discriminate|].
  destruct (Nat.ltb_spec (remaining c) (min_size c + window_size c + 1))
    as [Hsm|Hbg]; cbn [andb] in H.
  - destruct (eof c) eqn:Eeof; cbn [negb] in H.
    + injection H as <-. splits; try assumption; try reflexivity.
      intros H. congruence.
    + destruct (fill_shape c Hs) as (Hs1 & Hq1 & Hw1 & Hm1).
      destruct (IH _ _ H Hs1) as (Hs' & Hq' & Hw' & Hm' & Hex).
      splits; try assumption; try congruence.
      rewrite <- Hm1, <- Hw1. exact Hex.
  - injection H as <-. splits; try assumption; try reflexivity.
    intros _. exact Hbg.
Qed.

Lemma slide_bound c : forall k p sum,
  p <= fst (slide k c p sum) <= p + k.
Proof.
  induction k as [|k IH]; intros p sum; cbn [slide]; [cbn; lia|].
  destruct (masked c sum); [|cbn; lia].
  specialize (IH (p + 1)
    (_buzhash_update sum (nth p (data c) x00)
       (nth (p + window_size c) (data c) x00) (window_size c) (table c))).
  lia.
Qed.

Lemma advance_shape c did :
  did <= remaining c -> shape c ->
  shape (advance c did) /\
  position (advance c did) - last (advance c did)
  = position c - last c + did.
Proof.
  intros Hd (Hlast & Hfit & Hlen & Hmin). unfold shape. fields.
  splits; try assumption; lia.
Qed.

Lemma search_shape : forall fuel c sum c',
  search fuel c sum = Some c' -> shape c ->
  shape c' /\ position c - last c <= position c' - last c' /\
  window_size c' = window_size c.
Proof.
  induction fuel as [|fuel IH]; intros c sum c' H Hs; cbn [search] in H;
    [discriminate|].
  destruct (Nat.ltb_spec (window_size c) (remaining c)) as [Hgt|Hle];
    cbn [andb] in H.
  2:{ injection H as <-. splits; [assumption|lia|reflexivity]. }
  destruct (masked c sum).
  2:{ injection H as <-. splits; [assumption|lia|reflexivity]. }
  pose proof (slide_bound c (position c + remaining c - window_size c
                             - position c) (position c) sum) as Hb.
  destruct (slide _ c (position c) sum) as [p' sum']. cbn [fst] in Hb.
  assert (Hdid : p' - position c <= remaining c) by lia.
  destruct (advance_shape c (p' - position c) Hdid Hs) as [Hs1 Hq1].
  set (c1 := advance c (p' - position c)) in *.
  assert (Hw1 : window_size c1 = window_size c) by reflexivity.
  destruct (remaining c1 <=? window_size c1).
  - destruct (fill_shape c1 Hs1) as (Hs2 & Hq2 & Hw2 & _).
    destruct (IH _ _ _ H Hs2) as (Hs' & Hq' & Hw').
    splits; [assumption|lia|congruence].
  - destruct (IH _ _ _ H Hs1) as (Hs' & Hq' & Hw').
    splits; [assumption|lia|congruence].
Qed.

Lemma process_shape fuel c d c' :
  shape c -> process fuel c = Some (Yield d, c') ->
  0 < length d /\ shape c'.
Proof.
  intros Hs H. unfold process in H.
  destruct (done c).
  { destruct (bytes_read c =? bytes_yielded c); discriminate. }
  destruct (refill fuel c) as [c1|] eqn:Er; [|discriminate].
  destruct (refill_shape _ _ _ Er Hs) as (Hs1 & Hq1 & Hw1 & Hm1 & Hex).
  pose proof Hs1 as (Hlast1 & Hfit1 & Hlen1 & Hmin1).
  destruct (eof c1) eqn:Eeof1.
  - fields.
    destruct (Nat.eqb_spec (remaining c1) 0) as [Hz|Hnz]; cbn [negb] in H.
    + destruct (bytes_read c1 =? bytes_yielded c1); discriminate.
    + injection H as <- <-. unfold view. fields. split.
      * rewrite length_firstn, length_skipn. lia.
      * unfold shape. fields. splits; assumption.
  - specialize (Hex eq_refl). rewrite <- Hm1, <- Hw1 in Hex.
    assert (Hadv : min_size c1 <= remaining c1) by lia.
    destruct (advance_shape c1 (min_size c1) Hadv Hs1) as [Hs2 Hq2].
    set (c2 := advance c1 (min_size c1)) in *.
    destruct (search fuel c2 _) as [c3|] eqn:Es; [|discriminate].
    destruct (search_shape _ _ _ _ Es Hs2) as (Hs3 & Hq3 & Hw3).
    set (c4 := if remaining c3 <=? window_size c3
               then advance c3 (remaining c3) else c3) in *.
    assert (Hc4 : shape c4 /\ position c3 - last c3 <= position c4 - last c4).
    { subst c4. destruct (remaining c3 <=? window_size c3).
      - destruct (advance_shape c3 (remaining c3) (le_n _) Hs3) as [Ha Hb].
        split; [exact Ha|lia].
      - split; [exact Hs3|lia]. }
    destruct Hc4 as [Hs4 Hq4].
    pose proof Hs4 as (Hlast4 & Hfit4 & Hlen4 & Hmin4).
    injection H as <- <-. unfold view. fields. split.
    + rewrite length_firstn, length_skipn. lia.
    + unfold shape. fields. splits; try assumption; lia.
Qed.

Lemma drain_shape zeros : forall fuel c chs e c',
  shape c -> drain zeros fuel c = Some (chs, e, c') ->
  Forall (fun ch => 0 < size ch) chs.
Proof.
  induction fuel as [|fuel IH]; intros c chs e c' Hs H; cbn [drain] in H;
    [discriminate|].
  unfold next in H.
  destruct (process (S fuel) c) as [[o c1]|] eqn:Ep; [|discriminate].
  destruct o as [d| |e1].
  - destruct (process_shape _ _ _ _ Hs Ep) as [Hd Hs1].
    destruct (drain zeros fuel c1) as [[[chs1 e1] c2]|] eqn:Ed;
      [|discriminate].
    injection H as <- _ _. constructor.
    + rewrite size_classify. exact Hd.
    + eapply IH; eassumption.
  - injection H as <- _ _. constructor.
  - injection H as <- _ _. constructor.
Qed.

Lemma chunkify_shape c f :
  length (data c) = buf_size c -> 1 <= min_size c -> shape (chunkify c f).
Proof.
  intros Hlen Hmin. unfold shape, chunkify. fields.
  splits; try assumption; lia.
Qed.

End CdcFacts.

(** ** The content-defined chunker on any source and with any window *)

(** The lemmas of this part do not look at the hash: they hold for
    every window size, the empty window included, and the lemmas on
    termination for every source. *)

Module CdcRuns.
Import ListFacts Buzhash Source ChunkDef ChunkFacts Cdc CdcSpec CdcFacts.
Local Open Scope nat_scope.

(** *** What does not change *)

Lemma fill_config c : same_config c (fill c) /\ done (fill c) = done c.
Proof.
  unfold fill, same_config.
  destruct (eof c || _); [fields; splits; reflexivity|].
  destruct (read (_fd c) _) as [data_py fd].
  destruct (length data_py =? 0); cbn [negb]; fields; splits; reflexivity.
Qed.

Lemma refill_config : forall fuel c c',
  refill fuel c = Some c' -> same_config c c' /\ done c' = done c.
Proof.
  induction fuel as [|fuel IH]; intros c c' H; cbn [refill] in H;
    [discriminate|].
  destruct (_ && _).
  - destruct (fill_config c) as [Hc1 Hd1].
    destruct (IH _ _ H) as [Hc' Hd'].
    split; [exact (same_config_trans _ _ _ Hc1 Hc')|congruence].
  - injection H as <-. split; [apply same_config_refl|reflexivity].
Qed.

Lemma search_config : forall fuel c sum c',
  search fuel c sum = Some c' -> same_config c c' /\ done c' = done c.
Proof.
  induction fuel as [|fuel IH]; intros c sum c' H; cbn [search] in H;
    [discriminate|].
  destruct (_ && _).
  2:{ injection H as <-. split; [apply same_config_refl|reflexivity]. }
  destruct (slide _ c (position c) sum) as [p' sum'].
  set (c1 := advance c (p' - position c)) in *.
  assert (Hc1 : same_config c c1) by (unfold same_config; splits; reflexivity).
  assert (Hd1 : done c1 = done c) by reflexivity.
  destruct (remaining c1 <=? window_size c1).
  - destruct (fill_config c1) as [Hc2 Hd2].
    destruct (IH _ _ _ H) as [Hc' Hd'].
    split; [|congruence].
    exact (same_config_trans _ _ _ Hc1 (same_config_trans _ _ _ Hc2 Hc')).
  - destruct (IH _ _ _ H) as [Hc' Hd'].
    split; [exact (same_config_trans _ _ _ Hc1 Hc')|congruence].
Qed.

Lemma process_config fuel c o c' :
  process fuel c = Some (o, c') -> same_config c c'.
Proof.
  intros H. unfold process in H.
  destruct (done c).
  { destruct (bytes_read c =? bytes_yielded c); injection H as _ <-;
      apply same_config_refl. }
  destruct (refill fuel c) as [c1|] eqn:Er; [|discriminate].
  destruct (refill_config _ _ _ Er) as [Hc1 _].
  destruct (eof c1).
  - destruct (negb _).
    + injection H as _ <-. eapply same_config_trans; [exact Hc1|].
      unfold same_config. fields. splits; reflexivity.
    + destruct (_ =? _); injection H as _ <-;
        (eapply same_config_trans; [exact Hc1|]);
        unfold same_config; fields; splits; reflexivity.
  - destruct (search fuel _ _) as [c3|] eqn:Es; [|discriminate].
    destruct (search_config _ _ _ _ Es) as [Hc3 _].
    injection H as _ <-.
    eapply same_config_trans; [exact Hc1|].
    eapply same_config_trans;
      [unfold same_config; splits; reflexivity|].
    eapply same_config_trans; [exact Hc3|].
    destruct (remaining c3 <=? window_size c3);
      unfold same_config; fields; splits; reflexivity.
Qed.

(** *** Every pull returns *)

Lemma read_unread f n :
  length (fst (read f n)) + unread (snd (read f n)) = unread f.
Proof.
  unfold read, unread. cbn [fst snd f_bytes f_pos].
  rewrite N2Nat.inj_add, Nat2N.id.
  set (k := length (firstn _ _)).
  assert (Hk : k <= length (f_bytes f) - N.to_nat (f_pos f)).
  { subst k. rewrite length_firstn, length_skipn. lia. }
  lia.
Qed.

(** [fill] moves bytes from the source to the buffer and loses none. *)
Lemma fill_pending c :
  shape c ->
  pending (fill c) = pending c /\
  unread (_fd (fill c)) <= unread (_fd c).
Proof.
  intros (Hlast & Hfit & Hlen & Hmin). unfold pending, fill.
  destruct (eof c || _); [fields; split; lia|].
  pose proof (read_unread (_fd c)
    (N.of_nat (buf_size c - (position c - last c) - remaining c))) as Hr.
  destruct (read (_fd c) _) as [data_py fd]. cbn [fst snd] in Hr.
  destruct (Nat.eqb_spec (length data_py) 0); cbn [negb]; fields;
    split; lia.
Qed.

(** A call of [fill] with room in the buffer and the end of the source
    not yet seen either takes bytes from the source or sees its end. *)
Lemma fill_progress c :
  shape c -> eof c = false ->
  position c + remaining c - last c < buf_size c ->
  unread (_fd (fill c)) + (if eof (fill c) then 0 else 1)
  < unread (_fd c) + 1.
Proof.
  intros (Hlast & Hfit & Hlen & Hmin) Heof Hroom. unfold fill.
  rewrite Heof. cbn [orb].
  destruct (Nat.eqb_spec
              (buf_size c - (position c - last c) - remaining c) 0)
    as [Hz|Hnz]; [lia|].
  pose proof (read_unread (_fd c)
    (N.of_nat (buf_size c - (position c - last c) - remaining c))) as Hr.
  destruct (read (_fd c) _) as [data_py fd]. cbn [fst snd] in Hr.
  destruct (Nat.eqb_spec (length data_py) 0) as [Hk|Hk]; cbn [negb];
    fields; lia.
Qed.

Lemma refill_total : forall fuel c,
  shape c -> position c = last c ->
  window_size c + min_size c + 1 <= buf_size c ->
  unread (_fd c) + (if eof c then 0 else 1) + 1 <= fuel ->
  exists c', refill fuel c = Some c'.
Proof.
  induction fuel as [|fuel IH]; intros c Hs Hpl Hroom Hfuel; [lia|].
  cbn [refill].
  destruct (Nat.ltb_spec (remaining c) (min_size c + window_size c + 1))
    as [Hsm|Hbg]; cbn [andb]; [|eexists; reflexivity].
  destruct (eof c) eqn:Eeof; cbn [negb]; [eexists; reflexivity|].
  destruct (fill_shape c Hs) as (Hs1 & Hq1 & Hw1 & Hm1).
  destruct (fill_config c) as [(_ & _ & _ & Hb1 & _) _].
  pose proof (fill_progress c Hs Eeof ltac:(lia)) as Hp.
  destruct Hs1 as (Hl1 & Hrest).
  apply IH.
  - split; assumption.
  - lia.
  - rewrite Hw1, Hm1, Hb1. exact Hroom.
  - lia.
Qed.

Lemma slide_moves c k p sum :
  masked c sum = true -> 1 <= k -> p + 1 <= fst (slide k c p sum).
Proof.
  intros Hm Hk. destruct k as [|k]; [lia|]. cbn [slide]. rewrite Hm.
  apply slide_bound.
Qed.

Lemma search_total : forall fuel c sum,
  shape c -> buf_size c - (position c - last c) + 1 <= fuel ->
  exists c', search fuel c sum = Some c'.
Proof.
  induction fuel as [|fuel IH]; intros c sum Hs Hfuel; [lia|].
  cbn [search].
  destruct (Nat.ltb_spec (window_size c) (remaining c)) as [Hgt|Hle];
    cbn [andb]; [|eexists; reflexivity].
  destruct (masked c sum) eqn:Em; [|eexists; reflexivity].
  pose proof (slide_bound c (position c + remaining c - window_size c
                             - position c) (position c) sum) as Hb.
  pose proof (slide_moves c (position c + remaining c - window_size c
                             - position c) (position c) sum Em ltac:(lia))
    as Hmv.
  destruct (slide _ c (position c) sum) as [p' sum']. cbn [fst] in Hb, Hmv.
  assert (Hdid : p' - position c <= remaining c) by lia.
  destruct (advance_shape c (p' - position c) Hdid Hs) as [Hs1 Hq1].
  pose proof Hs as (Hlast & Hfit & _).
  set (c1 := advance c (p' - position c)) in *.
  assert (Hb1 : buf_size c1 = buf_size c) by reflexivity.
  destruct (remaining c1 <=? window_size c1).
  - destruct (fill_shape c1 Hs1) as (Hs2 & Hq2 & _).
    destruct (fill_config c1) as [(_ & _ & _ & Hb2 & _) _].
    apply IH; [exact Hs2|]. lia.
  - apply IH; [exact Hs1|]. lia.
Qed.

Lemma process_total fuel c :
  shape c -> position c = last c ->
  window_size c + min_size c + 1 <= buf_size c ->
  unread (_fd c) + buf_size c + 3 <= fuel ->
  exists o c', process fuel c = Some (o, c').
Proof.
  intros Hs Hpl Hroom Hfuel. unfold process.
  destruct (done c).
  { destruct (bytes_read c =? bytes_yielded c); do 2 eexists; reflexivity. }
  destruct (refill_total fuel c Hs Hpl Hroom) as [c1 Er].
  { destruct (eof c); lia. }
  rewrite Er.
  destruct (refill_shape _ _ _ Er Hs) as (Hs1 & Hq1 & Hw1 & Hm1 & Hex).
  destruct (refill_config _ _ _ Er) as [(_ & _ & _ & Hb1 & _) _].
  destruct (eof c1) eqn:Eeof1.
  - destruct (negb _); [do 2 eexists; reflexivity|].
    destruct (_ =? _); do 2 eexists; reflexivity.
  - specialize (Hex eq_refl). rewrite <- Hm1, <- Hw1 in Hex.
    assert (Hadv : min_size c1 <= remaining c1) by lia.
    destruct (advance_shape c1 (min_size c1) Hadv Hs1) as [Hs2 Hq2].
    set (c2 := advance c1 (min_size c1)) in *.
    assert (Hb2 : buf_size c2 = buf_size c) by exact Hb1.
    destruct (search_total fuel c2
                (_buzhash (skipn (position c2) (data c2)) (window_size c2)
                          (table c2)) Hs2) as [c3 Es]; [lia|].
    rewrite Es. do 2 eexists. reflexivity.
Qed.

(** *** Bytes are neither lost nor made up *)

Lemma refill_pending : forall fuel c c',
  refill fuel c = Some c' -> shape c ->
  pending c' = pending c /\ unread (_fd c') <= unread (_fd c).
Proof.
  induction fuel as [|fuel IH]; intros c c' H Hs; cbn [refill] in H;
    [discriminate|].
  destruct (_ && _).
  - destruct (fill_shape c Hs) as (Hs1 & _).
    destruct (fill_pending c Hs) as [Hp1 Hu1].
    destruct (IH _ _ H Hs1) as [Hp' Hu']. split; lia.
  - injection H as <-. split; lia.
Qed.

Lemma advance_pending c did :
  did <= remaining c -> pending (advance c did) = pending c.
Proof. intros Hd. unfold pending. fields. lia. Qed.

Lemma search_pending : forall fuel c sum c',
  search fuel c sum = Some c' -> shape c ->
  pending c' = pending c /\ unread (_fd c') <= unread (_fd c).
Proof.
  induction fuel as [|fuel IH]; intros c sum c' H Hs; cbn [search] in H;
    [discriminate|].
  destruct (Nat.ltb_spec (window_size c) (remaining c)) as [Hgt|Hle];
    cbn [andb] in H.
  2:{ injection H as <-. split; lia. }
  destruct (masked c sum).
  2:{ injection H as <-. split; lia. }
  pose proof (slide_bound c (position c + remaining c - window_size c
                             - position c) (position c) sum) as Hb.
  destruct (slide _ c (position c) sum) as [p' sum']. cbn [fst] in Hb.
  assert (Hdid : p' - position c <= remaining c) by lia.
  destruct (advance_shape c (p' - position c) Hdid Hs) as [Hs1 _].
  pose proof (advance_pending c (p' - position c) Hdid) as Hp1.
  set (c1 := advance c (p' - position c)) in *.
  assert (Hu1 : unread (_fd c1) = unread (_fd c)) by reflexivity.
  destruct (remaining c1 <=? window_size c1).
  - destruct (fill_shape c1 Hs1) as (Hs2 & _).
    destruct (fill_pending c1 Hs1) as [Hp2 Hu2].
    destruct (IH _ _ _ H Hs2) as [Hp' Hu']. split; lia.
  - destruct (IH _ _ _ H Hs1) as [Hp' Hu']. split; lia.
Qed.

(** A chunk that is returned is taken from the pending bytes, unless it
    is the last one. *)
Lemma process_pending fuel c d c' :
  shape c -> position c = last c ->
  process fuel c = Some (Yield d, c') ->
  done c = false /\ unread (_fd c') <= unread (_fd c) /\
  (done c' = true \/ pending c' < pending c) /\
  position c' = last c'.
Proof.
  intros Hs Hpl H. unfold process in H.
  destruct (done c) eqn:Edone.
  { destruct (bytes_read c =? bytes_yielded c); discriminate. }
  split; [reflexivity|].
  destruct (refill fuel c) as [c1|] eqn:Er; [|discriminate].
  destruct (refill_shape _ _ _ Er Hs) as (Hs1 & Hq1 & Hw1 & Hm1 & Hex).
  destruct (refill_pending _ _ _ Er Hs) as [Hp1 Hu1].
  destruct (eof c1) eqn:Eeof1.
  - destruct (negb _).
    + injection H as _ <-. destruct Hs1 as (Hlast1 & _). fields.
      splits; [exact Hu1|left; reflexivity|lia].
    + destruct (_ =? _); discriminate.
  - specialize (Hex eq_refl). rewrite <- Hm1, <- Hw1 in Hex.
    assert (Hadv : min_size c1 <= remaining c1) by lia.
    destruct (advance_shape c1 (min_size c1) Hadv Hs1) as [Hs2 Hq2].
    pose proof (advance_pending c1 (min_size c1) Hadv) as Hp2.
    set (c2 := advance c1 (min_size c1)) in *.
    assert (Hu2 : unread (_fd c2) = unread (_fd c1)) by reflexivity.
    destruct (search fuel c2 _) as [c3|] eqn:Es; [|discriminate].
    destruct (search_shape _ _ _ _ Es Hs2) as (Hs3 & Hq3 & Hw3).
    destruct (search_pending _ _ _ _ Es Hs2) as [Hp3 Hu3].
    assert (Hc4 : let c4 := if remaining c3 <=? window_size c3
                            then advance c3 (remaining c3) else c3 in
                  shape c4 /\
                  position c3 - last c3 <= position c4 - last c4 /\
                  pending c4 = pending c3 /\
                  unread (_fd c4) = unread (_fd c3)).
    { cbv zeta. destruct (remaining c3 <=? window_size c3).
      - destruct (advance_shape c3 (remaining c3) (le_n _) Hs3) as [Ha Hb].
        splits; [exact Ha|lia|apply advance_pending; lia|reflexivity].
      - splits; [exact Hs3|lia|reflexivity|reflexivity]. }
    cbv zeta in Hc4.
    set (c4 := if remaining c3 <=? window_size c3
               then advance c3 (remaining c3) else c3) in *.
    destruct Hc4 as (Hs4 & Hq4 & Hp4 & Hu4).
    pose proof Hs4 as (Hlast4 & Hfit4 & Hlen4 & Hmin4).
    pose proof Hs1 as (Hlast1 & Hfit1 & Hlen1 & Hmin1).
    injection H as _ <-. splits; [fields; lia| |reflexivity]. right.
    unfold pending in *. fields. lia.
Qed.

Lemma process_stop_done fuel c c' :
  process fuel c = Some (StopIteration, c') -> done c' = true.
Proof.
  intros H. unfold process in H.
  destruct (done c) eqn:Edone.
  { destruct (bytes_read c =? bytes_yielded c); [|discriminate].
    injection H as <-. exact Edone. }
  destruct (refill fuel c) as [c1|]; [|discriminate].
  destruct (eof c1).
  - destruct (negb _); [discriminate|].
    destruct (_ =? _); [|discriminate]. injection H as <-. reflexivity.
  - destruct (search fuel _ _); discriminate.
Qed.

Lemma drain_done zeros : forall fuel c chs c',
  drain zeros fuel c = Some (chs, None, c') -> done c' = true.
Proof.
  induction fuel as [|fuel IH]; intros c chs c' H; cbn [drain] in H;
    [discriminate|].
  unfold next in H.
  destruct (process (S fuel) c) as [[o c1]|] eqn:Ep; [|discriminate].
  destruct o as [d| |e1].
  - destruct (drain zeros fuel c1) as [[[chs1 e2] c2]|] eqn:Ed;
      [|discriminate].
    injection H as _ -> <-. eapply IH. exact Ed.
  - injection H as _ <-. eapply process_stop_done. exact Ep.
  - discriminate.
Qed.

(** Every run comes to its end, on any source: each pull returns, and
    a pull that returns a chunk leaves fewer bytes to deal with. *)
Lemma drain_total zeros : forall fuel n c,
  shape c -> position c = last c ->
  window_size c + min_size c + 1 <= buf_size c ->
  (if done c then 0 else pending c + 1) <= n ->
  n + unread (_fd c) + buf_size c + 3 <= fuel ->
  exists chs e c', drain zeros fuel c = Some (chs, e, c').
Proof.
  induction fuel as [|fuel IH]; intros n c Hs Hpl Hroom Hn Hfuel; [lia|].
  cbn [drain]. unfold next.
  destruct (process_total (S fuel) c Hs Hpl Hroom) as (o & c1 & Ep); [lia|].
  rewrite Ep. destruct o as [d| |e1]; [|do 3 eexists; reflexivity..].
  destruct (process_shape _ _ _ _ Hs Ep) as [_ Hs1].
  destruct (process_pending _ _ _ _ Hs Hpl Ep) as (Hd & Hu1 & Hp1 & Hpl1).
  pose proof (process_config _ _ _ _ Ep) as (_ & _ & Hm1 & Hb1 & Hw1).
  rewrite Hd in Hn.
  destruct (IH (n - 1) c1 Hs1 Hpl1) as (chs & e & c' & Hdr).
  - rewrite Hw1, Hm1, Hb1. exact Hroom.
  - destruct (done c1); [lia|]. destruct Hp1 as [Hp1|Hp1]; [discriminate|lia].
  - lia.
  - rewrite Hdr. do 3 eexists. reflexivity.
Qed.

(** *** The chunks are the stream, for every window *)

Lemma inv_shape S e c : chunker_inv S e c -> 1 <= min_size c -> shape c.
Proof.
  intros Hi Hmin. destruct Hi. unfold shape. splits; assumption.
Qed.

Lemma refill_inv S e : forall fuel c c',
  refill fuel c = Some c' -> chunker_inv S e c -> chunker_inv S e c'.
Proof.
  induction fuel as [|fuel IH]; intros c c' H Hi; cbn [refill] in H;
    [discriminate|].
  destruct (_ && _).
  - destruct (fill_spec S e c Hi) as (Hi1 & _). eapply IH; eassumption.
  - injection H as <-. exact Hi.
Qed.

Lemma search_inv S e : forall fuel c sum c',
  search fuel c sum = Some c' -> chunker_inv S e c ->
  (eof c = true -> remaining c <= window_size c) ->
  chunker_inv S e c' /\ (eof c' = true -> remaining c' <= window_size c').
Proof.
  induction fuel as [|fuel IH]; intros c sum c' H Hi He; cbn [search] in H;
    [discriminate|].
  destruct (Nat.ltb_spec (window_size c) (remaining c)) as [Hgt|Hle];
    cbn [andb] in H.
  2:{ injection H as <-. split; assumption. }
  destruct (masked c sum).
  2:{ injection H as <-. split; assumption. }
  pose proof (slide_bound c (position c + remaining c - window_size c
                             - position c) (position c) sum) as Hb.
  destruct (slide _ c (position c) sum) as [p' sum']. cbn [fst] in Hb.
  assert (Hdid : p' - position c <= remaining c) by lia.
  destruct (advance_inv S e c (p' - position c) Hdid Hi) as [Hi1 _].
  assert (Heof : eof c = false).
  { destruct (eof c); [specialize (He eq_refl); lia|reflexivity]. }
  set (c1 := advance c (p' - position c)) in *.
  assert (He1 : eof c1 = false) by exact Heof.
  assert (Hw1 : window_size c1 = window_size c) by reflexivity.
  destruct (Nat.leb_spec (remaining c1) (window_size c1)) as [Hsm|Hbg].
  - destruct (fill_spec S e c1 Hi1)
      as (Hi2 & (_ & _ & _ & _ & Hw2) & _ & _ & _ & _ & He2 & _).
    eapply IH; [exact H|exact Hi2|].
    intros E. rewrite (He2 E), Hw2. exact Hsm.
  - eapply IH; [exact H|exact Hi1|]. intros E. congruence.
Qed.

Lemma firstn_shorter (A : Type) (l l' : list A) n h :
  n <= h -> firstn h l = firstn h l' -> firstn n l = firstn n l'.
Proof.
  intros Hn H.
  rewrite <- (Nat.min_l n h Hn), <- !firstn_firstn, H. reflexivity.
Qed.

(** One pull between two chunks: the chunk it returns is what follows
    in the stream, and the pull that finds nothing left ends the run. *)
Lemma process_stream S e fuel c o c' :
  between_pulls S e c -> 1 <= min_size c ->
  process fuel c = Some (o, c') ->
  match o with
  | Yield d =>
      d = firstn (length d) (skipn e S) /\ e + length d <= length S /\
      (between_pulls S (e + length d) c' \/
       (finished c' /\ e + length d = length S))
  | StopIteration => e = length S /\ finished c'
  | Raise _ => False
  end.
Proof.
  intros (Hi & Hpl & Hdone & Hrem) Hmin H. unfold process in H.
  rewrite Hdone in H.
  pose proof (inv_shape S e c Hi Hmin) as Hs.
  destruct (refill fuel c) as [c1|] eqn:Er; [|discriminate].
  pose proof (refill_inv S e _ _ _ Er Hi) as Hi1.
  destruct (refill_shape _ _ _ Er Hs) as (Hs1 & Hq1 & Hw1 & Hm1 & Hex).
  destruct (refill_config _ _ _ Er) as [_ Hd1]. rewrite Hdone in Hd1.
  pose proof Hs1 as (Hlast1 & Hfit1 & Hlen1 & Hmin1).
  assert (Hpl1 : position c1 = last c1) by lia.
  assert (Hheld1 : held c1 = remaining c1) by (unfold held; lia).
  destruct (eof c1) eqn:Eeof1.
  - pose proof (ci_eof _ _ _ Hi1 Eeof1) as Hend.
    pose proof (ci_read _ _ _ Hi1) as Hread.
    pose proof (ci_yielded _ _ _ Hi1) as Hyield.
    pose proof (ci_held _ _ _ Hi1) as Hheld.
    rewrite Hheld1 in Hend, Hread, Hheld.
    fields.
    destruct (Nat.eqb_spec (remaining c1) 0) as [Hz|Hnz]; cbn [negb] in H.
    + replace (bytes_read c1 =? bytes_yielded c1) with true in H
        by (symmetry; apply Nat.eqb_eq; lia).
      injection H as <- <-. split; [lia|].
      unfold finished. fields. split; [reflexivity|lia].
    + injection H as <- <-. unfold view. fields.
      rewrite Hpl1, Hheld.
      assert (Hl : length (firstn (remaining c1) (skipn e S)) = remaining c1).
      { rewrite length_firstn, length_skipn. lia. }
      rewrite Hl. splits; [reflexivity|lia|]. right.
      unfold finished. fields. splits; [reflexivity|lia|lia].
  - specialize (Hex eq_refl). rewrite <- Hm1, <- Hw1 in Hex.
    assert (Hadv : min_size c1 <= remaining c1) by lia.
    destruct (advance_inv S e c1 (min_size c1) Hadv Hi1) as [Hi2 _].
    set (c2 := advance c1 (min_size c1)) in *.
    assert (He2 : eof c2 = false) by exact Eeof1.
    assert (Hd2 : done c2 = false) by exact Hd1.
    destruct (search fuel c2 _) as [c3|] eqn:Es; [|discriminate].
    destruct (search_inv S e _ _ _ _ Es Hi2) as [Hi3 He3];
      [intros E; congruence|].
    destruct (search_config _ _ _ _ Es) as [_ Hd3]. rewrite Hd2 in Hd3.
    assert (Hc4 : let c4 := if remaining c3 <=? window_size c3
                            then advance c3 (remaining c3) else c3 in
                  chunker_inv S e c4 /\ done c4 = false /\
                  (eof c4 = true -> remaining c4 = 0)).
    { cbv zeta.
      destruct (Nat.leb_spec (remaining c3) (window_size c3)) as [Hsm|Hbg].
      - destruct (advance_inv S e c3 (remaining c3) (le_n _) Hi3) as [Ha _].
        splits; [exact Ha|exact Hd3|]. intros _. fields. lia.
      - splits; [exact Hi3|exact Hd3|].
        intros E. specialize (He3 E). lia. }
    cbv zeta in Hc4.
    set (c4 := if remaining c3 <=? window_size c3
               then advance c3 (remaining c3) else c3) in *.
    destruct Hc4 as (Hi4 & Hd4 & He4).
    pose proof (emit_between S e c4 Hi4 Hd4 He4) as Hbt.
    pose proof (ci_held _ _ _ Hi4) as Hheld.
    pose proof (ci_bound _ _ _ Hi4) as Hbound.
    pose proof (ci_last _ _ _ Hi4) as Hlast4.
    pose proof (ci_fit _ _ _ Hi4) as Hfit4.
    pose proof (ci_len _ _ _ Hi4) as Hlen4.
    injection H as <- <-. unfold view. cbn [emit last data].
    set (n := position c4 - last c4) in *.
    assert (Hn : n <= held c4) by (unfold held; lia).
    rewrite (firstn_shorter _ _ _ n (held c4) Hn Hheld).
    assert (Hl : length (firstn n (skipn e S)) = n).
    { rewrite length_firstn, length_skipn. lia. }
    rewrite Hl. splits; [reflexivity|lia|]. left. exact Hbt.
Qed.

(** A run that starts between two chunks, when it returns: it ends
    without an error, and its chunks are the classified pieces of what
    was left of the stream. *)
Lemma drain_stream zeros S : forall fuel e c chs err c',
  between_pulls S e c -> 1 <= min_size c ->
  drain zeros fuel c = Some (chs, err, c') ->
  err = None /\
  exists blocks, chs = List.map (classify zeros) blocks /\
                 concat blocks = skipn e S.
Proof.
  induction fuel as [|fuel IH]; intros e c chs err c' Hbt Hmin H;
    cbn [drain] in H; [discriminate|].
  unfold next in H.
  destruct (process (Datatypes.S fuel) c) as [[o c1]|] eqn:Ep; [|discriminate].
  pose proof (process_stream S e _ _ _ _ Hbt Hmin Ep) as Ho.
  pose proof (process_config _ _ _ _ Ep) as (_ & _ & Hm1 & _).
  destruct o as [d| |e1]; [| |contradiction].
  - destruct (drain zeros fuel c1) as [[[chs1 e2] c2]|] eqn:Ed;
      [|discriminate].
    injection H as <- <- <-.
    destruct Ho as (Hd & Hle & [Hbt1|[Hfin Hend]]).
    + destruct (IH _ _ _ _ _ Hbt1 ltac:(lia) Ed) as (He & blocks & Hc & Hcat).
      split; [exact He|]. exists (d :: blocks).
      split; [cbn [List.map]; rewrite Hc; reflexivity|].
      cbn [concat]. rewrite Hcat.
      rewrite Hd at 1.
      replace (skipn (e + length d) S) with (skipn (length d) (skipn e S))
        by (rewrite skipn_skipn; f_equal; lia).
      apply firstn_skipn.
    + destruct fuel as [|fuel']; [discriminate|].
      rewrite drain_finished in Ed by exact Hfin.
      injection Ed as <- <- _. split; [reflexivity|].
      exists [d]. split; [reflexivity|].
      cbn [concat]. rewrite app_nil_r. rewrite Hd.
      apply firstn_all2. rewrite length_skipn. lia.
  - injection H as <- <- _. destruct Ho as [He _].
    split; [reflexivity|]. exists []. split; [reflexivity|].
    cbn [concat]. symmetry. apply skipn_all2. lia.
Qed.

(** Every chunker that the constructor builds, on every source with
    non-empty reads that is read from its start: the run ends without
    an error and its chunks are the classified pieces of the stream. *)
Lemma chunker_run zeros seed min_exp max_exp mask_bits W junk c f fuel :
  cinit zeros seed min_exp max_exp mask_bits W junk = Some c ->
  f_pos f = 0%N -> Forall (fun k => 0 < k) (f_caps f) ->
  2 * length (f_bytes f) + 2 ^ max_exp + 4 <= fuel ->
  exists blocks c',
    drain zeros fuel (chunkify c f)
    = Some (List.map (classify zeros) blocks, None, c') /\
    concat blocks = f_bytes f.
Proof.
  intros Hc Hp Hcaps Hfuel.
  destruct (cinit_spec _ _ _ _ _ _ _ _ Hc)
    as (Hmin & Hbuf & Hwin & Hlen & _ & Hroom & _).
  assert (Hm1 : 1 <= min_size c).
  { rewrite Hmin. pose proof (Nat.pow_nonzero 2 min_exp). lia. }
  pose proof (chunkify_between c f Hlen Hp Hcaps) as Hbt.
  pose proof (chunkify_shape c f Hlen Hm1) as Hs.
  destruct (drain_total zeros fuel (length (f_bytes f) + 1) (chunkify c f) Hs)
    as (chs & e & c' & Hd).
  - reflexivity.
  - cbn [chunkify window_size min_size buf_size]. rewrite Hwin. exact Hroom.
  - unfold pending, held, unread, chunkify. fields. rewrite Hp. cbn. lia.
  - unfold unread, chunkify. fields. rewrite Hp, Hbuf. cbn. lia.
  - destruct (drain_stream zeros (f_bytes f) _ _ _ _ _ _ Hbt Hm1 Hd)
      as (He & blocks & Hchs & Hcat).
    subst e chs. exists blocks, c'. split; [exact Hd|exact Hcat].
Qed.

End CdcRuns.

(** ** The three chunkers together *)

Module ChunkerFacts.
Import ListFacts Source ChunkDef ChunkFacts.
Local Open Scope nat_scope.

(** C9. Every chunk emitted by any of the three chunkers has a size
    strictly greater than 0.  For the fixed and the failing chunker
    this holds for every source, configuration and file map; for the
    content-defined chunker for every source and every chunker that
    [cinit] builds. *)
Theorem no_empty_chunk (zeros : list byte) :
  (forall fuel c fmap f chs e f',
     Fixed.chunkify zeros fuel c fmap f = Some (chs, e, f') ->
     Forall (fun ch => 0 < size ch) chs) /\
  (forall fuel g c f chs e c' f',
     Failing.drain fuel g c f = Some (chs, e, c', f') ->
     Forall (fun ch => 0 < size ch) chs) /\
  (forall seed min_exp max_exp mask_bits W junk c f fuel chs e c',
     Cdc.cinit zeros seed min_exp max_exp mask_bits W junk = Some c ->
     Cdc.drain zeros fuel (Cdc.chunkify c f) = Some (chs, e, c') ->
     Forall (fun ch => 0 < size ch) chs).
Proof.
  split; [|split].
  - intros fuel c fmap f chs e f'. apply FixedFacts.chunkify_nonempty.
  - apply FailingFacts.drain_nonempty.
  - intros seed min_exp max_exp mask_bits W junk c f fuel chs e c' Hc Hd.
    destruct (CdcFacts.cinit_spec _ _ _ _ _ _ _ _ Hc)
      as (Hmin & _ & _ & Hlen & _).
    eapply CdcFacts.drain_shape; [|exact Hd].
    apply CdcFacts.chunkify_shape; [exact Hlen|].
    rewrite Hmin. pose proof (Nat.pow_nonzero 2 min_exp). lia.
Qed.

(** C1 (as the code behaves).  The chunks rebuild the stream, and their
    sizes add up to its length, holes included, when the source is read
    from its start, by
    - the content-defined chunker, in every configuration [cinit]
      accepts, on a source whose reads return at least one byte until
      the stream has ended;
    - the fixed chunker, for every block size of at least one byte that
      the constructor accepts, every header size and [sparse] flag,
      without an external file map, on a file of at most [2^62] bytes
      with full reads, seeks that do not fail and holes that read as
      zeros;
    - the failing chunker with a block size of at least one byte and a
      non-empty map that holds [R]s only, on a source with full reads.
    In each case the run ends without an error. *)
Theorem chunks_rebuild_stream (zeros : list byte) :
  all_zero zeros = true ->
  (forall seed min_exp max_exp mask_bits W junk c f fuel,
     Cdc.cinit zeros seed min_exp max_exp mask_bits W junk = Some c ->
     f_pos f = 0%N -> Forall (fun k => 0 < k) (f_caps f) ->
     2 * length (f_bytes f) + 2 ^ max_exp + 4 <= fuel ->
     exists chs c',
       Cdc.drain zeros fuel (Cdc.chunkify c f) = Some (chs, None, c') /\
       rebuild_all chs = f_bytes f /\
       total_size chs = length (f_bytes f)) /\
  (forall has_seek_hole block_size header_size sparse c f fuel,
     Fixed.init zeros has_seek_hole block_size header_size sparse = Some c ->
     (0 < block_size)%N ->
     f_pos f = 0%N -> f_caps f = [] -> f_faults f = [] ->
     Fixed.holes_read_zero f -> (f_len f <= 2 ^ 62)%N ->
     length (f_bytes f) + 4 <= fuel ->
     exists chs f',
       Fixed.chunkify zeros fuel c None f = Some (chs, Fixed.Exhausted, f') /\
       rebuild_all chs = f_bytes f /\
       total_size chs = length (f_bytes f)) /\
  (forall block_size map c f fuel,
     Failing.init block_size map = inr c ->
     (0 < block_size)%N ->
     Failing.map c <> [] -> forallb Failing.is_R (Failing.map c) = true ->
     f_pos f = 0%N -> f_caps f = [] ->
     length (f_bytes f) + 2 <= fuel ->
     exists chs c' f',
       Failing.drain fuel Failing.chunkify c f = Some (chs, None, c', f') /\
       rebuild_all chs = f_bytes f /\
       total_size chs = length (f_bytes f)).
Proof.
  intros Hz. split; [|split].
  - intros seed min_exp max_exp mask_bits W junk c f fuel Hc Hp Hcaps Hfuel.
    destruct (CdcRuns.chunker_run zeros _ _ _ _ _ _ _ _ _ Hc Hp Hcaps Hfuel)
      as (blocks & c' & Hd & Hcat).
    eexists. exists c'. split; [exact Hd|].
    rewrite rebuild_all_classify by exact Hz.
    rewrite total_size_classify, Hcat.
    split; reflexivity.
  - intros hsh block_size header_size sparse c f fuel Hc Hbs Hp Hcaps Hf Hwf
           Hlen Hfuel.
    apply FixedFacts.chunkify_rebuilds; try assumption.
    unfold Fixed.init in Hc.
    destruct (block_size <=? N.of_nat (length zeros))%N; [|discriminate].
    injection Hc as <-. exact Hbs.
  - intros block_size map c f fuel Hc Hbs Hne HR Hp Hcaps Hfuel.
    apply FailingFacts.failing_rebuilds; try assumption.
    unfold Failing.init in Hc.
    destruct (negb _); [discriminate|]. injection Hc as <-. exact Hbs.
Qed.

Lemma chunks_rebuild_stream_witness :
  let zeros := repeat x00 64 in
  let stream := [
         xa5; x4d; xca; x18; x25; x30; xbb; x1d; x6d; x13; x2c; xde;
         xd6; x23; x7b; x2e; xd9; x1e; x3f; x72; x1f; xcb; x19; x71;
         x17; x44; x94; xd6; x49; x3c; x9d; x5c; x34; x60; xbe; x31;
         x20; x1e; x69; xfe; xda; xa0; xee; xe8; xb9; x99; x7f; x5c] in
  let sparse_bytes := [x01; x02; x03; x04; x05; x00; x00; x00; x00; x00;
                       x00; x07; x08] in
  let sparse_file :=
    mkfile sparse_bytes
           [false; false; false; false; false; true; true; true; true; true;
            true; false; false] 0 [] [] in
  (exists c,
     Cdc.cinit zeros 1 1 5 2 3 (fun _ => xff) = Some c /\
     exists chs c',
       Cdc.drain zeros 200
         (Cdc.chunkify c (mkfile stream [] 0 [5; 1; 9; 2; 7] []))
       = Some (chs, None, c') /\
       rebuild_all chs = stream /\ total_size chs = length stream) /\
  (exists c,
     Fixed.init zeros true 4 3 true = Some c /\
     exists chs f',
       Fixed.chunkify zeros 20 c None sparse_file
       = Some (chs, Fixed.Exhausted, f') /\
       rebuild_all chs = sparse_bytes /\
       total_size chs = length sparse_bytes) /\
  (exists c,
     Failing.init 4 "rR" = inr c /\
     exists chs c' f',
       Failing.drain 12 Failing.chunkify c
         (plain [x01; x02; x03; x04; x05; x06; x07; x08; x09])
       = Some (chs, None, c', f') /\
       rebuild_all chs = [x01; x02; x03; x04; x05; x06; x07; x08; x09] /\
       total_size chs = 9).
Proof.
  cbv zeta.
  destruct (chunks_rebuild_stream (repeat x00 64) eq_refl) as (H1 & H2 & H3).
  split; [|split].
  - eexists. split; [reflexivity|].
    eapply (H1 1%Z 1 5 2 3 (fun _ => xff)).
    + reflexivity.
    + reflexivity.
    + repeat (constructor; [lia|]). constructor.
    + cbn [f_bytes length]. change (2 ^ 5) with 32. lia.
  - eexists. split; [reflexivity|].
    eapply (H2 true 4%N 3%N true).
    + reflexivity.
    + lia.
    + reflexivity.
    + reflexivity.
    + reflexivity.
    + intros i. cbn [f_holes f_bytes].
      do 13 (destruct i as [|i];
             [cbn; intros H; first [discriminate H | split; [lia|reflexivity]]|]).
      destruct i; cbn; discriminate.
    + unfold f_len. cbn [f_bytes length]. lia.
    + cbn [f_bytes length]. lia.
  - eexists. split; [reflexivity|].
    eapply (H3 4%N "rR"%string).
    + reflexivity.
    + lia.
    + discriminate.
    + reflexivity.
    + reflexivity.
    + reflexivity.
    + cbn [plain f_bytes length]. lia.
Defined.

(** C1 as stated fails.  With the map [RE] and blocks of 4 bytes on the
    stream [01 .. 08], the only chunk the failing chunker ever emits
    holds the first four bytes; the second block is read and lost with
    the simulated error.  With the empty map the first block is read
    and the pull ends with [IndexError].  With a map of [R]s a read
    that returns fewer bytes than the block size is taken for the end
    of the source, by the failing and by the fixed chunker: of 9 bytes
    read as 4 and 2, 6 are emitted, and of 8 bytes whose first read
    returns 2, 2 are emitted.  The content-defined chunker takes a read
    of no bytes for the end of the source.  A fixed chunker that is
    handed a file map emits the ranges of the map and nothing else. *)
Lemma failing_map_loses_bytes :
  let c := Failing.mkFailing 4 ["R"; "E"]%char 0 in
  let stream := [x01; x02; x03; x04; x05; x06; x07; x08] in
  let chs := [mkChunk (Some [x01; x02; x03; x04]) 4 CH_DATA] in
  let stream9 := [x01; x02; x03; x04; x05; x06; x07; x08; x09] in
  let zeros := repeat x00 64 in
  Failing.init 4 "RE" = inr c /\
  (exists c' f',
     Failing.drain 5 Failing.chunkify c (plain stream)
     = Some (chs, Some (OSError EIO), c', f')) /\
  rebuild_all chs <> stream /\
  total_size chs <> length stream /\
  (exists c0 c' f',
     Failing.init 4 "" = inr c0 /\
     Failing.drain 5 Failing.chunkify c0 (plain stream)
     = Some ([], Some IndexError, c', f')) /\
  (exists c1 chs1 c' f',
     Failing.init 4 "R" = inr c1 /\
     Failing.drain 5 Failing.chunkify c1 (mkfile stream9 [] 0 [4; 2] [])
     = Some (chs1, None, c', f') /\
     rebuild_all chs1 = firstn 6 stream9 /\ total_size chs1 = 6) /\
  (exists c2 chs2 f',
     Fixed.init zeros true 4 0 false = Some c2 /\
     Fixed.chunkify zeros 20 c2 None (mkfile stream [] 0 [2] [])
     = Some (chs2, Fixed.Exhausted, f') /\
     rebuild_all chs2 = firstn 2 stream /\ total_size chs2 = 2) /\
  (exists c3 chs3 c',
     Cdc.cinit zeros 1 1 5 2 3 (fun _ => xff) = Some c3 /\
     Cdc.drain zeros 200 (Cdc.chunkify c3 (mkfile stream9 [] 0 [5; 0] []))
     = Some (chs3, None, c') /\
     rebuild_all chs3 = firstn 5 stream9 /\ total_size chs3 = 5) /\
  (exists c4 chs4 f',
     Fixed.init zeros true 4 0 false = Some c4 /\
     Fixed.chunkify zeros 20 c4 (Some [(0%N, 4%N, true)]) (plain stream)
     = Some (chs4, Fixed.Exhausted, f') /\
     rebuild_all chs4 = firstn 4 stream /\ total_size chs4 = 4).
Proof.
  cbv zeta. split; [reflexivity|].
  split; [do 2 eexists; reflexivity|].
  split; [discriminate|].
  split; [cbn; lia|].
  split; [do 3 eexists; split; reflexivity|].
  split; [do 4 eexists; split; [reflexivity|]; split; [reflexivity|];
          split; reflexivity|].
  split; [|split].
  - do 3 eexists. split; [reflexivity|].
    split; [vm_compute; reflexivity|]. split; reflexivity.
  - do 3 eexists. split; [reflexivity|].
    split; [vm_compute; reflexivity|]. split; reflexivity.
  - do 3 eexists. split; [reflexivity|].
    split; [vm_compute; reflexivity|]. split; reflexivity.
Qed.

(** A source whose seeks fail is outside the conditions above.  With a
    header and sparse handling, on a source whose seek for holes fails, the
    fallback to plain reading starts at the position the failed
    enumeration was started from, behind the header, which the seek
    back to 0 that follows the enumeration would have undone: the
    header block then holds the bytes behind the header, and the chunks
    are short of the stream by the header. *)
Example sparse_fallback_starts_behind_header :
  let c := Fixed.mkFixed 4 3 true in
  let stream := [x01; x02; x03; x04; x05; x06; x07; x08; x09; x0a] in
  let f := mkfile stream [] 0 [] [Some EINVAL] in
  exists f',
    Fixed.chunkify (repeat x00 64) 20 c None f
    = Some ([mkChunk (Some [x04; x05; x06]) 3 CH_DATA;
             mkChunk (Some [x07; x08; x09; x0a]) 4 CH_DATA],
            Fixed.Exhausted, f').
Proof.
  cbv zeta. eexists. vm_compute. reflexivity.
Qed.

Lemma no_empty_chunk_witness :
  Forall (fun ch => 0 < size ch)
    [mkChunk (Some [x01; x02; x03; x04]) 4 CH_DATA;
     mkChunk (Some [x05; x06; x07; x08]) 4 CH_DATA].
Proof.
  apply (proj1 (proj2 (no_empty_chunk []))
           3 Failing.chunkify (Failing.mkFailing 4 ["R"]%char 0)
           (plain [x01; x02; x03; x04; x05; x06; x07; x08])
           _ None
           (Failing.mkFailing 4 ["R"]%char 2)
           (mkfile [x01; x02; x03; x04; x05; x06; x07; x08] [] 8 [] [])).
  reflexivity.
Defined.

(** C5. For the content-defined chunker, and for the fixed chunker over
    a data range, each emitted chunk is what the classification makes
    of the bytes it covers: [ALLOC], without payload, if and only if
    these bytes are all zero, and [DATA] with the bytes as payload
    otherwise; its size is the number of these bytes.  The bytes covered
    are the blocks of the reference cut ([cuts], [fixed_blocks]), which
    do not look at the classification: with any other zero buffer
    [zeros'] in place of [zeros] the chunks end at the same offsets. *)
Theorem allocation_iff_all_zero (zeros : list byte) :
  all_zero zeros = true ->
  (forall seed min_exp max_exp mask_bits W junk c f fuel,
     Cdc.cinit zeros seed min_exp max_exp mask_bits W junk = Some c ->
     1 <= W -> f_pos f = 0%N -> Forall (fun k => 0 < k) (f_caps f) ->
     2 * length (f_bytes f) + 2 ^ max_exp + 4 <= fuel ->
     exists chs c',
       Cdc.drain zeros fuel (Cdc.chunkify c f) = Some (chs, None, c') /\
       Forall2 classified chs (CdcSpec.cuts c (f_bytes f)) /\
       concat (CdcSpec.cuts c (f_bytes f)) = f_bytes f /\
       forall zeros', exists chs' c'',
         Cdc.drain zeros' fuel (Cdc.chunkify c f) = Some (chs', None, c'') /\
         boundaries 0 chs' = boundaries 0 chs) /\
  (forall has_seek_hole block_size header_size sparse c f r fuel,
     Fixed.init zeros has_seek_hole block_size header_size sparse = Some c ->
     (0 < block_size)%N -> f_caps f = [] ->
     N.to_nat (N.min r (f_len f - f_pos f)) + 2 <= fuel ->
     exists chs st f',
       Fixed.chunk_range zeros fuel c true r (f_pos f) f
       = Some (chs, st, f') /\
       Forall2 classified chs
         (Fixed.fixed_blocks (N.to_nat block_size)
            (Fixed.segment f (f_pos f) r)) /\
       concat (Fixed.fixed_blocks (N.to_nat block_size)
                 (Fixed.segment f (f_pos f) r))
       = Fixed.segment f (f_pos f) r /\
       forall zeros', exists chs',
         Fixed.chunk_range zeros' fuel c true r (f_pos f) f
         = Some (chs', st, f') /\
         boundaries 0 chs' = boundaries 0 chs).
Proof.
  intros Hz. split.
  - intros seed min_exp max_exp mask_bits W junk c f fuel Hc HW Hp Hcaps Hfuel.
    pose proof (CdcFacts.cinit_valid _ _ _ _ _ _ _ _ Hc HW) as Hv.
    destruct (CdcFacts.cinit_spec _ _ _ _ _ _ _ _ Hc)
      as (_ & Hbuf & _ & Hlen & Hzl & _).
    destruct (CdcFacts.chunker_emits zeros c f fuel Hv Hlen Hp Hcaps)
      as (c' & Hd); [lia|].
    eexists. exists c'. split; [exact Hd|]. split; [|split].
    + apply Forall2_classify; [exact Hz|].
      destruct (CdcFacts.cut_upto_sizes c Hv (length (f_bytes f)) (f_bytes f)
                  (le_n _)) as [Hall _].
      eapply Forall_impl; [|exact Hall]. cbv beta. intros b Hb. lia.
    + apply CdcFacts.cut_upto_concat; [exact Hv|lia].
    + intros zeros'.
      destruct (CdcFacts.chunker_emits zeros' c f fuel Hv Hlen Hp Hcaps)
        as (c'' & Hd'); [lia|].
      eexists. exists c''. split; [exact Hd'|].
      apply boundaries_classify.
  - intros hsh block_size header_size sparse c f r fuel Hc Hbs Hcaps Hfuel.
    unfold Fixed.init in Hc.
    destruct (N.leb_spec block_size (N.of_nat (length zeros))) as [Hzl|];
      [|discriminate].
    injection Hc as <-.
    assert (Hbs' : 0 < N.to_nat block_size) by lia.
    do 3 eexists. split; [|split; [|split]].
    + apply FixedFacts.data_range; [exact Hbs|exact Hcaps|reflexivity|].
      exact Hfuel.
    + apply Forall2_classify; [exact Hz|].
      eapply Forall_impl; [|apply fixed_blocks_sizes; exact Hbs'].
      cbv beta. intros b Hb. lia.
    + apply fixed_blocks_concat. exact Hbs'.
    + intros zeros'. eexists. split.
      * apply FixedFacts.data_range; [exact Hbs|exact Hcaps|reflexivity|].
        exact Hfuel.
      * apply boundaries_classify.
Qed.

Lemma allocation_iff_all_zero_witness :
  let zeros := repeat x00 64 in
  let f := mkfile [x00; x00; x00; x00; x00; x00; x07; x08; x00; x00]
                  [] 0 [2; 3] [] in
  let g := plain [x00; x00; x00; x00; x00; x00; x07; x08; x00; x00] in
  (exists c,
     Cdc.cinit zeros 1 1 4 1 2 (fun _ => xff) = Some c /\
     exists chs c',
       Cdc.drain zeros 50 (Cdc.chunkify c f) = Some (chs, None, c') /\
       Forall2 classified chs (CdcSpec.cuts c (f_bytes f)) /\
       concat (CdcSpec.cuts c (f_bytes f)) = f_bytes f /\
       forall zeros', exists chs' c'',
         Cdc.drain zeros' 50 (Cdc.chunkify c f) = Some (chs', None, c'') /\
         boundaries 0 chs' = boundaries 0 chs) /\
  (exists c,
     Fixed.init zeros true 4 0 false = Some c /\
     exists chs st f',
       Fixed.chunk_range zeros 20 c true 10 (f_pos g) g
       = Some (chs, st, f') /\
       Forall2 classified chs
         (Fixed.fixed_blocks (N.to_nat 4) (Fixed.segment g (f_pos g) 10)) /\
       concat (Fixed.fixed_blocks (N.to_nat 4)
                 (Fixed.segment g (f_pos g) 10))
       = Fixed.segment g (f_pos g) 10 /\
       forall zeros', exists chs',
         Fixed.chunk_range zeros' 20 c true 10 (f_pos g) g
         = Some (chs', st, f') /\
         boundaries 0 chs' = boundaries 0 chs).
Proof.
  cbv zeta.
  destruct (allocation_iff_all_zero (repeat x00 64) eq_refl) as (H1 & H2).
  split.
  - eexists. split; [reflexivity|].
    eapply (H1 1%Z 1 4 1 2 (fun _ => xff)).
    + reflexivity.
    + lia.
    + reflexivity.
    + repeat (constructor; [lia|]). constructor.
    + cbn [f_bytes length]. change (2 ^ 4) with 16. lia.
  - eexists. split; [reflexivity|].
    eapply (H2 true 4%N 0%N false).
    + reflexivity.
    + lia.
    + reflexivity.
    + unfold f_len. cbn [plain f_bytes f_pos length]. lia.
Defined.

End ChunkerFacts.

(* ================================================================== *)
(** * Part III: further properties of the code *)
(* ================================================================== *)

(** ** The rotation and the seed *)

Module BuzhashMore.
Import Buzhash BuzhashFacts.

(** X1. On 32-bit values the macro is a rotation: its result fits 32
    bits, two rotations compose to the rotation by the sum of the
    amounts modulo 32, and rotating by [s] and then by [32 - s] (modulo
    32) gives the operand back. *)
Theorem BARREL_SHIFT_composes (v s t : Z) :
  is_u32 v -> 0 <= s < 32 -> 0 <= t < 32 ->
  is_u32 (BARREL_SHIFT v s) /\
  BARREL_SHIFT (BARREL_SHIFT v s) t = BARREL_SHIFT v ((s + t) mod 32) /\
  BARREL_SHIFT (BARREL_SHIFT v s) ((32 - s) mod 32) = v.
Proof.
  intros Hv Hs Ht. split; [|split].
  - apply is_u32_BARREL_SHIFT; assumption.
  - apply BARREL_SHIFT_compose; assumption.
  - rewrite BARREL_SHIFT_compose;
      [|assumption|assumption|apply Z.mod_pos_bound; lia].
    rewrite Z.add_mod_idemp_r by lia.
    replace (s + (32 - s)) with 32 by lia.
    change (32 mod 32) with 0. apply BARREL_SHIFT_0. exact Hv.
Qed.

Lemma BARREL_SHIFT_composes_witness :
  is_u32 (BARREL_SHIFT 0x80000001 5) /\
  BARREL_SHIFT (BARREL_SHIFT 0x80000001 5) 30
  = BARREL_SHIFT 0x80000001 ((5 + 30) mod 32) /\
  BARREL_SHIFT (BARREL_SHIFT 0x80000001 5) ((32 - 5) mod 32) = 0x80000001.
Proof.
  apply (BARREL_SHIFT_composes 0x80000001 5 30).
  - unfold is_u32. lia.
  - lia.
  - lia.
Defined.

(** *** The seed in the table *)

Lemma lxor_swap4 a b c d :
  Z.lxor (Z.lxor a b) (Z.lxor c d) = Z.lxor (Z.lxor a c) (Z.lxor b d).
Proof.
  apply Z.bits_inj'. intros i _. rewrite !Z.lxor_spec.
  destruct (Z.testbit a i), (Z.testbit b i), (Z.testbit c i),
    (Z.testbit d i); reflexivity.
Qed.

Lemma length_table_base : length table_base = 256%nat.
Proof. vm_compute. reflexivity. Qed.

Lemma tbl_init seed b :
  tbl (buzhash_init_table seed) b = Z.lxor (tbl table_base b) seed.
Proof.
  unfold tbl, buzhash_init_table.
  rewrite (nth_indep _ 0 (Z.lxor 0 seed)).
  - apply (map_nth (fun t => Z.lxor t seed)).
  - rewrite length_map, length_table_base.
    pose proof (Byte.to_nat_bounded b). lia.
Qed.

Lemma xor_all_app l1 l2 :
  xor_all (l1 ++ l2) = Z.lxor (xor_all l1) (xor_all l2).
Proof.
  induction l1 as [|x l1 IH]; cbn [app xor_all fold_right].
  - reflexivity.
  - fold (xor_all (l1 ++ l2)). fold (xor_all l1).
    rewrite IH, Z.lxor_assoc. reflexivity.
Qed.

Lemma seed_part_1 s : is_u32 s -> seed_part s 1 = s.
Proof.
  intros Hs. unfold seed_part. cbn [seq List.map xor_all fold_right].
  change (Z.land (Z.of_nat 0) 0x1f) with 0.
  rewrite BARREL_SHIFT_0 by exact Hs. apply Z.lxor_0_r.
Qed.

Lemma seed_part_S s n :
  seed_part s (S n) =
  Z.lxor (seed_part s n) (BARREL_SHIFT s (Z.land (Z.of_nat n) 0x1f)).
Proof.
  unfold seed_part. rewrite seq_S, map_app, xor_all_app.
  cbn [List.map xor_all fold_right Nat.add]. rewrite Z.lxor_0_r. reflexivity.
Qed.

(** A table that differs from [h] by the seed [s] in every entry hashes
    to the hash with [h], XORed with the share of the seed. *)
Lemma _buzhash_seeded h h' s :
  Forall is_u32 h -> is_u32 s ->
  (forall b, tbl h' b = Z.lxor (tbl h b) s) ->
  forall n data, Z.of_nat (S n) < 2 ^ 32 ->
  _buzhash data (S n) h' =
  Z.lxor (_buzhash data (S n) h) (seed_part s (S n)).
Proof.
  intros Hh Hs Ht. induction n as [|n IH]; intros data Hn.
  - rewrite !_buzhash_one, Ht, seed_part_1 by exact Hs. reflexivity.
  - rewrite !_buzhash_cons by exact Hn.
    rewrite IH by lia. rewrite Ht.
    rewrite BARREL_SHIFT_lxor;
      [|apply tbl_is_u32; exact Hh|exact Hs|apply land_0x1f_range].
    rewrite (seed_part_S s (S n)).
    rewrite lxor_swap4. f_equal. apply Z.lxor_comm.
Qed.

Lemma init_table_0 b : tbl (buzhash_init_table 0) b = tbl table_base b.
Proof. rewrite tbl_init. apply Z.lxor_0_r. Qed.

(** X2. The seed enters a hash as a constant: for data of at least one
    and fewer than [2^32] bytes and a seed in the range of
    [unsigned long], the hash of [data] under the seed is the hash under
    the seed 0, XORed with a word that depends on the seed and on the
    length of [data] only (the quirk the source notes: XORing the table
    by a constant XORs the hash by another constant). *)
Theorem buzhash_seed_is_xor_constant (data : list byte) (seed : Z) :
  (1 <= length data)%nat -> Z.of_nat (length data) < 2 ^ 32 ->
  0 <= seed < 2 ^ 64 ->
  exists h0,
    buzhash data 0 = Some h0 /\
    buzhash data seed =
    Some (Z.lxor h0 (seed_part (seed mod 2 ^ 32) (length data))).
Proof.
  intros H1 H2 Hs. rewrite !buzhash_in by lia.
  eexists. split; [reflexivity|]. f_equal.
  destruct (length data) as [|n] eqn:E; [lia|].
  rewrite seed_mask_mod. change (Z.land 0 0xffffffff) with 0.
  apply _buzhash_seeded.
  - apply init_table_is_u32. unfold is_u32. lia.
  - apply is_u32_u32.
  - intros b. rewrite init_table_0, tbl_init. reflexivity.
  - exact H2.
Qed.

Lemma buzhash_seed_is_xor_constant_witness :
  exists h0,
    buzhash [x11; x22; x33] 0 = Some h0 /\
    buzhash [x11; x22; x33] 0xdeadbeef =
    Some (Z.lxor h0
            (seed_part (0xdeadbeef mod 2 ^ 32) (length [x11; x22; x33]))).
Proof.
  apply (buzhash_seed_is_xor_constant [x11; x22; x33] 0xdeadbeef).
  - cbn [length]. lia.
  - cbn [length]. lia.
  - lia.
Defined.

(** *** Window sizes divisible by 64 *)

Lemma land_0x1f_shift i d :
  Z.land (Z.of_nat (i + 32 * d)) 0x1f = Z.land (Z.of_nat i) 0x1f.
Proof.
  rewrite !land_0x1f.
  replace (Z.of_nat (i + 32 * d)) with (Z.of_nat i + Z.of_nat d * 32) by lia.
  apply Z_mod_plus_full.
Qed.

Lemma map_rot_shift s d : forall n a,
  List.map (fun i => BARREL_SHIFT s (Z.land (Z.of_nat i) 0x1f))
           (seq (a + 32 * d) n)
  = List.map (fun i => BARREL_SHIFT s (Z.land (Z.of_nat i) 0x1f)) (seq a n).
Proof.
  induction n as [|n IH]; intros a; cbn [seq List.map]; [reflexivity|].
  rewrite land_0x1f_shift. f_equal. apply (IH (S a)).
Qed.

Lemma seed_part_add s n d :
  seed_part s (32 * d + n) = Z.lxor (seed_part s (32 * d)) (seed_part s n).
Proof.
  unfold seed_part. rewrite seq_app, map_app, xor_all_app.
  rewrite (map_rot_shift s d n 0). reflexivity.
Qed.

Lemma seed_part_64 s : forall k, seed_part s (64 * k) = 0.
Proof.
  induction k as [|k IH].
  - reflexivity.
  - replace (64 * S k)%nat with (32 * (2 * k) + 64)%nat by lia.
    rewrite seed_part_add.
    replace (32 * (2 * k))%nat with (64 * k)%nat by lia. rewrite IH.
    change 64%nat with (32 * 1 + 32)%nat. rewrite seed_part_add.
    change (32 * 1)%nat with 32%nat.
    rewrite Z.lxor_nilpotent. reflexivity.
Qed.

(** X3. With a window of a size divisible by 64 (and below [2^32])
    the seed cancels out of the hash (property 3 in the source): for
    every seed in the range of [unsigned long] the hash of a window and
    the rolling update return what they return for the seed 0. *)
Theorem buzhash_seed_cancels (W : nat) (seed : Z) :
  (0 < W)%nat -> (W mod 64 = 0)%nat -> Z.of_nat W < 2 ^ 32 ->
  0 <= seed < 2 ^ 64 ->
  (forall data, length data = W ->
     buzhash data seed = buzhash data 0 /\
     exists h, buzhash data seed = Some h) /\
  (forall sum remove add,
     buzhash_update sum remove add W seed
     = buzhash_update sum remove add W 0 /\
     (is_u32 sum ->
      exists h, buzhash_update sum remove add W seed = Some h)).
Proof.
  intros HW Hmod Hfit Hs.
  apply Nat.Div0.div_exact in Hmod.
  split.
  - intros data Hlen. rewrite !buzhash_in by lia.
    split; [|eexists; reflexivity]. f_equal. rewrite Hlen.
    rewrite seed_mask_mod. change (Z.land 0 0xffffffff) with 0.
    destruct W as [|n]; [lia|].
    rewrite (_buzhash_seeded (buzhash_init_table 0)
               (buzhash_init_table (seed mod 2 ^ 32)) (seed mod 2 ^ 32));
      [|apply init_table_is_u32; unfold is_u32; lia|apply is_u32_u32|
       intros b; rewrite init_table_0, tbl_init; reflexivity|exact Hfit].
    rewrite Hmod, seed_part_64. apply Z.lxor_0_r.
  - intros sum remove add. split.
    2:{ intros Hsum. rewrite buzhash_update_in by (assumption || lia).
        eexists. reflexivity. }
    unfold buzhash_update.
    destruct (as_unsigned 32 sum) as [sum'|]; [|reflexivity].
    destruct (as_unsigned 64 (Z.of_nat W)); [|reflexivity].
    rewrite !as_unsigned_in by lia. f_equal.
    unfold _buzhash_update.
    rewrite seed_mask_mod. change (Z.land 0 0xffffffff) with 0.
    rewrite !init_table_0, !tbl_init.
    assert (Hl : Z.land (Z.of_nat W) 0x1f = 0).
    { rewrite Hmod.
      replace (64 * (W / 64))%nat with (0 + 32 * (2 * (W / 64)))%nat by lia.
      rewrite land_0x1f_shift. reflexivity. }
    rewrite Hl.
    rewrite !BARREL_SHIFT_0.
    + rewrite <- !Z.lxor_assoc.
      rewrite (Z.lxor_assoc _ (seed mod 2 ^ 32) (tbl table_base add)).
      rewrite (Z.lxor_comm (seed mod 2 ^ 32) (tbl table_base add)).
      rewrite <- !Z.lxor_assoc.
      rewrite (Z.lxor_assoc _ (seed mod 2 ^ 32) (seed mod 2 ^ 32)).
      rewrite Z.lxor_nilpotent, Z.lxor_0_r. reflexivity.
    + apply tbl_is_u32, table_base_is_u32.
    + apply is_u32_lxor; [apply tbl_is_u32, table_base_is_u32|apply is_u32_u32].
Qed.

Lemma buzhash_seed_cancels_witness :
  (forall data, length data = 64%nat ->
     buzhash data 0x12345678 = buzhash data 0 /\
     exists h, buzhash data 0x12345678 = Some h) /\
  (forall sum remove add,
     buzhash_update sum remove add 64 0x12345678
     = buzhash_update sum remove add 64 0 /\
     (is_u32 sum ->
      exists h, buzhash_update sum remove add 64 0x12345678 = Some h)).
Proof.
  apply (buzhash_seed_cancels 64 0x12345678).
  - lia.
  - reflexivity.
  - lia.
  - lia.
Defined.

(** *** Equal bytes at distance 32 *)

Lemma hash_of_cons h x rest :
  Forall is_u32 h -> Z.of_nat (S (length rest)) < 2 ^ 32 ->
  hash_of h (x :: rest) =
  Z.lxor (BARREL_SHIFT (tbl h x) (Z.land (Z.of_nat (length rest)) 0x1f))
         (hash_of h rest).
Proof.
  intros Hh Hfit. unfold hash_of at 1. cbn [length].
  destruct rest as [|y rest'].
  - rewrite _buzhash_one. cbn [deref hd hash_of length].
    change (Z.land (Z.of_nat 0) 0x1f) with 0.
    rewrite BARREL_SHIFT_0 by (apply tbl_is_u32; exact Hh).
    rewrite Z.lxor_0_r. reflexivity.
  - cbn [length] in *. rewrite _buzhash_cons by exact Hfit.
    reflexivity.
Qed.

Lemma lxor_move a b c d :
  Z.lxor a b = Z.lxor c d -> a = Z.lxor (Z.lxor c d) b.
Proof.
  intros H. rewrite <- H, Z.lxor_assoc, Z.lxor_nilpotent, Z.lxor_0_r.
  reflexivity.
Qed.

Lemma lxor_pair_cancels rx ry g gm :
  Z.lxor rx (Z.lxor (Z.lxor gm (Z.lxor ry g)) (Z.lxor rx g)) = Z.lxor ry gm.
Proof.
  apply Z.bits_inj'. intros i _. rewrite !Z.lxor_spec.
  destruct (Z.testbit rx i), (Z.testbit ry i), (Z.testbit g i),
    (Z.testbit gm i); reflexivity.
Qed.

(** What a prefix adds to a hash depends on the prefix and on the
    length of what follows, not on the bytes that follow. *)
Lemma hash_of_app_swap h : Forall is_u32 h -> forall m t t',
  length t = length t' -> Z.of_nat (length (m ++ t)) < 2 ^ 32 ->
  Z.lxor (hash_of h (m ++ t)) (hash_of h t)
  = Z.lxor (hash_of h (m ++ t')) (hash_of h t').
Proof.
  intros Hh. induction m as [|x m IH]; intros t t' Hl Hfit.
  - cbn [app]. rewrite !Z.lxor_nilpotent. reflexivity.
  - cbn [app length] in *.
    rewrite !hash_of_cons;
      try assumption; try (rewrite !length_app in *; lia).
    rewrite !length_app, Hl.
    rewrite !Z.lxor_assoc. f_equal. apply IH; [exact Hl|lia].
Qed.

Lemma buzhash_hash_of data seed :
  data <> [] -> 0 <= seed < 2 ^ 64 ->
  buzhash data seed
  = Some (hash_of (buzhash_init_table (Z.land seed 0xffffffff)) data).
Proof.
  intros H Hs. rewrite buzhash_in by exact Hs.
  destruct data; [congruence|reflexivity].
Qed.

(** X23. Equal bytes at a distance of 32 cancel (property 1 in the
    source): in a byte string [.. X <31 bytes> X ..] of fewer than
    [2^32] bytes the two [X] add nothing to the hash, so replacing both
    by any other byte leaves the hash as it is, for every seed in the
    range of [unsigned long]. *)
Theorem buzhash_distance_32_cancels (a m b : list byte) (x y : byte)
  (seed : Z) :
  length m = 31%nat ->
  Z.of_nat (length (a ++ x :: m ++ x :: b)) < 2 ^ 32 ->
  0 <= seed < 2 ^ 64 ->
  exists h,
    buzhash (a ++ x :: m ++ x :: b) seed = Some h /\
    buzhash (a ++ y :: m ++ y :: b) seed = Some h.
Proof.
  intros Hm Hfit Hs.
  rewrite !buzhash_hash_of by (exact Hs || (destruct a; discriminate)).
  eexists. split; [reflexivity|]. f_equal. symmetry.
  set (h := buzhash_init_table (Z.land seed 0xffffffff)).
  assert (Hh : Forall is_u32 h)
    by (apply init_table_is_u32, seed_mask_is_u32).
  assert (Hlen : forall z, length (a ++ z :: m ++ z :: b)
                           = (length a + (33 + length b))%nat).
  { intros z. rewrite length_app. cbn [length]. rewrite length_app.
    cbn [length]. lia. }
  rewrite Hlen in Hfit.
  assert (Hmid : forall z,
            hash_of h (z :: m ++ z :: b) =
            Z.lxor (BARREL_SHIFT (tbl h z)
                      (Z.land (Z.of_nat (length b)) 0x1f))
                   (hash_of h (m ++ z :: b))).
  { intros z. rewrite hash_of_cons;
      [|exact Hh|rewrite length_app; cbn [length]; lia].
    rewrite length_app. cbn [length]. rewrite Hm.
    replace (31 + S (length b))%nat with (length b + 32 * 1)%nat by lia.
    rewrite land_0x1f_shift. reflexivity. }
  assert (Hend : forall z,
            hash_of h (z :: b) =
            Z.lxor (BARREL_SHIFT (tbl h z)
                      (Z.land (Z.of_nat (length b)) 0x1f))
                   (hash_of h b))
    by (intros z; apply hash_of_cons; [exact Hh|lia]).
  assert (Hsw : Z.lxor (hash_of h (m ++ x :: b)) (hash_of h (x :: b))
                = Z.lxor (hash_of h (m ++ y :: b)) (hash_of h (y :: b))).
  { apply hash_of_app_swap; [exact Hh|reflexivity|].
    rewrite length_app. cbn [length]. lia. }
  assert (Hcore : hash_of h (x :: m ++ x :: b) = hash_of h (y :: m ++ y :: b)).
  { rewrite !Hmid. apply lxor_move in Hsw. rewrite Hsw, !Hend.
    apply lxor_pair_cancels. }
  pose proof (hash_of_app_swap h Hh a (x :: m ++ x :: b) (y :: m ++ y :: b))
    as Hpre.
  rewrite Hcore in Hpre.
  specialize (Hpre ltac:(cbn [length]; rewrite !length_app; reflexivity)
                   ltac:(rewrite Hlen; exact Hfit)).
  apply lxor_move in Hpre.
  rewrite Hpre, Z.lxor_assoc, Z.lxor_nilpotent, Z.lxor_0_r. reflexivity.
Qed.

Lemma buzhash_distance_32_cancels_witness :
  let m := [x01; x02; x03; x04; x05; x06; x07; x08; x09; x0a; x0b; x0c;
            x0d; x0e; x0f; x10; x11; x12; x13; x14; x15; x16; x17; x18;
            x19; x1a; x1b; x1c; x1d; x1e; x1f] in
  exists h,
    buzhash ([xaa; xbb] ++ x41 :: m ++ x41 :: [xcc]) 5 = Some h /\
    buzhash ([xaa; xbb] ++ x5a :: m ++ x5a :: [xcc]) 5 = Some h.
Proof.
  cbv zeta.
  apply (buzhash_distance_32_cancels [xaa; xbb]
           [x01; x02; x03; x04; x05; x06; x07; x08; x09; x0a; x0b; x0c;
            x0d; x0e; x0f; x10; x11; x12; x13; x14; x15; x16; x17; x18;
            x19; x1a; x1b; x1c; x1d; x1e; x1f] [xcc] x41 x5a 5).
  - reflexivity.
  - cbn [length app]. lia.
  - lia.
Defined.

End BuzhashMore.

(** ** The failing chunker: construction, counting, the first error *)

Module FailingMore.
Import ListFacts Source SourceFacts ChunkDef ChunkFacts Failing FailingFacts.
Local Open Scope nat_scope.

(** *** Construction *)

Lemma upper_accepts (ch : ascii) :
  is_R (upper_ascii ch) || is_E (upper_ascii ch) =
  (Ascii.eqb ch "r" || Ascii.eqb ch "R" || Ascii.eqb ch "e"
   || Ascii.eqb ch "E")%char.
Proof.
  destruct ch as [[] [] [] [] [] [] [] []]; vm_compute; reflexivity.
Qed.

Lemma accepts_iff (ch : ascii) :
  is_R (upper_ascii ch) || is_E (upper_ascii ch) = true <->
  (ch = "r" \/ ch = "R" \/ ch = "e" \/ ch = "E")%char.
Proof.
  rewrite upper_accepts, !orb_true_iff, !Ascii.eqb_eq. tauto.
Qed.

Lemma forallb_List_map {A B} (p : B -> bool) (g : A -> B) l :
  forallb p (List.map g l) = forallb (fun x => p (g x)) l.
Proof.
  induction l as [|x l IH]; cbn [List.map forallb]; [reflexivity|].
  rewrite IH. reflexivity.
Qed.

(** X4. The constructor accepts a map exactly when each of its
    characters is one of [r], [R], [e], [E]; it then stores the map in
    upper case with the count 0.  Any other map raises [ValueError].
    The empty map is accepted. *)
Theorem failing_init_accepts (bs : N) (m : string) :
  (Forall (fun ch => ch = "r" \/ ch = "R" \/ ch = "e" \/ ch = "E")%char
          (list_ascii_of_string m) ->
   init bs m = inr (mkFailing bs (upper (list_ascii_of_string m)) 0)) /\
  (~ Forall (fun ch => ch = "r" \/ ch = "R" \/ ch = "e" \/ ch = "E")%char
            (list_ascii_of_string m) ->
   init bs m = inl ValueError).
Proof.
  unfold init, upper. rewrite forallb_List_map.
  destruct (forallb _ (list_ascii_of_string m)) eqn:E; cbn [negb].
  - split; [reflexivity|]. intros Hn. exfalso. apply Hn.
    rewrite forallb_forall in E. apply Forall_forall. intros ch Hch.
    apply accepts_iff, E, Hch.
  - split; [|reflexivity]. intros Hall. exfalso.
    assert (Ht : forallb (fun ch => is_R (upper_ascii ch)
                                    || is_E (upper_ascii ch))
                   (list_ascii_of_string m) = true).
    { apply forallb_forall. intros ch Hch. apply accepts_iff.
      rewrite Forall_forall in Hall. apply Hall, Hch. }
    congruence.
Qed.

Lemma failing_init_accepts_witness :
  init 4 "rEeR" = inr (mkFailing 4 ["R"; "E"; "E"; "R"]%char 0) /\
  init 4 "rxR" = inl ValueError.
Proof.
  split.
  - apply (proj1 (failing_init_accepts 4 "rEeR")).
    repeat constructor; tauto.
  - apply (proj2 (failing_init_accepts 4 "rxR")).
    intros H. inversion H as [|? ? _ H']. inversion H' as [|? ? Hx _].
    destruct Hx as [Hx|[Hx|[Hx|Hx]]]; discriminate Hx.
Defined.

(** X5. A chunker built with the empty map fails on its first block:
    the pull that reads at least one byte raises [IndexError] (from
    [self.map[-1]]) and leaves the count as it was; the bytes read are
    consumed. *)
Theorem failing_empty_map (bs : N) (fuel : nat) (f : file) :
  0 < fuel -> fst (read f bs) <> [] ->
  init bs "" = inr (mkFailing bs [] 0) /\
  next fuel chunkify (mkFailing bs [] 0) f =
  Some (Raise IndexError, Finished, mkFailing bs [] 0, snd (read f bs)).
Proof.
  intros Hfuel Hne. split; [reflexivity|].
  destruct fuel as [|fuel]; [lia|].
  unfold chunkify. cbn [next loop block_size].
  destruct (read f bs) as [data f1]. cbn [fst snd] in *.
  destruct data as [|b data]; [congruence|].
  cbn [length]. rewrite Nat2N.inj_succ.
  destruct (N.ltb_spec 0 (N.succ (N.of_nat (length data)))); [|lia].
  reflexivity.
Qed.

Lemma failing_empty_map_witness :
  init 4 "" = inr (mkFailing 4 [] 0) /\
  next 1 chunkify (mkFailing 4 [] 0) (plain [x01; x02; x03; x04; x05]) =
  Some (Raise IndexError, Finished, mkFailing 4 [] 0,
        snd (read (plain [x01; x02; x03; x04; x05]) 4)).
Proof.
  apply (failing_empty_map 4 1 (plain [x01; x02; x03; x04; x05])).
  - lia.
  - discriminate.
Defined.

(** *** The block counter *)

Lemma loop_count : forall fuel c f o g c' f',
  loop fuel c f = Some (o, g, c', f') ->
  block_size c' = block_size c /\ map c' = map c /\
  count c' = count c + match o with
                       | Yield _ | Raise (OSError _) => 1
                       | _ => 0
                       end.
Proof.
  induction fuel as [|fuel IH]; intros c f o g c' f' H; cbn [loop] in H;
    [discriminate|].
  destruct (read f (block_size c)) as [block f1].
  destruct (0 <? N.of_nat (length block))%N.
  - destruct (behaviour c) as [b|].
    + destruct (is_E b); [|destruct (is_R b)];
        injection H as <- <- <- <-; cbn [bump block_size map count];
        repeat split; lia.
    + injection H as <- <- <- <-. repeat split; lia.
  - destruct (N.of_nat (length block) <? block_size c)%N.
    + injection H as <- <- <- <-. repeat split; lia.
    + eapply IH. exact H.
Qed.

Lemma next_count fuel g c f o g' c' f' :
  next fuel g c f = Some (o, g', c', f') ->
  block_size c' = block_size c /\ map c' = map c /\
  count c' = count c + match o with
                       | Yield _ | Raise (OSError _) => 1
                       | _ => 0
                       end.
Proof.
  destruct g as [|got wanted|]; cbn [next]; intros H.
  - eapply loop_count. exact H.
  - destruct (got <? wanted)%N.
    + injection H as <- <- <- <-. repeat split; lia.
    + eapply loop_count. exact H.
  - injection H as <- <- <- <-. repeat split; lia.
Qed.

(** X6. The chunker counts the blocks it has dealt with: over any run
    of a generator, whatever the source and the map, [count] grows by
    one for each chunk emitted and by one more when the run ends with
    the simulated I/O error; block size and map do not change.  The
    count is kept in the chunker object, so it carries over to the next
    call of [chunkify]. *)
Theorem failing_count_advances : forall fuel g c f chs e c' f',
  drain fuel g c f = Some (chs, e, c', f') ->
  block_size c' = block_size c /\ map c' = map c /\
  count c' = count c + length chs + match e with
                                    | Some (OSError _) => 1
                                    | _ => 0
                                    end.
Proof.
  induction fuel as [|fuel IH]; intros g c f chs e c' f' H;
    [discriminate|].
  rewrite failing_drain_unfold in H.
  destruct (next (S fuel) g c f) as [[[[o g1] c1] f1]|] eqn:En;
    [|discriminate].
  apply next_count in En. destruct En as (Hb & Hm & Hc).
  destruct o as [ch| |e1].
  - destruct (drain fuel g1 c1 f1) as [[[[chs1 e2] c2] f2]|] eqn:Ed;
      [|discriminate].
    injection H as <- <- <- <-.
    apply IH in Ed. destruct Ed as (Hb2 & Hm2 & Hc2).
    cbn [length]. repeat split; try congruence. lia.
  - injection H as <- <- <- <-. cbn [length]. repeat split; try congruence.
    lia.
  - injection H as <- <- <- <-. cbn [length]. repeat split; try congruence.
    destruct e1; lia.
Qed.

Lemma failing_count_advances_witness :
  exists chs e c' f',
    drain 5 chunkify (mkFailing 4 ["R"; "E"]%char 0)
          (plain [x01; x02; x03; x04; x05; x06; x07; x08])
    = Some (chs, e, c', f') /\
    block_size c' = 4%N /\ map c' = ["R"; "E"]%char /\
    count c' = 0 + length chs + match e with
                                | Some (OSError _) => 1
                                | _ => 0
                                end.
Proof.
  do 4 eexists. split; [reflexivity|].
  eapply (failing_count_advances 5 chunkify (mkFailing 4 ["R"; "E"]%char 0)
            (plain [x01; x02; x03; x04; x05; x06; x07; x08])).
  reflexivity.
Defined.

(** *** Up to the first error *)

Lemma loop_block fuel c f :
  (0 < block_size c)%N -> f_caps f = [] ->
  let block := firstn (N.to_nat (block_size c))
                      (skipn (N.to_nat (f_pos f)) (f_bytes f)) in
  let f1 := set_pos f (f_pos f + N.of_nat (length block)) in
  loop (S fuel) c f =
  if (0 <? N.of_nat (length block))%N then
    match behaviour c with
    | None => Some (Raise IndexError, Finished, c, f1)
    | Some b =>
        if is_E b then Some (Raise (OSError EIO), Finished, bump c, f1)
        else if is_R b then
          Some (Yield (mkChunk (Some block) (length block) CH_DATA),
                AtYield (N.of_nat (length block)) (block_size c), bump c, f1)
        else Some (Raise ValueError, Finished, c, f1)
    end
  else Some (StopIteration, Finished, c, f1).
Proof.
  intros Hbs Hcaps block f1. cbn [loop].
  rewrite read_full by exact Hcaps. fold block. fold f1.
  destruct (N.ltb_spec 0 (N.of_nat (length block))) as [Hpos|Hz];
    [reflexivity|].
  destruct (N.ltb_spec (N.of_nat (length block)) (block_size c));
    [reflexivity|lia].
Qed.

Lemma drain_to_E : forall j fuel g c f,
  (0 < block_size c)%N -> f_caps f = [] ->
  (g = Created \/ g = AtYield (block_size c) (block_size c)) ->
  let bs := N.to_nat (block_size c) in
  let rest := skipn (N.to_nat (f_pos f)) (f_bytes f) in
  j < length (Fixed.fixed_blocks bs rest) ->
  (forall i, i < j ->
     behaviour (mkFailing (block_size c) (map c) (count c + i))
     = Some "R"%char) ->
  behaviour (mkFailing (block_size c) (map c) (count c + j))
  = Some "E"%char ->
  j + 1 <= fuel ->
  exists f',
    drain fuel g c f =
    Some (data_chunks (firstn j (Fixed.fixed_blocks bs rest)),
          Some (OSError EIO),
          mkFailing (block_size c) (map c) (count c + j + 1), f') /\
    f_bytes f' = f_bytes f /\
    f_pos f' =
    (f_pos f + N.of_nat (length (concat (firstn (j + 1)
                                   (Fixed.fixed_blocks bs rest)))))%N.
Proof.
  induction j as [|j IH]; intros fuel g c f Hbs Hcaps Hg bs rest Hj HR HE
    Hfuel.
  - destruct fuel as [|fuel]; [lia|]. rewrite failing_drain_unfold.
    assert (Hn : next (S fuel) g c f = loop (S fuel) c f).
    { destruct Hg as [->| ->]; cbn [next]; [reflexivity|].
      rewrite N.ltb_irrefl. reflexivity. }
    rewrite Hn, loop_block by assumption. fold bs. fold rest.
    assert (Hrest : rest <> []).
    { intros E. rewrite E in Hj. cbn in Hj. lia. }
    rewrite fixed_blocks_cons by (subst bs; lia || exact Hrest).
    rewrite fixed_blocks_cons in Hj by (subst bs; lia || exact Hrest).
    set (block := firstn bs rest).
    assert (Hlen : 0 < length block).
    { subst block. rewrite length_firstn.
      destruct rest; [congruence|]. cbn [length]. subst bs. lia. }
    destruct (N.ltb_spec 0 (N.of_nat (length block))); [|lia].
    replace (count c + 0) with (count c) in HE by lia.
    replace (mkFailing (block_size c) (map c) (count c)) with c in HE
      by (destruct c; reflexivity).
    rewrite HE. cbn [is_E Ascii.eqb Bool.eqb andb].
    eexists. split; [|split].
    + unfold bump. replace (count c + 0 + 1) with (S (count c)) by lia.
      reflexivity.
    + reflexivity.
    + cbn [set_pos f_pos Nat.add firstn concat]. rewrite app_nil_r.
      reflexivity.
  - destruct fuel as [|fuel]; [lia|]. rewrite failing_drain_unfold.
    assert (Hn : next (S fuel) g c f = loop (S fuel) c f).
    { destruct Hg as [->| ->]; cbn [next]; [reflexivity|].
      rewrite N.ltb_irrefl. reflexivity. }
    rewrite Hn, loop_block by assumption. fold bs. fold rest.
    assert (Hrest : rest <> []).
    { intros E. rewrite E in Hj. cbn in Hj. lia. }
    assert (Hbs' : 0 < bs) by (subst bs; lia).
    rewrite fixed_blocks_cons in Hj |- * by assumption.
    set (block := firstn bs rest) in *.
    cbn [length] in Hj.
    assert (Hrest2 : skipn bs rest <> []).
    { intros E. rewrite E in Hj. cbn in Hj. lia. }
    assert (Hfull : length block = bs).
    { subst block. rewrite length_firstn.
      assert (bs < length rest); [|lia].
      destruct (Nat.lt_ge_cases bs (length rest)) as [|Hge]; [assumption|].
      exfalso. apply Hrest2. apply skipn_all2. exact Hge. }
    destruct (N.ltb_spec 0 (N.of_nat (length block))); [|lia].
    pose proof (HR 0 ltac:(lia)) as HR0.
    replace (count c + 0) with (count c) in HR0 by lia.
    replace (mkFailing (block_size c) (map c) (count c)) with c in HR0
      by (destruct c; reflexivity).
    rewrite HR0. cbn [is_E is_R Ascii.eqb Bool.eqb andb].
    set (f1 := set_pos f (f_pos f + N.of_nat (length block))).
    assert (Hrest1 : skipn (N.to_nat (f_pos f1)) (f_bytes f1) = skipn bs rest).
    { subst f1 rest. cbn [set_pos f_pos f_bytes]. rewrite Hfull.
      rewrite skipn_skipn. f_equal. lia. }
    destruct (IH fuel (AtYield (N.of_nat (length block)) (block_size c))
                (bump c) f1) as (f' & Hd & Hb & Hp).
    + exact Hbs.
    + exact Hcaps.
    + right. cbn [bump block_size]. rewrite Hfull. subst bs.
      rewrite N2Nat.id. reflexivity.
    + cbn [bump block_size]. fold bs. rewrite Hrest1. lia.
    + intros i Hi. cbn [bump block_size map count].
      replace (S (count c) + i) with (count c + S i) by lia.
      apply HR. lia.
    + cbn [bump block_size map count].
      replace (S (count c) + j) with (count c + S j) by lia. exact HE.
    + lia.
    + cbn [bump block_size map count] in Hd, Hp. fold bs in Hd, Hp.
      rewrite Hrest1 in Hd, Hp. rewrite Hd.
      eexists. split; [|split].
      * replace (S (count c) + j + 1) with (count c + S j + 1) by lia.
        reflexivity.
      * exact Hb.
      * rewrite Hp. subst f1. cbn [set_pos f_pos Nat.add firstn concat].
        rewrite length_app. fold block. lia.
Qed.

(** X7. The chunker up to its first error.  On a source with full
    reads, read from its start, when the map says [R] for the next [j]
    blocks and [E] for the block after them, and the source has that
    block, the run emits the first [j] blocks as [DATA] chunks and then
    raises [OSError(EIO)]; the failed block has been read and is lost,
    the source is positioned behind it, and the count has advanced by
    [j + 1]. *)
Theorem failing_fails_at_first_E (c : ChunkerFailing) (f : file)
  (j fuel : nat) :
  (0 < block_size c)%N -> f_caps f = [] -> f_pos f = 0%N ->
  j < length (Fixed.fixed_blocks (N.to_nat (block_size c)) (f_bytes f)) ->
  (forall i, i < j ->
     behaviour (mkFailing (block_size c) (map c) (count c + i))
     = Some "R"%char) ->
  behaviour (mkFailing (block_size c) (map c) (count c + j))
  = Some "E"%char ->
  j + 1 <= fuel ->
  exists f',
    drain fuel chunkify c f =
    Some (data_chunks
            (firstn j (Fixed.fixed_blocks (N.to_nat (block_size c))
                         (f_bytes f))),
          Some (OSError EIO),
          mkFailing (block_size c) (map c) (count c + j + 1), f') /\
    f_bytes f' = f_bytes f /\
    f_pos f' =
    N.of_nat (length (concat
      (firstn (j + 1) (Fixed.fixed_blocks (N.to_nat (block_size c))
                         (f_bytes f))))).
Proof.
  intros Hbs Hcaps Hpos Hj HR HE Hfuel.
  destruct (drain_to_E j fuel chunkify c f Hbs Hcaps (or_introl eq_refl))
    as (f' & Hd & Hb & Hp); rewrite ?Hpos; cbn [N.to_nat skipn];
    try assumption.
  rewrite Hpos in Hd, Hp. cbn [N.to_nat skipn] in Hd, Hp.
  exists f'. repeat split; assumption.
Qed.

Lemma failing_fails_at_first_E_witness :
  let c := mkFailing 2 ["R"; "R"; "E"; "R"]%char 0 in
  let f := plain [x01; x02; x03; x04; x05; x06; x07] in
  exists f',
    drain 3 chunkify c f =
    Some (data_chunks (firstn 2 (Fixed.fixed_blocks 2 (f_bytes f))),
          Some (OSError EIO), mkFailing 2 ["R"; "R"; "E"; "R"]%char 3, f') /\
    f_bytes f' = f_bytes f /\
    f_pos f' =
    N.of_nat (length (concat (firstn 3 (Fixed.fixed_blocks 2 (f_bytes f))))).
Proof.
  cbv zeta.
  apply (failing_fails_at_first_E (mkFailing 2 ["R"; "R"; "E"; "R"]%char 0)
           (plain [x01; x02; x03; x04; x05; x06; x07]) 2 3).
  - reflexivity.
  - reflexivity.
  - reflexivity.
  - apply Nat.ltb_lt. reflexivity.
  - intros i Hi. destruct i as [|[|i]]; [reflexivity|reflexivity|lia].
  - reflexivity.
  - lia.
Defined.

End FailingMore.

(** ** The file map of a sparse file *)

Module SparsemapMore.
Import ListFacts Source SourceFacts Sparsemap SparsemapFacts Fixed FixedFacts.
Local Open Scope N_scope.

(** One pull on a file whose seeks do not fail, entered at [start]
    after a range of kind [d] (or at the start of the enumeration, with
    [d = false]): what it yields, and what holds at the end of the
    range it yields. *)
Lemma loop_exact fuel curr start (d : bool) f :
  f_faults f = [] ->
  exists o g f',
    loop (S (S fuel)) curr (f_len f) start
         (if d then SEEK_DATA else SEEK_HOLE) f = Some (o, g, f') /\
    same_content f f' /\
    ((exists e d', o = Yield (start, e - start, d') /\
        g = AtRangeYield curr (f_len f) e d' /\ start < e <= f_len f /\
        (forall i, start <= i < e ->
           nth (N.to_nat i) (f_holes f) false = negb d') /\
        (e < f_len f -> nth (N.to_nat e) (f_holes f) false = d') /\
        ((start < f_len f -> nth (N.to_nat start) (f_holes f) false = d) ->
         d' = negb d)) \/
     (o = Yield (start, f_len f - start, false) /\ g = AtTailYield curr /\
      start < f_len f /\
      (forall i, start <= i < f_len f ->
         nth (N.to_nat i) (f_holes f) false = true) /\
      ((start < f_len f -> nth (N.to_nat start) (f_holes f) false = d) ->
       d = true)) \/
     (o = StopIteration /\ g = Finished /\ f_pos f' = curr /\
      f_len f <= start)).
Proof.
  intros Hf.
  set (w := if d then SEEK_DATA else SEEK_HOLE).
  assert (Hw : hole_seek w) by apply flip_hole_seek.
  assert (Hwd : wanted_flag w = negb d) by (subst w; destruct d; reflexivity).
  assert (His : (match w with SEEK_HOLE => true | _ => false end)
                = wanted_flag w) by reflexivity.
  cbn [loop]. rewrite His.
  destruct (dseek_nofault f start w Hf Hw)
    as [(e1 & -> & Hin1 & Hr1 & Hfl1 & Hbef1)|(-> & Hwhy)].
  - destruct (N.ltb_spec start e1) as [Hlt|Hge].
    + do 3 eexists. split; [reflexivity|].
      split; [apply same_content_set_pos|].
      left. exists e1, (wanted_flag w). splits; try reflexivity; try lia.
      * exact Hbef1.
      * exact Hfl1.
      * intros _. exact Hwd.
    + assert (e1 = start) by lia. subst e1.
      set (w' := if wanted_flag w then SEEK_DATA else SEEK_HOLE).
      assert (His' : (match w' with SEEK_HOLE => true | _ => false end)
                     = wanted_flag w') by reflexivity.
      assert (Hwd' : wanted_flag w' = d).
      { subst w'. rewrite Hwd. destruct d; reflexivity. }
      rewrite His'.
      specialize (Hfl1 Hin1).
      destruct (dseek_nofault (set_pos f start) start w' Hf
                  (flip_hole_seek _))
        as [(e2 & -> & Hin2 & Hr2 & Hfl2 & Hbef2)|(-> & Hwhy)].
      * change (f_len (set_pos f start)) with (f_len f) in *.
        change (f_holes (set_pos f start)) with (f_holes f) in *.
        destruct (N.ltb_spec start e2) as [Hlt2|Hge2].
        -- do 3 eexists. split; [reflexivity|].
           split; [apply (same_content_set_pos f e2)|].
           left. exists e2, (wanted_flag w').
           splits; try reflexivity; try lia.
           ++ exact Hbef2.
           ++ exact Hfl2.
           ++ intros Hinv. specialize (Hinv Hin1).
              rewrite Hfl1, Hwd in Hinv. destruct d; discriminate Hinv.
        -- exfalso. assert (e2 = start) by lia. subst e2.
           specialize (Hfl2 Hin1).
           rewrite Hfl1, Hwd' , Hwd in Hfl2.
           destruct d; discriminate Hfl2.
      * change (f_len (set_pos f start)) with (f_len f) in *.
        change (f_holes (set_pos f start)) with (f_holes f) in *.
        destruct Hwhy as [Hend|(Hw' & _ & Htail)]; [lia|].
        rewrite Hw'. cbn [errno_eqb wanted_flag negb andb].
        destruct (N.ltb_spec start (f_len f)) as [_|]; [|lia].
        do 3 eexists. split; [reflexivity|].
        split; [apply same_content_set_pos|].
        right. left. splits; try reflexivity; try assumption.
        intros Hinv. specialize (Hinv Hin1).
        rewrite Hfl1, Hwd in Hinv. destruct d; discriminate Hinv.
  - cbn [errno_eqb].
    destruct (negb (wanted_flag w) && (start <? f_len f)%N) eqn:Et.
    + apply andb_true_iff in Et. destruct Et as [Hd Hlt].
      apply N.ltb_lt in Hlt. apply negb_true_iff in Hd.
      destruct Hwhy as [Hend|(Hw' & _ & Htail)]; [lia|].
      do 3 eexists. split; [rewrite Hd; reflexivity|].
      split; [apply same_content_refl|].
      right. left. splits; try reflexivity; try assumption.
      intros _. rewrite Hwd in Hd. destruct d; [reflexivity|discriminate Hd].
    + unfold finally. rewrite dseek_set.
      do 3 eexists. split; [reflexivity|].
      split; [apply same_content_set_pos|].
      right. right. splits; try reflexivity.
      apply andb_false_iff in Et. destruct Et as [Hd|Hge].
      * apply negb_false_iff in Hd.
        destruct Hwhy as [Hend|(Hw' & _)]; [exact Hend|].
        rewrite Hw' in Hd. discriminate Hd.
      * apply N.ltb_ge in Hge. exact Hge.
Qed.

Lemma range_exact_content f f' r :
  same_content f f' -> range_exact f r -> range_exact f' r.
Proof.
  intros (Hb & Hh & _) H. destruct r as [[start size] d].
  cbn [range_exact] in *. rewrite Hh. exact H.
Qed.

Lemma drain_exact : forall n fuel curr start (d : bool) f,
  f_faults f = [] ->
  (N.to_nat (f_len f - start) <= n)%nat -> (n + 3 <= fuel)%nat ->
  exists ranges f',
    Sparsemap.drain fuel (AtRangeYield curr (f_len f) start d) f
      = Some (inr ranges, f') /\
    same_content f f' /\ f_pos f' = curr /\
    contiguous start ranges /\ span ranges = f_len f - start /\
    Forall (fun r : range => 0 < snd (fst r)) ranges /\
    Forall (range_exact f) ranges /\ alternating ranges /\
    ((start < f_len f -> nth (N.to_nat start) (f_holes f) false = d) ->
     match ranges with
     | (_, _, d') :: _ => d' = negb d
     | [] => True
     end).
Proof.
  induction n as [|n IH]; intros fuel curr start d f Hf Hn Hfuel;
    (destruct fuel as [|[|fuel]]; [lia|lia|]);
    rewrite drain_unfold; cbn [next];
    destruct (loop_exact fuel curr start d f Hf)
      as (o & g & f1 & -> & Hsc & Hcase);
    (destruct Hcase as [(e & d' & -> & -> & Hr & Hbef & Hat & Halt)
                       |[(-> & -> & Hlt & Hfl & Halt)
                        |(-> & -> & Hp & Hend)]];
     [| |exists [], f1; splits;
         [reflexivity|assumption|assumption|exact I|
          unfold span; cbn [fold_right]; lia|constructor|constructor|
          exact I|intros _; exact I]]);
    try (exfalso; unfold f_len in *; lia).
  - (* a range, then the rest *)
    pose proof Hsc as (Hb1 & Hh1 & Hc1 & Hf1).
    assert (Hlen1 : f_len f1 = f_len f)
      by (unfold f_len; rewrite Hb1; reflexivity).
    destruct (IH (S fuel) curr e d' f1) as
      (rs & f2 & Hd & Hsc2 & Hp2 & Hcont & Hspan & Hpos & Hex & Halt2 & Hhd);
      [congruence|rewrite Hlen1; lia|lia|].
    rewrite Hlen1 in Hd, Hspan, Hhd. rewrite Hh1 in Hhd. rewrite Hd.
    exists ((start, e - start, d') :: rs), f2.
    splits; try reflexivity.
    + eapply same_content_trans; eassumption.
    + exact Hp2.
    + cbn [contiguous]. split; [reflexivity|].
      replace (start + (e - start)) with e by lia. exact Hcont.
    + change (span ((start, e - start, d') :: rs))
        with ((e - start) + span rs).
      rewrite Hspan. lia.
    + constructor; [cbn [fst snd]; lia|exact Hpos].
    + constructor.
      * cbn [range_exact]. intros i Hi. apply Hbef. lia.
      * eapply Forall_impl; [|exact Hex]. intros r.
        apply range_exact_content.
        destruct Hsc as (?&?&?&?). repeat split; congruence.
    + cbn [alternating]. split; [|exact Halt2].
      specialize (Hhd Hat). destruct rs as [|[[? ?] d2] rs']; [exact I|].
      exact Hhd.
    + exact Halt.
  - (* a hole up to the end of the file, then the end *)
    rewrite drain_unfold. cbn [next]. unfold finally. rewrite dseek_set.
    exists [(start, f_len f - start, false)], (set_pos f1 curr).
    splits; try reflexivity.
    + eapply same_content_trans; [exact Hsc|apply same_content_set_pos].
    + cbn [contiguous]. split; [reflexivity|exact I].
    + unfold span. cbn [fold_right fst snd]. lia.
    + constructor; [cbn [fst snd]; lia|constructor].
    + constructor; [|constructor].
      cbn [range_exact negb]. intros i Hi. apply Hfl. lia.
    + cbn [alternating]. split; exact I.
    + intros Hinv. rewrite (Halt Hinv). reflexivity.
Qed.


(** X8. The file map of a sparse file.  On a file whose seeks do not
    fail, from whatever position the source is at, the enumeration ends
    without an error and leaves the source as it found it; its ranges
    follow one another from the position of the source to the end of
    the file, none of them is empty, data ranges and hole ranges take
    turns, no offset of a data range lies in a hole and every offset of
    a hole range does.  At or past the end of the file the map is
    empty. *)
Theorem sparsemap_ranges_valid (f : file) (fuel : nat) :
  f_faults f = [] -> (length (f_bytes f) + 3 <= fuel)%nat ->
  exists ranges,
    Sparsemap.drain fuel Created f = Some (inr ranges, f) /\
    contiguous (f_pos f) ranges /\
    span ranges = f_len f - f_pos f /\
    Forall (fun r : range => 0 < snd (fst r)) ranges /\
    Forall (range_exact f) ranges /\
    alternating ranges /\
    (f_len f <= f_pos f -> ranges = []).
Proof.
  intros Hf Hfuel.
  destruct (drain_exact (length (f_bytes f)) fuel (f_pos f) (f_pos f) false f
              Hf)
    as (ranges & f' & Hd & Hsc & Hp & Hcont & Hspan & Hpos & Hex & Halt & _).
  - unfold f_len. lia.
  - exact Hfuel.
  - exists ranges. splits; try assumption.
    + rewrite drain_created, Hd. apply same_content_eq in Hsc.
      rewrite Hsc, Hp, set_pos_same. reflexivity.
    + intros Hend. destruct ranges as [|[[s0 n0] d0] rs]; [reflexivity|].
      exfalso. apply Forall_inv in Hpos. cbn [fst snd] in Hpos.
      change (span ((s0, n0, d0) :: rs)) with (n0 + span rs) in Hspan.
      lia.
Qed.

Lemma sparsemap_ranges_valid_witness :
  let f := mkfile [x00; x00; x01; x02; x00; x00; x00; x03; x00; x00]
                  [true; true; false; false; true; true; true; false; true;
                   true] 1 [] [] in
  exists ranges,
    Sparsemap.drain 13 Created f = Some (inr ranges, f) /\
    contiguous (f_pos f) ranges /\
    span ranges = f_len f - f_pos f /\
    Forall (fun r : range => 0 < snd (fst r)) ranges /\
    Forall (range_exact f) ranges /\
    alternating ranges /\
    (f_len f <= f_pos f -> ranges = []).
Proof.
  cbv zeta.
  apply (sparsemap_ranges_valid
           (mkfile [x00; x00; x01; x02; x00; x00; x00; x03; x00; x00]
                   [true; true; false; false; true; true; true; false; true;
                    true] 1 [] []) 13).
  - reflexivity.
  - cbn [f_bytes length]. lia.
Defined.

(** *** A seek for holes that fails *)

(** When the first seek for a hole fails with another error than
    [ENXIO], the enumeration raises that error before it has yielded a
    range, and the source is where it was. *)
Lemma drain_seek_fails f e rest fuel :
  f_faults f = Some e :: rest -> e <> ENXIO ->
  Sparsemap.drain (S (S fuel)) Created f =
  Some (inl (OSError e),
        mkfile (f_bytes f) (f_holes f) (f_pos f) (f_caps f) rest).
Proof.
  intros Hf He. rewrite drain_unfold. cbn [next].
  rewrite dpos_curr_end_eq. cbn [loop].
  unfold dseek at 1. unfold lseek. rewrite Hf. cbn [tl].
  assert (Hx : errno_eqb e ENXIO = false) by (destruct e; [congruence|reflexivity|reflexivity]).
  rewrite Hx. unfold finally. rewrite dseek_set. reflexivity.
Qed.


End SparsemapMore.

(** ** The fixed chunker: block layout, file maps, short reads *)

Module FixedMore.
Import ListFacts SourceFacts Source ChunkDef ChunkFacts Sparsemap SparsemapFacts Fixed FixedFacts SparsemapMore.
Local Open Scope nat_scope.

Section WithConstants.

Variable zeros : list byte.

(** *** The walk over a file map, range by range *)

(** The walk looks at the block size of the chunker only. *)
Lemma chunk_range_block_size c1 c2 :
  block_size c1 = block_size c2 ->
  forall fuel is_data r o f,
    chunk_range zeros fuel c1 is_data r o f
    = chunk_range zeros fuel c2 is_data r o f.
Proof.
  intros Hbs. induction fuel as [|fuel IH]; intros is_data r o f;
    [reflexivity|].
  cbn [chunk_range]. rewrite Hbs.
  destruct (r =? 0)%N; [reflexivity|].
  destruct is_data.
  - destruct (dread o (N.min r (block_size c2)) f) as [d f1].
    rewrite !IH. reflexivity.
  - destruct (dseek (N.min r (block_size c2)) SEEK_CUR f) as [[e|pos] f1];
      [reflexivity|].
    rewrite !IH. reflexivity.
Qed.

Lemma walk_block_size c1 c2 fuel :
  block_size c1 = block_size c2 ->
  forall fmap o f, walk zeros fuel c1 fmap o f = walk zeros fuel c2 fmap o f.
Proof.
  intros Hbs. induction fmap as [|[[start r] d] fmap IH]; intros o f;
    [reflexivity|].
  cbn [walk].
  destruct (if negb (start =? o)%N
            then match dseek start SEEK_SET f with
                 | (inl e, f1) => (inl e, f1)
                 | (inr _, f1) => (inr start, f1)
                 end
            else (inr o, f)) as [[e|o1] f1]; [reflexivity|].
  rewrite (chunk_range_block_size c1 c2 Hbs).
  destruct (chunk_range zeros fuel c2 d r o1 f1) as [[[chs [e|[[] o2]]] f2]|];
    try reflexivity.
  rewrite IH. reflexivity.
Qed.






(** *** Without a file map *)



(** X11. A short read ends the fixed chunker.  When the first read
    returns fewer bytes than a block although the source holds more,
    the chunker emits these bytes as its only chunk and ends without an
    error: what follows in the source is not chunked. *)
Theorem fixed_short_read_stops (c : ChunkerFixed) (f : file) (k : nat)
  (caps : list nat) (fuel : nat) :
  try_sparse c = false -> header_size c = 0%N ->
  f_pos f = 0%N -> f_caps f = k :: caps ->
  0 < k -> (N.of_nat k < block_size c)%N -> (block_size c <= 2 ^ 62)%N ->
  k <= length (f_bytes f) -> 0 < fuel ->
  chunkify zeros fuel c None f =
  Some ([classify zeros (firstn k (f_bytes f))], Exhausted,
        mkfile (f_bytes f) (f_holes f) (N.of_nat k) caps (f_faults f)).
Proof.
  intros Hsp Hh Hpos Hcaps Hk Hkb Hb62 Hlen Hfuel.
  destruct fuel as [|fuel]; [lia|].
  unfold chunkify. rewrite Hsp. cbv zeta. unfold fake_fmap. rewrite Hh.
  change (0 <? 0)%N with false. cbn [app walk].
  change (0 =? 0)%N with true. cbn [negb chunk_range].
  destruct (N.eqb_spec (2 ^ 62) 0) as [H0|_]; [lia|].
  unfold dread, read. rewrite Hcaps, Hpos. cbn [tl].
  change (N.to_nat 0) with 0. cbn [skipn].
  replace (N.min (N.min (2 ^ 62) (block_size c)) (N.of_nat k))
    with (N.of_nat k) by lia.
  rewrite Nat2N.id.
  assert (Hl : length (firstn k (f_bytes f)) = k)
    by (rewrite length_firstn; lia).
  rewrite Hl.
  destruct (N.ltb_spec 0 (N.of_nat k)) as [_|]; [|lia].
  destruct (N.ltb_spec (N.of_nat k) (N.min (2 ^ 62) (block_size c)))
    as [_|]; [|lia].
  reflexivity.
Qed.

(** *** With sparse handling *)

(** X12. Sparse handling that does not work is given up without a
    trace.  For a chunker without header, when the first seek for a
    hole fails with another error than [ENXIO], the chunker with sparse
    handling behaves as the chunker without it: the same chunks, the
    same ending, the source left in the same state. *)
Theorem fixed_sparse_fallback (c : ChunkerFixed) (f : file) (e : errno)
  (rest : list (option errno)) (fuel : nat) :
  try_sparse c = true -> header_size c = 0%N ->
  f_faults f = Some e :: rest -> e <> ENXIO ->
  chunkify zeros (S (S fuel)) c None f =
  chunkify zeros (S (S fuel)) (mkFixed (block_size c) 0 false) None
           (mkfile (f_bytes f) (f_holes f) (f_pos f) (f_caps f) rest).
Proof.
  intros Hsp Hh Hf He.
  unfold chunkify. rewrite Hsp. cbn [try_sparse]. cbv zeta.
  unfold sparse_fmap. rewrite Hh. change (0 <? 0)%N with false.
  rewrite (drain_seek_fails f e rest fuel Hf He).
  unfold fake_fmap. rewrite Hh. cbn [header_size].
  apply walk_block_size. reflexivity.
Qed.


End WithConstants.

(** *** Instances *)



Lemma fixed_short_read_stops_witness :
  let f := mkfile [x01; x02; x03; x04; x05; x06; x07; x08] [] 0 [2; 4] [] in
  chunkify (repeat x00 8) 1 (mkFixed 4 0 false) None f =
  Some ([classify (repeat x00 8) (firstn 2 (f_bytes f))], Exhausted,
        mkfile (f_bytes f) (f_holes f) (N.of_nat 2) [4] (f_faults f)).
Proof.
  cbv zeta.
  apply (fixed_short_read_stops (repeat x00 8) (mkFixed 4 0 false)
           (mkfile [x01; x02; x03; x04; x05; x06; x07; x08] [] 0 [2; 4] [])
           2 [4] 1).
  - reflexivity.
  - reflexivity.
  - reflexivity.
  - reflexivity.
  - lia.
  - cbn [block_size]. lia.
  - cbn [block_size]. lia.
  - cbn [f_bytes length]. lia.
  - lia.
Defined.

Lemma fixed_sparse_fallback_witness :
  let f := mkfile [x01; x02; x03; x04; x05; x06] [] 0 [] [Some EINVAL] in
  chunkify (repeat x00 8) 8 (mkFixed 4 0 true) None f =
  chunkify (repeat x00 8) 8
           (mkFixed (block_size (mkFixed 4 0 true)) 0 false) None
           (mkfile (f_bytes f) (f_holes f) (f_pos f) (f_caps f) []).
Proof.
  cbv zeta.
  apply (fixed_sparse_fallback (repeat x00 8) (mkFixed 4 0 true)
           (mkfile [x01; x02; x03; x04; x05; x06] [] 0 [] [Some EINVAL])
           EINVAL [] 6).
  - reflexivity.
  - reflexivity.
  - reflexivity.
  - discriminate.
Defined.


End FixedMore.

(** ** The content-defined chunker: where it cuts *)

Module CdcMore.
Import Buzhash BuzhashFacts BuzhashMore ListFacts Source ChunkDef ChunkFacts.
Import Cdc CdcSpec CdcFacts CdcRuns.
Local Open Scope nat_scope.

(** *** The cut rule *)

Lemma cinit_table zeros seed min_exp max_exp mask_bits W junk c :
  cinit zeros seed min_exp max_exp mask_bits W junk = Some c ->
  table c = buzhash_init_table (Z.land seed 0xffffffff) /\
  chunk_mask c
  = u32 (Z.shiftl 1 (Z.land (Z.of_nat mask_bits) 0x1f) - 1).
Proof.
  unfold cinit. intros H.
  destruct (negb _); [discriminate|].
  destruct (negb _); [discriminate|].
  destruct (negb _); [discriminate|].
  injection H as <-. split; reflexivity.
Qed.

(** Below 32 bits the mask has the [mask_bits] low bits set. *)
Lemma cinit_mask zeros seed min_exp max_exp mask_bits W junk c :
  cinit zeros seed min_exp max_exp mask_bits W junk = Some c ->
  mask_bits < 32 ->
  chunk_mask c = (2 ^ Z.of_nat mask_bits - 1)%Z.
Proof.
  intros Hc Hb. destruct (cinit_table _ _ _ _ _ _ _ _ Hc) as [_ ->].
  rewrite land_0x1f, Z.mod_small by lia.
  rewrite Z.shiftl_1_l.
  assert (H : (0 < 2 ^ Z.of_nat mask_bits <= 2 ^ 31)%Z).
  { split; [apply Z.pow_pos_nonneg; lia|].
    apply Z.pow_le_mono_r; lia. }
  apply u32_small. unfold is_u32. lia.
Qed.

(** The table of a chunker is the table of the exported hash for the
    low 32 bits of the constructor's seed. *)
Lemma cinit_seed zeros seed min_exp max_exp mask_bits W junk c :
  cinit zeros seed min_exp max_exp mask_bits W junk = Some c ->
  table c = buzhash_init_table (Z.land (seed mod 2 ^ 32) 0xffffffff) /\
  (0 <= seed mod 2 ^ 32 < 2 ^ 64)%Z.
Proof.
  intros Hc. destruct (cinit_table _ _ _ _ _ _ _ _ Hc) as [-> _].
  pose proof (Z.mod_pos_bound seed (2 ^ 32) ltac:(lia)).
  split; [|lia].
  rewrite (seed_mask_mod (seed mod 2 ^ 32)), seed_mask_mod.
  rewrite Z.mod_mod by lia. reflexivity.
Qed.

(** The hash of a window of the stream is the exported hash of its
    bytes. *)
Lemma hash_at_buzhash c seed s k :
  table c = buzhash_init_table (Z.land seed 0xffffffff) ->
  (0 <= seed < 2 ^ 64)%Z ->
  1 <= window_size c -> (Z.of_nat (window_size c) < 2 ^ 32)%Z ->
  k + window_size c <= length s ->
  buzhash (firstn (window_size c) (skipn k s)) seed
  = Some (hash_at c s k).
Proof.
  intros Ht Hs HW Hfit Hk. rewrite buzhash_in by exact Hs.
  unfold hash_at.
  rewrite length_firstn, length_skipn, Nat.min_l by lia.
  rewrite Ht. destruct (window_size c) as [|n]; [lia|].
  rewrite _buzhash_firstn by lia. reflexivity.
Qed.

Lemma masked_cuts_here c seed s k :
  table c = buzhash_init_table (Z.land seed 0xffffffff) ->
  (0 <= seed < 2 ^ 64)%Z ->
  1 <= window_size c -> (Z.of_nat (window_size c) < 2 ^ 32)%Z ->
  k + window_size c <= length s ->
  masked c (hash_at c s k)
  = negb (cuts_here (chunk_mask c) seed (window_size c) s k).
Proof.
  intros Ht Hs HW Hfit Hk. unfold masked, cuts_here.
  rewrite (hash_at_buzhash c seed s k) by assumption. reflexivity.
Qed.

(** What [find_cut] returns: the first offset it looks at whose hash
    has zero masked bits, or [m] when there is none. *)
Lemma find_cut_first c s m : forall n q,
  q + n <= m ->
  (find_cut c n s q m = m /\
   forall k, q <= k < q + n -> masked c (hash_at c s k) = true) \/
  (q <= find_cut c n s q m < q + n /\
   masked c (hash_at c s (find_cut c n s q m)) = false /\
   forall k, q <= k < find_cut c n s q m ->
             masked c (hash_at c s k) = true).
Proof.
  induction n as [|n IH]; intros q Hq; cbn [find_cut].
  - left. split; [reflexivity|]. intros k Hk. lia.
  - destruct (masked c (hash_at c s q)) eqn:Em.
    + destruct (IH (q + 1) ltac:(lia)) as [[Hr Hall]|(Hr & Hz & Hall)].
      * left. split; [exact Hr|]. intros k Hk.
        destruct (Nat.eq_dec k q) as [->|]; [exact Em|]. apply Hall. lia.
      * right. split; [lia|]. split; [exact Hz|]. intros k Hk.
        destruct (Nat.eq_dec k q) as [->|]; [exact Em|]. apply Hall. lia.
    + right. split; [lia|]. split; [exact Em|]. intros k Hk. lia.
Qed.

Lemma first_chunk_cut_len c seed s :
  valid c -> table c = buzhash_init_table (Z.land seed 0xffffffff) ->
  (0 <= seed < 2 ^ 64)%Z ->
  first_chunk (chunk_mask c) seed (min_size c) (window_size c) (buf_size c)
              s (cut_len c s).
Proof.
  intros Hv Ht Hs. pose proof Hv as [Hmin HW Hfit Hroom _].
  unfold first_chunk.
  destruct (Nat.ltb_spec (length s) (min_size c + window_size c + 1))
    as [Hsh|Hlo].
  - apply cut_len_short. exact Hsh.
  - rewrite cut_len_long by exact Hlo. cbv zeta.
    set (m := Nat.min (length s) (buf_size c)).
    assert (Hm : min_size c + window_size c + 1 <= m /\ m <= length s)
      by (subst m; lia).
    destruct (find_cut_first c s m (m - window_size c - min_size c)
                (min_size c) ltac:(lia)) as [[Hr Hall]|(Hr & Hz & Hall)].
    + rewrite Hr. splits; try lia.
      * intros k Hk1 Hk2. specialize (Hall k ltac:(lia)).
        rewrite (masked_cuts_here c seed s k) in Hall by (assumption || lia).
        apply negb_true_iff. exact Hall.
    + set (r := find_cut c (m - window_size c - min_size c) s (min_size c) m)
        in *.
      splits; try lia.
      * intros k Hk1 Hk2. specialize (Hall k ltac:(lia)).
        rewrite (masked_cuts_here c seed s k) in Hall by (assumption || lia).
        apply negb_true_iff. exact Hall.
      * intros _.
        rewrite (masked_cuts_here c seed s r) in Hz by (assumption || lia).
        apply negb_false_iff. exact Hz.
Qed.

Lemma chunked_cut_upto c seed :
  valid c -> table c = buzhash_init_table (Z.land seed 0xffffffff) ->
  (0 <= seed < 2 ^ 64)%Z ->
  forall n s, length s <= n ->
  chunked (chunk_mask c) seed (min_size c) (window_size c) (buf_size c)
          s (cut_upto c n s).
Proof.
  intros Hv Ht Hs. induction n as [|n IH]; intros s Hn.
  - destruct s; [reflexivity|cbn in Hn; lia].
  - destruct s as [|b s'] eqn:Es; [reflexivity|]. rewrite <- Es in *.
    assert (Hne : s <> []) by (rewrite Es; discriminate).
    destruct (cut_len_bounds c s Hv Hne) as (Hc & _).
    replace (cut_upto c (S n) s)
      with (firstn (cut_len c s) s :: cut_upto c n (skipn (cut_len c s) s))
      by (rewrite Es; reflexivity).
    cbn [chunked].
    assert (Hl : length (firstn (cut_len c s) s) = cut_len c s)
      by (rewrite length_firstn; lia).
    rewrite Hl. splits.
    + exact Hne.
    + reflexivity.
    + apply first_chunk_cut_len; assumption.
    + apply IH. rewrite length_skipn. lia.
Qed.

(** X14. Where the content-defined chunker cuts.  A chunker built with
    a seed, the size exponents, fewer than 32 mask bits and a window of
    [W >= 1] bytes cuts its input by this rule, chunk after chunk: what
    is left of the stream is one chunk when it has fewer than
    [min_size + W + 1] bytes; otherwise the chunk ends at the first
    offset, from [min_size] on, at which the exported [buzhash] of the
    following [W] bytes, under the low 32 bits of the seed, has its
    [mask_bits] low bits all zero, the window being followed by at
    least one more byte of the [max_size] bytes the chunk may hold;
    without such an offset the chunk takes all [max_size] bytes, or
    all that is left. *)
Theorem cdc_cut_rule zeros seed min_exp max_exp mask_bits W junk c f fuel :
  cinit zeros seed min_exp max_exp mask_bits W junk = Some c ->
  1 <= W -> mask_bits < 32 ->
  f_pos f = 0%N -> Forall (fun k => 0 < k) (f_caps f) ->
  2 * length (f_bytes f) + 2 ^ max_exp + 4 <= fuel ->
  exists blocks c',
    drain zeros fuel (chunkify c f)
    = Some (List.map (classify zeros) blocks, None, c') /\
    chunked (2 ^ Z.of_nat mask_bits - 1) (seed mod 2 ^ 32)
            (2 ^ min_exp) W (2 ^ max_exp) (f_bytes f) blocks.
Proof.
  intros Hc HW Hbits Hp Hcaps Hfuel.
  pose proof (cinit_valid _ _ _ _ _ _ _ _ Hc HW) as Hv.
  destruct (cinit_spec _ _ _ _ _ _ _ _ Hc)
    as (Hmin & Hbuf & Hwin & Hlen & _).
  destruct (cinit_seed _ _ _ _ _ _ _ _ Hc) as [Ht Hs].
  pose proof (cinit_mask _ _ _ _ _ _ _ _ Hc Hbits) as Hmask.
  destruct (chunker_emits zeros c f fuel Hv Hlen Hp Hcaps) as (c' & Hd);
    [lia|].
  exists (cuts c (f_bytes f)), c'. split; [exact Hd|].
  rewrite <- Hmin, <- Hbuf, <- Hwin, <- Hmask.
  apply chunked_cut_upto; [exact Hv|exact Ht|exact Hs|apply le_n].
Qed.

Lemma cdc_cut_rule_witness :
  let zeros := repeat x00 64 in
  let f := mkfile [xa5; x4d; xca; x18; x25; x30; xbb; x1d; x6d; x13; x2c;
                   xde; xd6; x23; x7b; x2e; xd9; x1e; x3f; x72]
                  [] 0 [3; 1; 7] [] in
  exists c,
    cinit zeros (-7) 1 4 2 3 (fun _ => xff) = Some c /\
    exists blocks c',
      drain zeros 100 (chunkify c f)
      = Some (List.map (classify zeros) blocks, None, c') /\
      chunked (2 ^ Z.of_nat 2 - 1) ((-7) mod 2 ^ 32) (2 ^ 1) 3 (2 ^ 4)
              (f_bytes f) blocks.
Proof.
  cbv zeta. eexists. split; [reflexivity|].
  eapply (cdc_cut_rule (repeat x00 64) (-7) 1 4 2 3 (fun _ => xff)).
  - reflexivity.
  - lia.
  - lia.
  - reflexivity.
  - repeat (constructor; [lia|]). constructor.
  - cbn [f_bytes length]. change (2 ^ 4) with 16. lia.
Defined.

(** *** Short streams *)

Lemma cuts_short c s :
  length s < min_size c + window_size c + 1 ->
  cuts c s = match s with [] => [] | _ :: _ => [s] end.
Proof.
  intros Hs. unfold cuts. destruct s as [|b s'] eqn:Es; [reflexivity|].
  rewrite <- Es in *.
  replace (cut_upto c (length s) s)
    with (firstn (cut_len c s) s
          :: cut_upto c (length s') (skipn (cut_len c s) s))
    by (rewrite Es; reflexivity).
  rewrite cut_len_short by exact Hs.
  rewrite firstn_all, skipn_all, cut_upto_nil. reflexivity.
Qed.

(** X15. A stream of fewer than [min_size + W + 1] bytes is not cut:
    it comes out as one chunk, whatever it holds, and the empty stream
    gives no chunk at all. *)
Theorem cdc_small_stream zeros seed min_exp max_exp mask_bits W junk c f
  fuel :
  cinit zeros seed min_exp max_exp mask_bits W junk = Some c ->
  1 <= W -> f_pos f = 0%N -> Forall (fun k => 0 < k) (f_caps f) ->
  length (f_bytes f) < 2 ^ min_exp + W + 1 ->
  2 * length (f_bytes f) + 2 ^ max_exp + 4 <= fuel ->
  exists c',
    drain zeros fuel (chunkify c f) =
    Some (match f_bytes f with
          | [] => []
          | _ :: _ => [classify zeros (f_bytes f)]
          end, None, c').
Proof.
  intros Hc HW Hp Hcaps Hshort Hfuel.
  pose proof (cinit_valid _ _ _ _ _ _ _ _ Hc HW) as Hv.
  destruct (cinit_spec _ _ _ _ _ _ _ _ Hc)
    as (Hmin & Hbuf & Hwin & Hlen & _).
  destruct (chunker_emits zeros c f fuel Hv Hlen Hp Hcaps) as (c' & Hd);
    [lia|].
  exists c'. rewrite Hd, cuts_short by lia.
  destruct (f_bytes f); reflexivity.
Qed.

Lemma cdc_small_stream_witness :
  let zeros := repeat x00 64 in
  let f := mkfile [x01; x02; x03; x04; x05] [] 0 [2] [] in
  exists c,
    cinit zeros 7 1 4 2 3 (fun _ => xff) = Some c /\
    exists c',
      drain zeros 40 (chunkify c f) =
      Some (match f_bytes f with
            | [] => []
            | _ :: _ => [classify zeros (f_bytes f)]
            end, None, c').
Proof.
  cbv zeta. eexists. split; [reflexivity|].
  eapply (cdc_small_stream (repeat x00 64) 7 1 4 2 3 (fun _ => xff)).
  - reflexivity.
  - lia.
  - reflexivity.
  - repeat (constructor; [lia|]). constructor.
  - cbn [f_bytes length]. change (2 ^ 1) with 2. lia.
  - cbn [f_bytes length]. change (2 ^ 4) with 16. lia.
Defined.

(** *** No mask bits *)

Lemma masked_mask_0 c x : chunk_mask c = 0%Z -> masked c x = false.
Proof. intros H. unfold masked. rewrite H, Z.land_0_r. reflexivity. Qed.

Lemma cut_len_mask_0 c s :
  valid c -> chunk_mask c = 0%Z ->
  min_size c + window_size c + 1 <= length s ->
  cut_len c s = min_size c.
Proof.
  intros Hv Hm Hs. pose proof Hv as [_ _ _ Hroom _].
  rewrite cut_len_long by exact Hs.
  destruct (Nat.min (length s) (buf_size c) - window_size c - min_size c)
    as [|n] eqn:En; [lia|].
  cbn [find_cut]. rewrite masked_mask_0 by exact Hm. reflexivity.
Qed.

Lemma cut_upto_mask_0 c :
  valid c -> chunk_mask c = 0%Z -> forall n s, length s <= n ->
  Forall (fun b => length b = min_size c) (removelast (cut_upto c n s)).
Proof.
  intros Hv Hm. induction n as [|n IH]; intros s Hn; [constructor|].
  destruct s as [|b s'] eqn:Es; [constructor|]. rewrite <- Es in *.
  assert (Hne : s <> []) by (rewrite Es; discriminate).
  destruct (cut_len_bounds c s Hv Hne) as (Hc & _).
  replace (cut_upto c (S n) s)
    with (firstn (cut_len c s) s :: cut_upto c n (skipn (cut_len c s) s))
    by (rewrite Es; reflexivity).
  specialize (IH (skipn (cut_len c s) s)
                 ltac:(rewrite length_skipn; lia)).
  destruct (cut_upto c n (skipn (cut_len c s) s)) as [|b2 rest] eqn:Er.
  - constructor.
  - change (removelast (firstn (cut_len c s) s :: b2 :: rest))
      with (firstn (cut_len c s) s :: removelast (b2 :: rest)).
    constructor; [|exact IH].
    destruct (Nat.lt_ge_cases (length s) (min_size c + window_size c + 1))
      as [Hsh|Hlo].
    + exfalso. rewrite cut_len_short in Er by exact Hsh.
      rewrite skipn_all, cut_upto_nil in Er. discriminate Er.
    + rewrite cut_len_mask_0 by assumption.
      rewrite length_firstn. lia.
Qed.

(** X16. Without mask bits ([hash_mask_bits = 0]) every hash value
    cuts, so the chunker cuts as early as it may: every chunk but the
    last one has exactly [min_size] bytes. *)
Theorem cdc_mask_zero zeros seed min_exp max_exp W junk c f fuel :
  cinit zeros seed min_exp max_exp 0 W junk = Some c ->
  1 <= W -> f_pos f = 0%N -> Forall (fun k => 0 < k) (f_caps f) ->
  2 * length (f_bytes f) + 2 ^ max_exp + 4 <= fuel ->
  exists chs c',
    drain zeros fuel (chunkify c f) = Some (chs, None, c') /\
    Forall (fun ch => size ch = 2 ^ min_exp) (removelast chs).
Proof.
  intros Hc HW Hp Hcaps Hfuel.
  pose proof (cinit_valid _ _ _ _ _ _ _ _ Hc HW) as Hv.
  destruct (cinit_spec _ _ _ _ _ _ _ _ Hc)
    as (Hmin & Hbuf & Hwin & Hlen & _).
  destruct (cinit_table _ _ _ _ _ _ _ _ Hc) as [_ Hm].
  change (u32 (Z.shiftl 1 (Z.of_nat 0) - 1)) with 0%Z in Hm.
  destruct (chunker_emits zeros c f fuel Hv Hlen Hp Hcaps) as (c' & Hd);
    [lia|].
  eexists. exists c'. split; [exact Hd|].
  rewrite removelast_map. apply Forall_map.
  eapply Forall_impl; [|apply (cut_upto_mask_0 c Hv Hm); apply le_n].
  cbv beta. intros b Hb. rewrite size_classify. lia.
Qed.

Lemma cdc_mask_zero_witness :
  let zeros := repeat x00 64 in
  let f := mkfile [xa5; x4d; xca; x18; x25; x30; xbb; x1d; x6d; x13; x2c;
                   xde; xd6; x23; x7b; x2e; xd9; x1e; x3f; x72]
                  [] 0 [3; 1; 7] [] in
  exists c,
    cinit zeros 7 1 4 0 3 (fun _ => xff) = Some c /\
    exists chs c',
      drain zeros 100 (chunkify c f) = Some (chs, None, c') /\
      Forall (fun ch => size ch = 2 ^ 1) (removelast chs).
Proof.
  cbv zeta. eexists. split; [reflexivity|].
  eapply (cdc_mask_zero (repeat x00 64) 7 1 4 3 (fun _ => xff)).
  - reflexivity.
  - lia.
  - reflexivity.
  - repeat (constructor; [lia|]). constructor.
  - cbn [f_bytes length]. change (2 ^ 4) with 16. lia.
Defined.

(** *** The byte counters *)

Lemma fill_yielded c : bytes_yielded (fill c) = bytes_yielded c.
Proof.
  unfold fill. destruct (eof c || _); [reflexivity|].
  destruct (read _ _) as [d fd]. destruct (negb _); reflexivity.
Qed.

Lemma refill_yielded : forall fuel c c',
  refill fuel c = Some c' -> bytes_yielded c' = bytes_yielded c.
Proof.
  induction fuel as [|fuel IH]; intros c c' H; cbn [refill] in H;
    [discriminate|].
  destruct (_ && _).
  - apply IH in H. rewrite H. apply fill_yielded.
  - injection H as <-. reflexivity.
Qed.

Lemma search_yielded : forall fuel c sum c',
  search fuel c sum = Some c' -> bytes_yielded c' = bytes_yielded c.
Proof.
  induction fuel as [|fuel IH]; intros c sum c' H; cbn [search] in H;
    [discriminate|].
  destruct (_ && _).
  - destruct (slide _ c (position c) sum) as [p sum'].
    apply IH in H. rewrite H.
    destruct (_ <=? _); [rewrite fill_yielded|]; reflexivity.
  - injection H as <-. reflexivity.
Qed.

(** One pull adds the size of the chunk it returns to [bytes_yielded],
    and a pull that returns none leaves the counter alone. *)
Lemma process_yielded fuel c o c' :
  shape c -> process fuel c = Some (o, c') ->
  bytes_yielded c' =
  bytes_yielded c + match o with Yield d => length d | _ => 0 end /\
  length (data c') = buf_size c'.
Proof.
  intros Hs H. pose proof Hs as (_ & _ & Hlen0 & _).
  unfold process in H.
  destruct (done c).
  { destruct (bytes_read c =? bytes_yielded c); injection H as <- <-;
      split; [lia|assumption|lia|assumption]. }
  destruct (refill fuel c) as [c1|] eqn:Er; [|discriminate].
  pose proof (refill_yielded _ _ _ Er) as Hy1.
  destruct (refill_shape _ _ _ Er Hs) as (Hs1 & Hq1 & Hw1 & Hm1 & Hex).
  pose proof Hs1 as (Hlast1 & Hfit1 & Hlen1 & Hmin1).
  destruct (eof c1) eqn:Eeof1.
  - fields.
    destruct (Nat.eqb_spec (remaining c1) 0) as [Hz|Hnz]; cbn [negb] in H.
    + destruct (bytes_read c1 =? bytes_yielded c1); injection H as <- <-;
        fields; split; [lia|assumption|lia|assumption].
    + injection H as <- <-. unfold view. fields. split; [|assumption].
      rewrite length_firstn, length_skipn. lia.
  - specialize (Hex eq_refl). rewrite <- Hm1, <- Hw1 in Hex.
    assert (Hadv : min_size c1 <= remaining c1) by lia.
    destruct (advance_shape c1 (min_size c1) Hadv Hs1) as [Hs2 Hq2].
    assert (Hy2 : bytes_yielded (advance c1 (min_size c1)) = bytes_yielded c1)
      by reflexivity.
    set (c2 := advance c1 (min_size c1)) in *.
    destruct (search fuel c2 _) as [c3|] eqn:Es; [|discriminate].
    pose proof (search_yielded _ _ _ _ Es) as Hy3.
    destruct (search_shape _ _ _ _ Es Hs2) as (Hs3 & Hq3 & Hw3).
    assert (Hc4 : shape (if remaining c3 <=? window_size c3
                         then advance c3 (remaining c3) else c3) /\
                  bytes_yielded (if remaining c3 <=? window_size c3
                                 then advance c3 (remaining c3) else c3)
                  = bytes_yielded c3).
    { destruct (remaining c3 <=? window_size c3).
      - destruct (advance_shape c3 (remaining c3) (le_n _) Hs3) as [Ha Hb].
        split; [exact Ha|reflexivity].
      - split; [exact Hs3|reflexivity]. }
    set (c4 := if remaining c3 <=? window_size c3
               then advance c3 (remaining c3) else c3) in *.
    destruct Hc4 as [Hs4 Hy4].
    pose proof Hs4 as (Hlast4 & Hfit4 & Hlen4 & Hmin4).
    injection H as <- <-. unfold view. fields. split; [|assumption].
    rewrite length_firstn, length_skipn. lia.
Qed.

Lemma drain_yielded zeros : forall fuel c chs e c',
  shape c -> drain zeros fuel c = Some (chs, e, c') ->
  bytes_yielded c' = bytes_yielded c + total_size chs /\
  length (data c') = buf_size c'.
Proof.
  induction fuel as [|fuel IH]; intros c chs e c' Hs H; cbn [drain] in H;
    [discriminate|].
  unfold next in H.
  destruct (process (S fuel) c) as [[o c1]|] eqn:Ep; [|discriminate].
  destruct (process_yielded _ _ _ _ Hs Ep) as [Hy Hl].
  destruct o as [d| |e1].
  - destruct (process_shape _ _ _ _ Hs Ep) as [_ Hs1].
    destruct (drain zeros fuel c1) as [[[chs1 e2] c2]|] eqn:Ed;
      [|discriminate].
    injection H as <- <- <-.
    destruct (IH _ _ _ _ Hs1 Ed) as [Hy2 Hl2].
    split; [|exact Hl2].
    unfold total_size in *. cbn [fold_right]. rewrite size_classify. lia.
  - injection H as <- <- <-. split; [cbn; lia|exact Hl].
  - injection H as <- <- <-. split; [cbn; lia|exact Hl].
Qed.

(** X17. The byte counters at the end of a run.  When the run over a
    stream has ended, the chunker has read and has yielded exactly the
    bytes of the stream, so the check of the two counters passes and
    the run ends with [StopIteration], never with the byte count
    error; the chunker is done, and every further pull ends the same
    way and changes nothing. *)
Theorem cdc_byte_accounting zeros seed min_exp max_exp mask_bits W junk c f
  fuel :
  cinit zeros seed min_exp max_exp mask_bits W junk = Some c ->
  1 <= W -> f_pos f = 0%N -> Forall (fun k => 0 < k) (f_caps f) ->
  2 * length (f_bytes f) + 2 ^ max_exp + 4 <= fuel ->
  exists chs c',
    drain zeros fuel (chunkify c f) = Some (chs, None, c') /\
    bytes_read c' = length (f_bytes f) /\
    bytes_yielded c' = length (f_bytes f) /\
    done c' = true /\
    forall fuel', next zeros fuel' c' = Some (StopIteration, c').
Proof.
  intros Hc HW Hp Hcaps Hfuel.
  pose proof (cinit_valid _ _ _ _ _ _ _ _ Hc HW) as Hv.
  destruct (cinit_spec _ _ _ _ _ _ _ _ Hc)
    as (Hmin & Hbuf & Hwin & Hlen & _).
  destruct (drain_spec zeros (f_bytes f) c Hv (length (f_bytes f)) 0
              (chunkify c f) fuel (chunkify_config c f)
              (chunkify_between c f Hlen Hp Hcaps))
    as (c' & Hd & [Hdone Hrd] & _); [lia|lia|].
  assert (Hsh : shape (chunkify c f)).
  { apply chunkify_shape; [exact Hlen|]. destruct Hv. assumption. }
  destruct (drain_yielded zeros _ _ _ _ _ Hsh Hd) as [Hy _].
  cbn [skipn] in Hd, Hy.
  rewrite total_size_classify, cut_upto_concat in Hy by (assumption || lia).
  change (bytes_yielded (chunkify c f)) with 0 in Hy.
  eexists. exists c'. splits.
  - exact Hd.
  - lia.
  - lia.
  - exact Hdone.
  - intros fuel'. unfold next.
    rewrite process_finished by (split; assumption). reflexivity.
Qed.

Lemma cdc_byte_accounting_witness :
  let zeros := repeat x00 64 in
  let f := mkfile [xa5; x4d; xca; x18; x25; x30; xbb; x1d; x6d; x13; x2c;
                   xde; xd6; x23; x7b; x2e; xd9; x1e; x3f; x72]
                  [] 0 [3; 1; 7] [] in
  exists c,
    cinit zeros 7 1 4 2 3 (fun _ => xff) = Some c /\
    exists chs c',
      drain zeros 100 (chunkify c f) = Some (chs, None, c') /\
      bytes_read c' = length (f_bytes f) /\
      bytes_yielded c' = length (f_bytes f) /\
      done c' = true /\
      forall fuel', next zeros fuel' c' = Some (StopIteration, c').
Proof.
  cbv zeta. eexists. split; [reflexivity|].
  eapply (cdc_byte_accounting (repeat x00 64) 7 1 4 2 3 (fun _ => xff)).
  - reflexivity.
  - lia.
  - reflexivity.
  - repeat (constructor; [lia|]). constructor.
  - cbn [f_bytes length]. change (2 ^ 4) with 16. lia.
Defined.

(** *** One chunker, several streams *)

(** X18. A chunker can be used again.  After a run over one stream,
    [chunkify] on the same chunker object with a second stream gives
    the chunks a freshly built chunker gives for the second stream:
    nothing of the first run is left in the buffer or the counters. *)
Theorem cdc_chunker_reuse zeros seed min_exp max_exp mask_bits W junk c f1
  f2 fuel :
  cinit zeros seed min_exp max_exp mask_bits W junk = Some c ->
  1 <= W ->
  f_pos f1 = 0%N -> Forall (fun k => 0 < k) (f_caps f1) ->
  f_pos f2 = 0%N -> Forall (fun k => 0 < k) (f_caps f2) ->
  2 * length (f_bytes f1) + 2 ^ max_exp + 4 <= fuel ->
  2 * length (f_bytes f2) + 2 ^ max_exp + 4 <= fuel ->
  exists chs1 c1 chs2 c2 c2',
    drain zeros fuel (chunkify c f1) = Some (chs1, None, c1) /\
    drain zeros fuel (chunkify c1 f2) = Some (chs2, None, c2) /\
    drain zeros fuel (chunkify c f2) = Some (chs2, None, c2').
Proof.
  intros Hc HW Hp1 Hcaps1 Hp2 Hcaps2 Hfuel1 Hfuel2.
  pose proof (cinit_valid _ _ _ _ _ _ _ _ Hc HW) as Hv.
  destruct (cinit_spec _ _ _ _ _ _ _ _ Hc)
    as (Hmin & Hbuf & Hwin & Hlen & _).
  destruct (drain_spec zeros (f_bytes f1) c Hv (length (f_bytes f1)) 0
              (chunkify c f1) fuel (chunkify_config c f1)
              (chunkify_between c f1 Hlen Hp1 Hcaps1))
    as (c1 & Hd1 & _ & Hcfg1); [lia|lia|].
  assert (Hsh : shape (chunkify c f1)).
  { apply chunkify_shape; [exact Hlen|]. destruct Hv. assumption. }
  destruct (drain_yielded zeros _ _ _ _ _ Hsh Hd1) as [_ Hlen1].
  pose proof (valid_same_config c c1 Hv Hcfg1) as Hv1.
  assert (Hbuf1 : buf_size c1 = buf_size c)
    by (destruct Hcfg1 as (_ & _ & _ & H & _); exact H).
  destruct (chunker_emits zeros c1 f2 fuel Hv1 Hlen1 Hp2 Hcaps2)
    as (c2 & Hd2); [lia|].
  destruct (chunker_emits zeros c f2 fuel Hv Hlen Hp2 Hcaps2)
    as (c2' & Hd2'); [lia|].
  unfold cuts in Hd2. rewrite (cut_upto_config c c1 Hcfg1) in Hd2.
  do 5 eexists. split; [exact Hd1|]. split; [exact Hd2|exact Hd2'].
Qed.

Lemma cdc_chunker_reuse_witness :
  let zeros := repeat x00 64 in
  let f1 := mkfile [xa5; x4d; xca; x18; x25; x30; xbb; x1d; x6d; x13; x2c;
                    xde; xd6; x23; x7b; x2e; xd9; x1e; x3f; x72]
                   [] 0 [3; 1; 7] [] in
  let f2 := plain [x17; x44; x94; xd6; x49; x3c; x9d; x5c; x34; x60] in
  exists c,
    cinit zeros 7 1 4 2 3 (fun _ => xff) = Some c /\
    exists chs1 c1 chs2 c2 c2',
      drain zeros 100 (chunkify c f1) = Some (chs1, None, c1) /\
      drain zeros 100 (chunkify c1 f2) = Some (chs2, None, c2) /\
      drain zeros 100 (chunkify c f2) = Some (chs2, None, c2').
Proof.
  cbv zeta. eexists. split; [reflexivity|].
  eapply (cdc_chunker_reuse (repeat x00 64) 7 1 4 2 3 (fun _ => xff)).
  - reflexivity.
  - lia.
  - reflexivity.
  - repeat (constructor; [lia|]). constructor.
  - reflexivity.
  - constructor.
  - cbn [f_bytes length]. change (2 ^ 4) with 16. lia.
  - cbn [plain f_bytes length]. change (2 ^ 4) with 16. lia.
Defined.

(** *** Cutting the rest of a stream *)

Lemma cut_upto_fuel c : valid c -> forall n m s,
  length s <= n -> length s <= m -> cut_upto c n s = cut_upto c m s.
Proof.
  intros Hv. induction n as [|n IH]; intros m s Hn Hm.
  - destruct s; [|cbn in Hn; lia]. rewrite !cut_upto_nil. reflexivity.
  - destruct s as [|b s'] eqn:Es; [rewrite !cut_upto_nil; reflexivity|].
    rewrite <- Es in *.
    assert (Hne : s <> []) by (rewrite Es; discriminate).
    destruct (cut_len_bounds c s Hv Hne) as (Hc & _).
    destruct m as [|m]; [rewrite Es in Hm; cbn in Hm; lia|].
    replace (cut_upto c (S n) s)
      with (firstn (cut_len c s) s :: cut_upto c n (skipn (cut_len c s) s))
      by (rewrite Es; reflexivity).
    replace (cut_upto c (S m) s)
      with (firstn (cut_len c s) s :: cut_upto c m (skipn (cut_len c s) s))
      by (rewrite Es; reflexivity).
    f_equal. apply IH; rewrite length_skipn; lia.
Qed.

Lemma cut_upto_app c : valid c -> forall l1 n s l2,
  length s <= n -> cut_upto c n s = l1 ++ l2 ->
  cuts c (skipn (length (concat l1)) s) = l2.
Proof.
  intros Hv. induction l1 as [|b l1 IH]; intros n s l2 Hn H.
  - cbn [concat length skipn app] in *. unfold cuts. rewrite <- H.
    apply cut_upto_fuel; [exact Hv|apply le_n|exact Hn].
  - destruct n as [|n].
    { destruct s; [|cbn in Hn; lia]. cbn in H. discriminate H. }
    destruct s as [|b0 s'] eqn:Es; [discriminate H|]. rewrite <- Es in *.
    assert (Hne : s <> []) by (rewrite Es; discriminate).
    destruct (cut_len_bounds c s Hv Hne) as (Hc & _).
    replace (cut_upto c (S n) s)
      with (firstn (cut_len c s) s :: cut_upto c n (skipn (cut_len c s) s))
      in H by (rewrite Es; reflexivity).
    cbn [app] in H. injection H as Hb Hrest.
    apply IH in Hrest; [|rewrite length_skipn; lia].
    rewrite skipn_skipn in Hrest.
    cbn [concat]. rewrite length_app, <- Hb, length_firstn.
    rewrite Nat.min_l by lia. rewrite Nat.add_comm. exact Hrest.
Qed.

(** X19. The chunker starts afresh at every cut.  The chunks that
    follow a chunk boundary of a stream are the chunks of what follows
    the boundary, chunked on its own: what comes before a cut has no
    effect on the cuts after it. *)
Theorem cdc_restarts_at_cut zeros seed min_exp max_exp mask_bits W junk c f
  f2 chs1 chs2 c' fuel :
  cinit zeros seed min_exp max_exp mask_bits W junk = Some c ->
  1 <= W -> f_pos f = 0%N -> Forall (fun k => 0 < k) (f_caps f) ->
  2 * length (f_bytes f) + 2 ^ max_exp + 4 <= fuel ->
  drain zeros fuel (chunkify c f) = Some (chs1 ++ chs2, None, c') ->
  f_bytes f2 = skipn (total_size chs1) (f_bytes f) ->
  f_pos f2 = 0%N -> Forall (fun k => 0 < k) (f_caps f2) ->
  exists c2, drain zeros fuel (chunkify c f2) = Some (chs2, None, c2).
Proof.
  intros Hc HW Hp Hcaps Hfuel Hd Hb2 Hp2 Hcaps2.
  pose proof (cinit_valid _ _ _ _ _ _ _ _ Hc HW) as Hv.
  destruct (cinit_spec _ _ _ _ _ _ _ _ Hc)
    as (Hmin & Hbuf & Hwin & Hlen & _).
  destruct (chunker_emits zeros c f fuel Hv Hlen Hp Hcaps) as (c0 & Hd0);
    [lia|].
  rewrite Hd in Hd0. injection Hd0 as Hchs _.
  symmetry in Hchs. apply map_eq_app in Hchs.
  destruct Hchs as (l1 & l2 & Hcut & Hm1 & Hm2).
  assert (Hl2 : cuts c (f_bytes f2) = l2).
  { rewrite Hb2, <- Hm1, total_size_classify.
    apply (cut_upto_app c Hv l1 (length (f_bytes f)) (f_bytes f) l2);
      [apply le_n|exact Hcut]. }
  destruct (chunker_emits zeros c f2 fuel Hv Hlen Hp2 Hcaps2) as (c2 & Hd2).
  { rewrite Hb2, length_skipn. lia. }
  exists c2. rewrite Hd2, Hl2, Hm2. reflexivity.
Qed.

Lemma cdc_restarts_at_cut_witness :
  let zeros := repeat x00 64 in
  let f2 := plain [x2c; xde; xd6; x23; x7b; x2e; xd9; x1e; x3f; x72] in
  exists c,
    cinit zeros 7 1 4 2 3 (fun _ => xff) = Some c /\
    exists c2,
      drain zeros 100 (chunkify c f2) =
      Some ([mkChunk (Some [x2c; xde]) 2 CH_DATA;
             mkChunk (Some [xd6; x23; x7b; x2e; xd9; x1e; x3f; x72]) 8
                     CH_DATA], None, c2).
Proof.
  cbv zeta. eexists. split; [reflexivity|].
  eapply (cdc_restarts_at_cut (repeat x00 64) 7 1 4 2 3 (fun _ => xff) _
            (mkfile [xa5; x4d; xca; x18; x25; x30; xbb; x1d; x6d; x13; x2c;
                     xde; xd6; x23; x7b; x2e; xd9; x1e; x3f; x72]
                    [] 0 [3; 1; 7] [])
            (plain [x2c; xde; xd6; x23; x7b; x2e; xd9; x1e; x3f; x72])
            [mkChunk (Some [xa5; x4d; xca; x18; x25; x30; xbb; x1d; x6d;
                            x13]) 10 CH_DATA]
            [mkChunk (Some [x2c; xde]) 2 CH_DATA;
             mkChunk (Some [xd6; x23; x7b; x2e; xd9; x1e; x3f; x72]) 8
                     CH_DATA] _ 100).
  - reflexivity.
  - lia.
  - reflexivity.
  - repeat (constructor; [lia|]). constructor.
  - cbn [f_bytes length]. change (2 ^ 4) with 16. lia.
  - vm_compute. reflexivity.
  - reflexivity.
  - reflexivity.
  - constructor.
Defined.

(** *** A window of a size divisible by 64 *)







(** With a window of 3 bytes the same two seeds cut the same stream at
    different offsets: the first chunk has 3 bytes under the one seed
    and 2 bytes under the other. *)
Example seed_matters_for_other_windows :
  let zeros := repeat x00 128 in
  let stream :=
    List.map (fun i => byte_of_ascii (ascii_of_nat ((i * i + 7 * i) mod 251)))
             (seq 0 300) in
  let f := mkfile stream [] 0 [3; 1; 7] [] in
  exists c1 c2 chs1 chs2 c1' c2',
    cinit zeros 7 1 7 2 3 (fun _ => xff) = Some c1 /\
    cinit zeros 1000 1 7 2 3 (fun _ => x00) = Some c2 /\
    drain zeros 800 (chunkify c1 f) = Some (chs1, None, c1') /\
    drain zeros 800 (chunkify c2 f) = Some (chs2, None, c2') /\
    List.map size (firstn 1 chs1) = [3] /\
    List.map size (firstn 1 chs2) = [2].
Proof.
  cbv zeta. do 6 eexists.
  split; [reflexivity|]. split; [reflexivity|].
  split; [vm_compute; reflexivity|]. split; [vm_compute; reflexivity|].
  split; reflexivity.
Qed.

(** *** The rolling sum *)



(** *** Any source *)

Lemma fill_counter c :
  shape c ->
  bytes_read c = bytes_yielded c + (position c + remaining c - last c) ->
  bytes_read (fill c)
  = bytes_yielded (fill c)
    + (position (fill c) + remaining (fill c) - last (fill c)) /\
  done (fill c) = done c /\ buf_size (fill c) = buf_size c.
Proof.
  intros (Hlast & Hfit & Hlen & Hmin) HK. unfold fill.
  destruct (eof c || _); [fields; splits; try reflexivity; lia|].
  destruct (read (_fd c) _) as [data_py fd].
  destruct (length data_py =? 0); cbn [negb]; fields;
    splits; try reflexivity; lia.
Qed.

Lemma refill_counter : forall fuel c c',
  refill fuel c = Some c' -> shape c ->
  bytes_read c = bytes_yielded c + (position c + remaining c - last c) ->
  bytes_read c' = bytes_yielded c' + (position c' + remaining c' - last c') /\
  done c' = done c /\ buf_size c' = buf_size c.
Proof.
  induction fuel as [|fuel IH]; intros c c' H Hs HK; cbn [refill] in H;
    [discriminate|].
  destruct (_ && _).
  - destruct (fill_shape c Hs) as (Hs1 & _).
    destruct (fill_counter c Hs HK) as (HK1 & Hd1 & Hb1).
    destruct (IH _ _ H Hs1 HK1) as (HK' & Hd' & Hb').
    splits; [exact HK'|congruence|congruence].
  - injection H as <-. splits; [exact HK|reflexivity|reflexivity].
Qed.

Lemma search_counter : forall fuel c sum c',
  search fuel c sum = Some c' -> shape c ->
  bytes_read c = bytes_yielded c + (position c + remaining c - last c) ->
  bytes_read c' = bytes_yielded c' + (position c' + remaining c' - last c') /\
  done c' = done c /\ buf_size c' = buf_size c.
Proof.
  induction fuel as [|fuel IH]; intros c sum c' H Hs HK; cbn [search] in H;
    [discriminate|].
  destruct (Nat.ltb_spec (window_size c) (remaining c)) as [Hgt|Hle];
    cbn [andb] in H.
  2:{ injection H as <-. splits; [exact HK|reflexivity|reflexivity]. }
  destruct (masked c sum).
  2:{ injection H as <-. splits; [exact HK|reflexivity|reflexivity]. }
  pose proof (slide_bound c (position c + remaining c - window_size c
                             - position c) (position c) sum) as Hb.
  destruct (slide _ c (position c) sum) as [p' sum']. cbn [fst] in Hb.
  assert (Hdid : p' - position c <= remaining c) by lia.
  destruct (advance_shape c (p' - position c) Hdid Hs) as [Hs1 _].
  assert (HK1 : bytes_read (advance c (p' - position c))
                = bytes_yielded (advance c (p' - position c))
                  + (position (advance c (p' - position c))
                     + remaining (advance c (p' - position c))
                     - last (advance c (p' - position c)))).
  { destruct Hs as (Hlast & _). fields. lia. }
  set (c1 := advance c (p' - position c)) in *.
  assert (Hd1 : done c1 = done c) by reflexivity.
  assert (Hb1 : buf_size c1 = buf_size c) by reflexivity.
  destruct (remaining c1 <=? window_size c1).
  - destruct (fill_shape c1 Hs1) as (Hs2 & _).
    destruct (fill_counter c1 Hs1 HK1) as (HK2 & Hd2 & Hb2).
    destruct (IH _ _ _ H Hs2 HK2) as (HK' & Hd' & Hb').
    splits; [exact HK'|congruence|congruence].
  - destruct (IH _ _ _ H Hs1 HK1) as (HK' & Hd' & Hb').
    splits; [exact HK'|congruence|congruence].
Qed.

(** One pull, on any source: it never raises, the chunk it returns
    holds between one byte and [buf_size] bytes, and the counters agree
    afterwards. *)
Lemma process_counter fuel c o c' :
  counters_agree c -> process fuel c = Some (o, c') ->
  counters_agree c' /\ buf_size c' = buf_size c /\
  match o with
  | Yield d => 1 <= length d <= buf_size c
  | StopIteration => True
  | Raise _ => False
  end.
Proof.
  intros (Hs & Hpl & HK) H. unfold process in H.
  destruct (done c) eqn:Edone.
  { rewrite HK, Nat.eqb_refl in H. injection H as <- <-.
    splits; try reflexivity; try exact I.
    unfold counters_agree. rewrite Edone. splits; assumption. }
  destruct (refill fuel c) as [c1|] eqn:Er; [|discriminate].
  destruct (refill_shape _ _ _ Er Hs) as (Hs1 & Hq1 & Hw1 & Hm1 & Hex).
  destruct (refill_counter _ _ _ Er Hs ltac:(lia)) as (HK1 & Hd1 & Hb1).
  pose proof Hs1 as (Hlast1 & Hfit1 & Hlen1 & Hmin1).
  assert (Hpl1 : position c1 = last c1) by lia.
  rewrite Edone in Hd1.
  destruct (eof c1) eqn:Eeof1.
  - fields.
    destruct (Nat.eqb_spec (remaining c1) 0) as [Hz|Hnz]; cbn [negb] in H.
    + replace (bytes_read c1 =? bytes_yielded c1) with true in H
        by (symmetry; apply Nat.eqb_eq; lia).
      injection H as <- <-. splits; try exact I; [|exact Hb1].
      unfold counters_agree, shape. fields. splits; try assumption. lia.
    + injection H as <- <-. unfold view. fields.
      split; [|split; [exact Hb1|]].
      * unfold counters_agree, shape. fields. splits; try assumption. lia.
      * rewrite length_firstn, length_skipn. lia.
  - specialize (Hex eq_refl). rewrite <- Hm1, <- Hw1 in Hex.
    assert (Hadv : min_size c1 <= remaining c1) by lia.
    destruct (advance_shape c1 (min_size c1) Hadv Hs1) as [Hs2 Hq2].
    assert (HK2 : bytes_read (advance c1 (min_size c1))
                  = bytes_yielded (advance c1 (min_size c1))
                    + (position (advance c1 (min_size c1))
                       + remaining (advance c1 (min_size c1))
                       - last (advance c1 (min_size c1)))).
    { fields. lia. }
    assert (Hd2 : done (advance c1 (min_size c1)) = false) by exact Hd1.
    assert (Hb2 : buf_size (advance c1 (min_size c1)) = buf_size c)
      by exact Hb1.
    set (c2 := advance c1 (min_size c1)) in *.
    destruct (search fuel c2 _) as [c3|] eqn:Es; [|discriminate].
    destruct (search_shape _ _ _ _ Es Hs2) as (Hs3 & Hq3 & Hw3).
    destruct (search_counter _ _ _ _ Es Hs2 HK2) as (HK3 & Hd3 & Hb3).
    assert (Hc4 : let c4 := if remaining c3 <=? window_size c3
                            then advance c3 (remaining c3) else c3 in
                  shape c4 /\
                  position c3 - last c3 <= position c4 - last c4 /\
                  bytes_read c4 = bytes_yielded c4
                                  + (position c4 + remaining c4 - last c4) /\
                  done c4 = false /\ buf_size c4 = buf_size c).
    { cbv zeta. destruct (remaining c3 <=? window_size c3).
      - destruct (advance_shape c3 (remaining c3) (le_n _) Hs3) as [Ha Hb].
        destruct Hs3 as (Hl3 & _).
        splits; [exact Ha|lia|fields; lia|fields; congruence|
                 fields; congruence].
      - splits; [exact Hs3|lia|exact HK3|congruence|congruence]. }
    cbv zeta in Hc4.
    set (c4 := if remaining c3 <=? window_size c3
               then advance c3 (remaining c3) else c3) in *.
    destruct Hc4 as (Hs4 & Hq4 & HK4 & Hd4 & Hb4).
    pose proof Hs4 as (Hlast4 & Hfit4 & Hlen4 & Hmin4).
    injection H as <- <-. unfold view. fields.
    split; [|split; [exact Hb4|]].
    + unfold counters_agree, shape. fields. rewrite Hd4.
      splits; try assumption; try reflexivity; lia.
    + rewrite length_firstn, length_skipn. lia.
Qed.

Lemma drain_counter zeros : forall fuel c chs e c',
  counters_agree c -> drain zeros fuel c = Some (chs, e, c') ->
  e = None /\ counters_agree c' /\
  Forall (fun ch => 1 <= size ch <= buf_size c) chs.
Proof.
  induction fuel as [|fuel IH]; intros c chs e c' Hc H; cbn [drain] in H;
    [discriminate|].
  unfold next in H.
  destruct (process (S fuel) c) as [[o c1]|] eqn:Ep; [|discriminate].
  destruct (process_counter _ _ _ _ Hc Ep) as (Hc1 & Hb1 & Ho).
  destruct o as [d| |e1]; [| |contradiction].
  - destruct (drain zeros fuel c1) as [[[chs1 e2] c2]|] eqn:Ed;
      [|discriminate].
    injection H as <- <- <-.
    destruct (IH _ _ _ _ Hc1 Ed) as (He & Hc2 & Hall).
    splits; [exact He|exact Hc2|].
    constructor; [rewrite size_classify; exact Ho|].
    rewrite Hb1 in Hall. exact Hall.
  - injection H as <- <- <-. splits; [reflexivity|exact Hc1|constructor].
Qed.

(** X22. Whatever the source does.  On any source (reads as short as
    they come, a read of no bytes before the end of the file, any seek
    position) every run of a chunker that [cinit] built comes to its
    end, and ends with [StopIteration]: the byte count error is never
    raised.  Every chunk of the run holds between one byte and
    [max_size] bytes, and at the end of the run the chunker is done and
    its two byte counters agree. *)
Theorem cdc_never_raises zeros seed min_exp max_exp mask_bits W junk c f
  fuel :
  cinit zeros seed min_exp max_exp mask_bits W junk = Some c ->
  2 * length (f_bytes f) + 2 ^ max_exp + 4 <= fuel ->
  exists chs c',
    drain zeros fuel (chunkify c f) = Some (chs, None, c') /\
    Forall (fun ch => 1 <= size ch <= 2 ^ max_exp) chs /\
    done c' = true /\ bytes_read c' = bytes_yielded c'.
Proof.
  intros Hc Hfuel.
  destruct (cinit_spec _ _ _ _ _ _ _ _ Hc)
    as (Hmin & Hbuf & Hwin & Hlen & _ & Hroom & _).
  assert (Hm1 : 1 <= min_size c).
  { rewrite Hmin. pose proof (Nat.pow_nonzero 2 min_exp). lia. }
  pose proof (chunkify_shape c f Hlen Hm1) as Hs.
  assert (Hagree : counters_agree (chunkify c f)).
  { unfold counters_agree. split; [exact Hs|split; reflexivity]. }
  assert (Hun : unread f <= length (f_bytes f)) by (unfold unread; lia).
  destruct (drain_total zeros fuel (unread f + 1) (chunkify c f) Hs)
    as (chs & e & c' & Hd).
  - reflexivity.
  - cbn [chunkify window_size min_size buf_size]. rewrite Hwin. exact Hroom.
  - unfold pending, held, chunkify. fields. lia.
  - unfold chunkify. fields. rewrite Hbuf. lia.
  - destruct (drain_counter zeros _ _ _ _ _ Hagree Hd) as (He & Hc' & Hall).
    subst e. exists chs, c'. split; [exact Hd|]. split.
    + change (buf_size (chunkify c f)) with (buf_size c) in Hall.
      rewrite Hbuf in Hall. exact Hall.
    + pose proof (drain_done zeros _ _ _ _ Hd) as Hdone.
      split; [exact Hdone|].
      destruct Hc' as (_ & _ & HK). rewrite Hdone in HK. exact HK.
Qed.

Lemma cdc_never_raises_witness :
  let zeros := repeat x00 64 in
  let f := mkfile [xa5; x4d; xca; x18; x25; x30; xbb; x1d; x6d; x13; x2c;
                   xde; xd6; x23; x7b; x2e; xd9; x1e; x3f; x72]
                  [] 2 [3; 4; 0; 5] [] in
  exists c chs c',
    cinit zeros 7 1 4 2 3 (fun _ => xff) = Some c /\
    drain zeros 100 (chunkify c f) = Some (chs, None, c') /\
    Forall (fun ch => 1 <= size ch <= 2 ^ 4) chs /\
    done c' = true /\ bytes_read c' = bytes_yielded c'.
Proof.
  cbv zeta.
  destruct (cdc_never_raises (repeat x00 64) 7 1 4 2 3 (fun _ => xff) _
            (mkfile [xa5; x4d; xca; x18; x25; x30; xbb; x1d; x6d; x13; x2c;
                     xde; xd6; x23; x7b; x2e; xd9; x1e; x3f; x72]
                    [] 2 [3; 4; 0; 5] []) 100 eq_refl)
    as (chs & c' & H).
  - cbn [f_bytes length]. change (2 ^ 4) with 16. lia.
  - eexists. exists chs, c'. split; [reflexivity|exact H].
Defined.

End CdcMore.
